(** * magiskboot/compress.c: the multi-codec transcoding layer

    A shallow embedding of [jni/magiskboot/compress.c]: the five chunked
    transcoders ([gzip], [lzma], [lz4], [bzip2], [lz4_legacy]), the two
    dispatchers ([decomp], [comp]) and the command-line helpers
    ([decomp_file], [comp_file]).

    Conventions of the embedding.
    - The target is LP64 and little-endian: [size_t] is 64 bits wide,
      [unsigned] and [int] are 32 bits wide, and [xwrite (fd, &x, 4)] emits
      the four bytes of [x] least significant first.
    - The input buffer [buf] is a [list byte]; [size] is its length.
    - The output stream behind [fd] is the list of bytes written so far.
    - The codec libraries (zlib, liblzma, lz4, bzip2) are not part of the
      program: each is a record of functions the transcoders are
      parameterised by.
    - Loops whose exit depends on a library are run with fuel. *)

From Stdlib Require Import ZArith List Lia Bool.
From Stdlib Require Import Strings.String Strings.Ascii Strings.Byte.
Import ListNotations.
Open Scope Z_scope.

(* ------------------------------------------------------------------ *)
(** ** Machine integers *)

Definition SIZE_MOD : Z := 2 ^ 64.
Definition UINT_MOD : Z := 2 ^ 32.

(** Conversion to [size_t]. *)
Definition to_size_t (z : Z) : Z := z mod SIZE_MOD.

(** Conversion to [unsigned]. *)
Definition to_unsigned (z : Z) : Z := z mod UINT_MOD.

(** Conversion of a [size_t] to [long long] (the dispatchers' return type). *)
Definition to_long_long (z : Z) : Z :=
  let r := z mod SIZE_MOD in
  if r <? 2 ^ 63 then r else r - SIZE_MOD.

(* ------------------------------------------------------------------ *)
(** ** Bytes and buffers *)

Definition byte_of_Z (z : Z) : byte :=
  match Byte.of_N (Z.to_N (z mod 256)) with
  | Some b => b
  | None => x00
  end.

Definition Z_of_byte (b : byte) : Z := Z.of_N (Byte.to_N b).

(** The four bytes of a 32-bit object, as they lie in little-endian memory. *)
Definition le32 (z : Z) : list byte :=
  [ byte_of_Z z;
    byte_of_Z (Z.shiftr z 8);
    byte_of_Z (Z.shiftr z 16);
    byte_of_Z (Z.shiftr z 24) ].

(** The [unsigned] that four bytes of little-endian memory hold. *)
Definition read_le32 (bs : list byte) : Z :=
  match bs with
  | [b0; b1; b2; b3] =>
      Z_of_byte b0 + Z.shiftl (Z_of_byte b1) 8
      + Z.shiftl (Z_of_byte b2) 16 + Z.shiftl (Z_of_byte b3) 24
  | _ => 0
  end.

(** [takeZ n l]: the first [n] elements; [dropZ n l]: all but the first [n].
    The count is a [Z] so that window sizes of several MiB never become
    unary numbers. *)
Fixpoint takeZ {A : Type} (n : Z) (l : list A) : list A :=
  match l with
  | [] => []
  | x :: r => if n <=? 0 then [] else x :: takeZ (n - 1) r
  end.

Fixpoint dropZ {A : Type} (n : Z) (l : list A) : list A :=
  match l with
  | [] => []
  | x :: r => if n <=? 0 then l else dropZ (n - 1) r
  end.

Definition lenZ {A : Type} (l : list A) : Z := Z.of_nat (List.length l).

(** [buf + pos], [len] bytes of it, with no bounds check (the streaming
    libraries are handed a pointer and a count). *)
Definition window (buf : list byte) (pos len : Z) : list byte :=
  takeZ len (dropZ pos buf).

(** A read of [len] bytes at [buf + pos] that must stay inside
    [buf, buf + size): C gives no meaning to a read outside the object. *)
Definition mem_read (buf : list byte) (pos len : Z) : option (list byte) :=
  if (0 <=? pos) && (0 <=? len) && (pos + len <=? lenZ buf)
  then Some (window buf pos len)
  else None.

(* ------------------------------------------------------------------ *)
(** ** Outcomes *)

(** The error kinds of the layer.  [LOGE] prints and terminates the command;
    which kind an exit stands for is read off its message. *)
Inductive error : Type :=
| CodecInitError      (* "Unable to init ... stream", "Context creation error" *)
| CodecStreamError    (* a library fault reported while coding *)
| ExtensionMismatch   (* "Bad filename extention" *)
| UnsupportedFormat   (* "... is not a supported archive format" *)
| UnknownMethod       (* "Only support following methods: ..." *)
| UndefinedBehaviour. (* a read outside the input buffer or of an
                         uninitialised object *)

Inductive outcome (A : Type) : Type :=
| Ok (a : A)
| Fail (e : error)
| OutOfFuel.
Arguments Ok {A} a.
Arguments Fail {A} e.
Arguments OutOfFuel {A}.

Definition bind {A B : Type} (m : outcome A) (k : A -> outcome B) : outcome B :=
  match m with
  | Ok a => k a
  | Fail e => Fail e
  | OutOfFuel => OutOfFuel
  end.

Notation "x <- m ;; k" := (bind m (fun x => k))
  (at level 61, m at next level, right associativity).

(** Modelled from the spec: the [LOGE] macro of logging.h (not under src/),
    the "global exit-on-error logging macro": it reports and terminates. *)
Definition LOGE {A : Type} (e : error) : outcome A := Fail e.

(** What one run of a loop body asks for: go on to the loop test, or leave
    the loop at once ([goto done]). *)
Inductive control (S : Type) : Type :=
| Next (s : S)
| Break (s : S).
Arguments Next {S} s.
Arguments Break {S} s.

(** [do { body } while (cond);] *)
Fixpoint do_while {S : Type} (fuel : nat)
    (body : S -> outcome (control S)) (cond : S -> bool) (s : S) : outcome S :=
  match fuel with
  | O => OutOfFuel
  | Datatypes.S fuel' =>
      match body s with
      | Ok (Next s') => if cond s' then do_while fuel' body cond s' else Ok s'
      | Ok (Break s') => Ok s'
      | Fail e => Fail e
      | OutOfFuel => OutOfFuel
      end
  end.

(* ------------------------------------------------------------------ *)
(** ** The output stream *)

(** Modelled from the spec: [xwrite] of utils.c (not under src/), the chunked
    I/O sink: it writes the byte range to the stream and returns the number
    of bytes written.  [data] is the memory at the pointer, [count] the
    requested length. *)
Definition xwrite (fd : list byte) (data : list byte) (count : Z)
  : list byte * Z :=
  (fd ++ takeZ count data, lenZ (takeZ count data)).

(* ------------------------------------------------------------------ *)
(** ** Constants of compress.c *)

Definition windowBits : Z := 15.
Definition ZLIB_GZIP : Z := 16.
Definition memLevel : Z := 8.
Definition CHUNK : Z := 0x40000.

Definition LZ4_HEADER_SIZE : Z := 19.
Definition LZ4_FOOTER_SIZE : Z := 4.
Definition LZ4_LEGACY_BLOCKSIZE : Z := 0x800000.

(** lz4.h: [LZ4_MAX_INPUT_SIZE] and the [LZ4_COMPRESSBOUND] macro. *)
Definition LZ4_MAX_INPUT_SIZE : Z := 0x7E000000.
Definition LZ4_COMPRESSBOUND (isize : Z) : Z :=
  if to_unsigned isize >? LZ4_MAX_INPUT_SIZE then 0
  else isize + isize / 255 + 16.

(* ------------------------------------------------------------------ *)
(** ** LZ4 block library (lz4.h, lz4hc.h) *)

(** [LZ4_compress_HC src dstCapacity level] is the content of [dst] after the
    call, the returned [int] being its length (0 reports failure).
    [LZ4_decompress_safe src maxDecompressedSize] is [None] when the call
    returns a negative value, else the decoded bytes, the returned [int]
    being their number. *)
Record lz4_block_lib : Type := {
  LZ4_compress_HC : list byte -> Z -> Z -> list byte;
  LZ4_decompress_safe : list byte -> Z -> option (list byte)
}.

(* ------------------------------------------------------------------ *)
(** ** lz4_legacy *)

Record legacy_state : Type := {
  lg_pos : Z;            (* size_t pos *)
  lg_total : Z;          (* unsigned total *)
  lg_fd : list byte      (* the output stream *)
}.

Definition legacy_magic : list byte := [x02; x21; x4c; x18].

Section Lz4Legacy.
Variable L : lz4_block_lib.
Variable buf : list byte.
Let size : Z := lenZ buf.

(** [total += xwrite (fd, data, count)] on an [unsigned total]. *)
Definition legacy_write (s : legacy_state) (data : list byte) (count : Z)
  : legacy_state :=
  let '(fd', n) := xwrite (lg_fd s) data count in
  {| lg_pos := lg_pos s;
     lg_total := to_unsigned (lg_total s + n);
     lg_fd := fd' |}.

Definition legacy_set_pos (s : legacy_state) (p : Z) : legacy_state :=
  {| lg_pos := p; lg_total := lg_total s; lg_fd := lg_fd s |}.

(** The loop body, [case 0]. *)
Definition legacy_decode_body (s : legacy_state)
  : outcome (control legacy_state) :=
  (* block_size = *(unsigned * )(buf + pos); *)
  match mem_read buf (lg_pos s) 4 with
  | None => Fail UndefinedBehaviour
  | Some word =>
      let block_size := read_le32 word in
      (* pos += 4; *)
      let pos1 := to_size_t (lg_pos s + 4) in
      if block_size >? LZ4_COMPRESSBOUND LZ4_LEGACY_BLOCKSIZE
      then Ok (Break (legacy_set_pos s pos1))        (* goto done; *)
      else
        (* have = LZ4_decompress_safe (buf + pos, out, block_size, ...); *)
        match mem_read buf pos1 block_size with
        | None => Fail UndefinedBehaviour
        | Some src =>
            match LZ4_decompress_safe L src LZ4_LEGACY_BLOCKSIZE with
            | None => LOGE CodecStreamError           (* have < 0 *)
            | Some out =>
                let have := lenZ out in
                (* pos += block_size; *)
                let pos2 := to_size_t (pos1 + block_size) in
                (* total += xwrite (fd, out, have); *)
                Ok (Next (legacy_write (legacy_set_pos s pos2) out have))
            end
        end
  end.

(** The loop body, [case 1]. *)
Definition legacy_encode_body (s : legacy_state)
  : outcome (control legacy_state) :=
  let pos := lg_pos s in
  let insize :=
    if to_size_t (pos + LZ4_LEGACY_BLOCKSIZE) >=? size
    then to_unsigned (to_size_t (size - pos))
    else LZ4_LEGACY_BLOCKSIZE in
  match mem_read buf pos insize with
  | None => Fail UndefinedBehaviour
  | Some src =>
      let out :=
        LZ4_compress_HC L src (LZ4_COMPRESSBOUND LZ4_LEGACY_BLOCKSIZE) 9 in
      let have := lenZ out in
      if have =? 0 then LOGE CodecStreamError
      else
        (* pos += insize; *)
        let s1 := legacy_set_pos s (to_size_t (pos + insize)) in
        (* total += xwrite (fd, &have, sizeof (have)); *)
        let s2 := legacy_write s1 (le32 have) 4 in
        (* total += xwrite (fd, out, have); *)
        Ok (Next (legacy_write s2 out have))
  end.

Definition legacy_cond (s : legacy_state) : bool := lg_pos s <? size.

(** [lz4_legacy (mode, fd, buf, size)]: the returned total and the output
    stream after the call.  Mode: 0 = decode; 1 = encode.  With any other
    mode the loop writes [have] bytes of [out], both uninitialised. *)
Definition lz4_legacy_fuel (fuel : nat) (mode : Z) (fd : list byte)
  : outcome (Z * list byte) :=
  let s0 := {| lg_pos := 0; lg_total := 0; lg_fd := fd |} in
  if mode =? 0 then
    (* pos += 4; *)
    let s1 := legacy_set_pos s0 4 in
    s <- do_while fuel legacy_decode_body legacy_cond s1 ;;
    Ok (lg_total s, lg_fd s)
  else if mode =? 1 then
    (* total += xwrite (fd, "\x02\x21\x4c\x18", 4); *)
    let s1 := legacy_write s0 legacy_magic 4 in
    s <- do_while fuel legacy_encode_body legacy_cond s1 ;;
    (* unsigned uncomp = size; xwrite (fd, &uncomp, sizeof (uncomp)); *)
    let '(fd', _) := xwrite (lg_fd s) (le32 (to_unsigned size)) 4 in
    Ok (lg_total s, fd')
  else Fail UndefinedBehaviour.

(** Every iteration moves [pos] forward by at least four bytes (decode) or
    by a whole block (encode), so [size + 1] iterations always suffice. *)
Definition lz4_legacy (mode : Z) (fd : list byte) : outcome (Z * list byte) :=
  lz4_legacy_fuel (Datatypes.S (List.length buf)) mode fd.

End Lz4Legacy.

(* ------------------------------------------------------------------ *)
(** ** The streaming libraries (zlib.h, lzma.h, bzlib.h) *)

(** One call of a streaming coder ([inflate], [deflate], [lzma_code],
    [BZ2_bzCompress], [BZ2_bzDecompress]): the value it returns, the number
    of input bytes it took from [next_in], the bytes it stored at [next_out],
    and its new internal state. *)
Record stream_step (I : Type) : Type := {
  st_ret : Z;
  st_used : Z;
  st_out : list byte;
  st_next : I
}.
Arguments st_ret {I} _.
Arguments st_used {I} _.
Arguments st_out {I} _.
Arguments st_next {I} _.

(** zlib.  A coder call receives the internal state, the [avail_in] bytes at
    [next_in], [avail_out] and the flush argument. *)
Record zlib : Type := {
  z_internal : Type;
  z_uninit : z_internal;                 (* a [z_stream] before any init *)
  inflateInit2 : Z -> Z * z_internal;
  deflateInit2 : Z -> Z -> Z -> Z -> Z -> Z * z_internal;
  inflate : z_internal -> list byte -> Z -> Z -> stream_step z_internal;
  deflate : z_internal -> list byte -> Z -> Z -> stream_step z_internal
}.

Definition Z_OK : Z := 0.
Definition Z_STREAM_END : Z := 1.
Definition Z_STREAM_ERROR : Z := -2.
Definition Z_DATA_ERROR : Z := -3.
Definition Z_BUF_ERROR : Z := -5.
Definition Z_NO_FLUSH : Z := 0.
Definition Z_FINISH : Z := 4.
Definition Z_DEFLATED : Z := 8.
Definition Z_DEFAULT_STRATEGY : Z := 0.

(** liblzma.  [lzma_stream_encoder] receives the filter chain, here the
    preset of its single LZMA2 filter, and the integrity check;
    [lzma_alone_encoder] the preset of its options. *)
Record liblzma : Type := {
  lzma_internal : Type;
  LZMA_STREAM_INIT : lzma_internal;
  lzma_auto_decoder : lzma_internal -> Z -> Z -> Z * lzma_internal;
  lzma_stream_encoder : lzma_internal -> Z -> Z -> Z * lzma_internal;
  lzma_alone_encoder : lzma_internal -> Z -> Z * lzma_internal;
  lzma_code : lzma_internal -> list byte -> Z -> Z -> stream_step lzma_internal
}.

Definition LZMA_OK : Z := 0.
Definition LZMA_STREAM_END : Z := 1.
Definition LZMA_BUF_ERROR : Z := 10.
Definition LZMA_RUN : Z := 0.
Definition LZMA_FINISH : Z := 3.
Definition LZMA_CHECK_CRC32 : Z := 1.
Definition UINT64_MAX : Z := 2 ^ 64 - 1.

(** bzlib.  [BZ2_bzDecompress] has no action argument. *)
Record bzlib : Type := {
  bz_internal : Type;
  bz_uninit : bz_internal;
  BZ2_bzDecompressInit : Z -> Z -> Z * bz_internal;
  BZ2_bzCompressInit : Z -> Z -> Z -> Z * bz_internal;
  BZ2_bzDecompress : bz_internal -> list byte -> Z -> stream_step bz_internal;
  BZ2_bzCompress : bz_internal -> list byte -> Z -> Z -> stream_step bz_internal
}.

Definition BZ_OK : Z := 0.
Definition BZ_RUN : Z := 0.
Definition BZ_FINISH : Z := 2.
Definition BZ_STREAM_END : Z := 4.

(** The locals of [gzip], [lzma] and [bzip2], with the stream's public
    fields. *)
Record coder_state (I : Type) : Type := {
  pos : Z;          (* size_t pos *)
  total : Z;        (* size_t total *)
  ret : Z;          (* the last returned code *)
  next_in : Z;      (* strm.next_in, as an offset into buf *)
  avail_in : Z;     (* strm.avail_in *)
  avail_out : Z;    (* strm.avail_out *)
  strm : I;         (* the library's part of the stream *)
  fd : list byte    (* the output stream *)
}.
Arguments pos {I} _.
Arguments total {I} _.
Arguments ret {I} _.
Arguments next_in {I} _.
Arguments avail_in {I} _.
Arguments avail_out {I} _.
Arguments strm {I} _.
Arguments fd {I} _.

Section Coder.
Context {I : Type}.

(** [strm.next_in = buf + pos; strm.avail_in = n; pos += strm.avail_in;] *)
Definition feed (s : coder_state I) (n : Z) : coder_state I :=
  {| pos := to_size_t (pos s + n); total := total s; ret := ret s;
     next_in := pos s; avail_in := n; avail_out := avail_out s;
     strm := strm s; fd := fd s |}.

(** [strm.avail_out = cap; strm.next_out = out;] *)
Definition reset_out (s : coder_state I) (cap : Z) : coder_state I :=
  {| pos := pos s; total := total s; ret := ret s;
     next_in := next_in s; avail_in := avail_in s; avail_out := cap;
     strm := strm s; fd := fd s |}.

(** The effect of a coder call on the stream and on [ret]:
    [conv] is the conversion to the type of the local [ret]. *)
Definition after_call (conv : Z -> Z) (width : Z) (s : coder_state I)
    (r : stream_step I) : coder_state I :=
  {| pos := pos s; total := total s; ret := conv (st_ret r);
     next_in := next_in s + st_used r;
     avail_in := (avail_in s - st_used r) mod width;
     avail_out := (avail_out s - lenZ (st_out r)) mod width;
     strm := st_next r; fd := fd s |}.

(** [have = cap - strm.avail_out; total += xwrite (fd, out, have);] *)
Definition drain (s : coder_state I) (cap : Z) (out : list byte)
  : coder_state I :=
  let have := to_size_t (cap - avail_out s) in
  let '(fd', n) := xwrite (fd s) out have in
  {| pos := pos s; total := to_size_t (total s + n); ret := ret s;
     next_in := next_in s; avail_in := avail_in s;
     avail_out := avail_out s; strm := strm s; fd := fd' |}.

Definition coder_init (r : Z) (i : I) (out0 : list byte) : coder_state I :=
  {| pos := 0; total := 0; ret := r; next_in := 0; avail_in := 0;
     avail_out := 0; strm := i; fd := out0 |}.
End Coder.

(** The window the outer loop of [gzip], [lzma] and [bzip2] selects at
    [pos]: its length and whether it is the last one. *)
Definition select_window (chunk pos size : Z) : Z * bool :=
  if to_size_t (pos + chunk) >=? size
  then (to_size_t (size - pos), true)
  else (chunk, false).

(* ------------------------------------------------------------------ *)
(** ** gzip *)

Section Gzip.
Variable ZL : zlib.
Variable buf : list byte.
Let size : Z := lenZ buf.
Let st : Type := coder_state (z_internal ZL).

(** The inner loop body.  [flush] was chosen by the outer iteration. *)
Definition gzip_inner_body (mode flush : Z) (s : st) : outcome (control st) :=
  let s := reset_out s CHUNK in
  let input := window buf (next_in s) (avail_in s) in
  let '(s, out) :=
    if mode =? 0 then
      let r := inflate ZL (strm s) input (avail_out s) flush in
      (after_call to_size_t UINT_MOD s r, st_out r)
    else if mode =? 1 then
      let r := deflate ZL (strm s) input (avail_out s) flush in
      (after_call to_size_t UINT_MOD s r, st_out r)
    else (s, []) in
  if ret s =? to_size_t Z_STREAM_ERROR then LOGE CodecStreamError
  else Ok (Next (drain s CHUNK out)).

Definition gzip_inner_cond (s : st) : bool := avail_out s =? 0.

Definition gzip_outer_body (fuel : nat) (mode : Z) (s : st)
  : outcome (control st) :=
  let '(n, last) := select_window CHUNK (pos s) size in
  let flush := if last then Z_FINISH else Z_NO_FLUSH in
  let s := feed s (to_unsigned n) in
  s <- do_while fuel (gzip_inner_body mode flush) gzip_inner_cond s ;;
  Ok (Next s).

Definition gzip_outer_cond (s : st) : bool := pos s <? size.

Definition gzip_init (mode : Z) : Z * z_internal ZL :=
  if mode =? 0 then inflateInit2 ZL (Z.lor windowBits ZLIB_GZIP)
  else if mode =? 1 then
    deflateInit2 ZL 9 Z_DEFLATED (Z.lor windowBits ZLIB_GZIP) memLevel
      Z_DEFAULT_STRATEGY
  else (0, z_uninit ZL).

(** [gzip (mode, fd, buf, size)].  Mode: 0 = decode; 1 = encode. *)
Definition gzip (fuel : nat) (mode : Z) (out0 : list byte)
  : outcome (Z * list byte) :=
  let '(r, i) := gzip_init mode in
  if negb (to_size_t r =? to_size_t Z_OK) then LOGE CodecInitError
  else
    s <- do_while fuel (gzip_outer_body fuel mode) gzip_outer_cond
           (coder_init (to_size_t r) i out0) ;;
    Ok (total s, fd s).
End Gzip.

(* ------------------------------------------------------------------ *)
(** ** lzma *)

Section Lzma.
Variable LZ : liblzma.
(** [BUFSIZ] of <stdio.h>: the size of the output array and of the input
    window. *)
Variable BUFSIZ : Z.
Variable buf : list byte.
Let size : Z := lenZ buf.
Let st : Type := coder_state (lzma_internal LZ).

Definition lzma_inner_body (action : Z) (s : st) : outcome (control st) :=
  let s := reset_out s BUFSIZ in
  let input := window buf (next_in s) (avail_in s) in
  let r := lzma_code LZ (strm s) input (avail_out s) action in
  let s := after_call (fun z => z) SIZE_MOD s r in
  Ok (Next (drain s BUFSIZ (st_out r))).

Definition lzma_inner_cond (s : st) : bool :=
  (avail_out s =? 0) && (ret s =? LZMA_OK).

Definition lzma_outer_body (fuel : nat) (s : st) : outcome (control st) :=
  let '(n, last) := select_window BUFSIZ (pos s) size in
  let action := if last then LZMA_FINISH else LZMA_RUN in
  let s := feed s n in
  s <- do_while fuel (lzma_inner_body action) lzma_inner_cond s ;;
  if negb (ret s =? LZMA_OK) && negb (ret s =? LZMA_STREAM_END)
  then LOGE CodecStreamError
  else Ok (Next s).

Definition lzma_outer_cond (s : st) : bool := pos s <? size.

(** The preset [lzma_lzma_preset (&opt, 9)] stores in [opt]. *)
Definition lzma_preset : Z := 9.

Definition lzma_init (mode : Z) : Z * lzma_internal LZ :=
  if mode =? 0 then lzma_auto_decoder LZ (LZMA_STREAM_INIT LZ) UINT64_MAX 0
  else if mode =? 1 then
    lzma_stream_encoder LZ (LZMA_STREAM_INIT LZ) lzma_preset LZMA_CHECK_CRC32
  else if mode =? 2 then
    lzma_alone_encoder LZ (LZMA_STREAM_INIT LZ) lzma_preset
  else (0, LZMA_STREAM_INIT LZ).

(** [lzma (mode, fd, buf, size)].
    Mode: 0 = decode xz/lzma; 1 = encode xz; 2 = encode lzma. *)
Definition lzma (fuel : nat) (mode : Z) (out0 : list byte)
  : outcome (Z * list byte) :=
  let '(r, i) := lzma_init mode in
  if negb (r =? LZMA_OK) then LOGE CodecInitError
  else
    s <- do_while fuel (lzma_outer_body fuel) lzma_outer_cond
           (coder_init r i out0) ;;
    Ok (total s, fd s).
End Lzma.

(* ------------------------------------------------------------------ *)
(** ** bzip2 *)

Section Bzip2.
Variable BZ : bzlib.
Variable buf : list byte.
Let size : Z := lenZ buf.
Let st : Type := coder_state (bz_internal BZ).

(** The inner loop body: the returned code is stored and never tested. *)
Definition bzip2_inner_body (mode action : Z) (s : st)
  : outcome (control st) :=
  let s := reset_out s CHUNK in
  let input := window buf (next_in s) (avail_in s) in
  let '(s, out) :=
    if mode =? 0 then
      let r := BZ2_bzDecompress BZ (strm s) input (avail_out s) in
      (after_call to_size_t UINT_MOD s r, st_out r)
    else if mode =? 1 then
      let r := BZ2_bzCompress BZ (strm s) input (avail_out s) action in
      (after_call to_size_t UINT_MOD s r, st_out r)
    else (s, []) in
  Ok (Next (drain s CHUNK out)).

Definition bzip2_inner_cond (s : st) : bool := avail_out s =? 0.

Definition bzip2_outer_body (fuel : nat) (mode : Z) (s : st)
  : outcome (control st) :=
  let '(n, last) := select_window CHUNK (pos s) size in
  let action := if last then BZ_FINISH else BZ_RUN in
  let s := feed s (to_unsigned n) in
  s <- do_while fuel (bzip2_inner_body mode action) bzip2_inner_cond s ;;
  Ok (Next s).

Definition bzip2_outer_cond (s : st) : bool := pos s <? size.

Definition bzip2_init (mode : Z) : Z * bz_internal BZ :=
  if mode =? 0 then BZ2_bzDecompressInit BZ 0 0
  else if mode =? 1 then BZ2_bzCompressInit BZ 9 0 0
  else (0, bz_uninit BZ).

(** [bzip2 (mode, fd, buf, size)].  Mode: 0 = decode; 1 = encode. *)
Definition bzip2 (fuel : nat) (mode : Z) (out0 : list byte)
  : outcome (Z * list byte) :=
  let '(r, i) := bzip2_init mode in
  if negb (to_size_t r =? to_size_t BZ_OK) then LOGE CodecInitError
  else
    s <- do_while fuel (bzip2_outer_body fuel mode) bzip2_outer_cond
           (coder_init (to_size_t r) i out0) ;;
    Ok (total s, fd s).
End Bzip2.

(* ------------------------------------------------------------------ *)
(** ** LZ4 frame library (lz4frame.h) *)

Record LZ4F_preferences_t : Type := {
  blockSizeID : Z;
  blockMode : Z;
  contentChecksumFlag : Z;
  compressionLevel : Z;
  autoFlush : Z
}.

(** Functions that fill [dstBuffer] return the returned [size_t] and the
    content of the buffer; [LZ4F_decompress] also returns the number of
    source bytes it consumed (the updated [*srcSizePtr]) and stores in
    [*dstSizePtr] the length of what it decoded.  [LZ4F_getFrameInfo] is
    given the bytes at [srcBuffer] that lie inside the input and the declared
    [*srcSizePtr]; it returns the code, [info.blockSizeID] and the number of
    source bytes it read, the frame header, which is what it stores in
    [*srcSizePtr] when it succeeds. *)
Record lz4f_lib : Type := {
  lz4f_dctx : Type;
  lz4f_cctx : Type;
  LZ4F_isError : Z -> bool;
  LZ4F_createDecompressionContext : Z -> Z * lz4f_dctx;
  LZ4F_createCompressionContext : Z -> Z * lz4f_cctx;
  LZ4F_getFrameInfo : lz4f_dctx -> list byte -> Z -> Z * Z * Z * lz4f_dctx;
  LZ4F_compressFrameBound : Z -> Z;
  LZ4F_compressBegin :
    lz4f_cctx -> Z -> LZ4F_preferences_t -> Z * list byte * lz4f_cctx;
  LZ4F_compressUpdate :
    lz4f_cctx -> Z -> list byte -> Z * list byte * lz4f_cctx;
  LZ4F_compressEnd : lz4f_cctx -> Z -> Z * list byte * lz4f_cctx;
  LZ4F_decompress :
    lz4f_dctx -> Z -> list byte -> Z * list byte * Z * lz4f_dctx
}.

Definition LZ4F_VERSION : Z := 100.
Definition LZ4F_default : Z := 0.
Definition LZ4F_max64KB : Z := 4.
Definition LZ4F_max256KB : Z := 5.
Definition LZ4F_max1MB : Z := 6.
Definition LZ4F_max4MB : Z := 7.

(* ------------------------------------------------------------------ *)
(** ** lz4 *)

Record lz4_state (D C : Type) : Type := {
  l_pos : Z;             (* size_t pos *)
  l_total : Z;           (* size_t total *)
  l_ret : Z;             (* size_t ret *)
  l_avail_in : Z;        (* size_t avail_in *)
  l_ctx : D + C;         (* dctx or cctx, whichever the mode created *)
  l_fd : list byte
}.
Arguments l_pos {D C} _.
Arguments l_total {D C} _.
Arguments l_ret {D C} _.
Arguments l_avail_in {D C} _.
Arguments l_ctx {D C} _.
Arguments l_fd {D C} _.

Section Lz4.
Variable LF : lz4f_lib.
Variable buf : list byte.
Let size : Z := lenZ buf.
Let st : Type := lz4_state (lz4f_dctx LF) (lz4f_cctx LF).

(** [blockSize = 1 << 22;] *)
Definition lz4_blockSize : Z := Z.shiftl 1 22.

(** The switch on [info.blockSizeID]. *)
Definition lz4_outCapacity (id : Z) : option Z :=
  if (id =? LZ4F_default) || (id =? LZ4F_max64KB) then Some (Z.shiftl 1 16)
  else if id =? LZ4F_max256KB then Some (Z.shiftl 1 18)
  else if id =? LZ4F_max1MB then Some (Z.shiftl 1 20)
  else if id =? LZ4F_max4MB then Some (Z.shiftl 1 22)
  else None.

Definition lz4_prefs : LZ4F_preferences_t :=
  {| blockSizeID := 7; blockMode := 1; contentChecksumFlag := 1;
     compressionLevel := 9; autoFlush := 1 |}.

(** [total += xwrite (fd, out, have);] *)
Definition lz4_write (s : st) (out : list byte) (have : Z) : st :=
  let '(fd', n) := xwrite (l_fd s) out have in
  {| l_pos := l_pos s; l_total := to_size_t (l_total s + n);
     l_ret := l_ret s; l_avail_in := l_avail_in s; l_ctx := l_ctx s;
     l_fd := fd' |}.

(** [ret = r; pos += read; avail_in -= read;] with the new context. *)
Definition lz4_advance (s : st) (r read : Z)
    (c : lz4f_dctx LF + lz4f_cctx LF) : st :=
  {| l_pos := to_size_t (l_pos s + read); l_total := l_total s;
     l_ret := r; l_avail_in := to_size_t (l_avail_in s - read);
     l_ctx := c; l_fd := l_fd s |}.

Definition lz4_set_avail (s : st) (n : Z) : st :=
  {| l_pos := l_pos s; l_total := l_total s; l_ret := l_ret s;
     l_avail_in := n; l_ctx := l_ctx s; l_fd := l_fd s |}.

Definition lz4_inner_body (mode outCapacity : Z) (s : st)
  : outcome (control st) :=
  let input := window buf (l_pos s) (l_avail_in s) in
  match l_ctx s with
  | inl dctx =>
      if mode =? 0 then
        (* have = outCapacity; read = avail_in; *)
        let '(r, out, read, dctx') :=
          LZ4F_decompress LF dctx outCapacity input in
        if LZ4F_isError LF r then LOGE CodecStreamError
        else
          let s1 := lz4_write s out (lenZ out) in
          Ok (Next (lz4_advance s1 r read (inl dctx')))
      else Fail UndefinedBehaviour
  | inr cctx =>
      if mode =? 1 then
        (* read = avail_in; have = ret = LZ4F_compressUpdate (...); *)
        let '(r, out, cctx') :=
          LZ4F_compressUpdate LF cctx outCapacity input in
        if LZ4F_isError LF r then LOGE CodecStreamError
        else
          let s1 := lz4_write s out r in
          Ok (Next (lz4_advance s1 r (l_avail_in s) (inr cctx')))
      else Fail UndefinedBehaviour
  end.

Definition lz4_inner_cond (s : st) : bool :=
  negb (l_avail_in s =? 0) && negb (l_ret s =? 0).

Definition lz4_outer_body (fuel : nat) (mode outCapacity : Z) (s : st)
  : outcome (control st) :=
  let avail :=
    if to_size_t (l_pos s + lz4_blockSize) >=? size
    then to_size_t (size - l_pos s)
    else lz4_blockSize in
  s <- do_while fuel (lz4_inner_body mode outCapacity) lz4_inner_cond
         (lz4_set_avail s avail) ;;
  Ok (Next s).

Definition lz4_outer_cond (s : st) : bool :=
  (l_pos s <? size) && negb (l_ret s =? 0).

Definition lz4_start (r p : Z) (c : lz4f_dctx LF + lz4f_cctx LF)
    (out0 : list byte) : st :=
  {| l_pos := p; l_total := 0; l_ret := r; l_avail_in := 0;
     l_ctx := c; l_fd := out0 |}.

(** [lz4 (mode, fd, buf, size)].  Mode: 0 = decode; 1 = encode.  With any
    other mode [outCapacity] is read uninitialised. *)
Definition lz4 (fuel : nat) (mode : Z) (out0 : list byte)
  : outcome (Z * list byte) :=
  if mode =? 0 then
    let '(r, dctx) := LZ4F_createDecompressionContext LF LZ4F_VERSION in
    if LZ4F_isError LF r then LOGE CodecInitError
    else
      (* read = blockSize; ret = LZ4F_getFrameInfo (dctx, &info, buf, &read); *)
      let '(r, id, read, dctx) :=
        LZ4F_getFrameInfo LF dctx (window buf 0 lz4_blockSize)
          lz4_blockSize in
      (* the call is told that [blockSize] bytes can be read, whatever
         [size] is: a header longer than the input is read behind its end *)
      if size <? read then Fail UndefinedBehaviour
      else if LZ4F_isError LF r then LOGE CodecStreamError
      else
        match lz4_outCapacity id with
        | None => LOGE CodecStreamError
        | Some outCapacity =>
            (* pos += read; *)
            let s0 := lz4_start r (to_size_t (0 + read)) (inl dctx) out0 in
            s <- do_while fuel (lz4_outer_body fuel 0 outCapacity)
                   lz4_outer_cond s0 ;;
            Ok (l_total s, l_fd s)
        end
  else if mode =? 1 then
    let '(r, cctx) := LZ4F_createCompressionContext LF LZ4F_VERSION in
    if LZ4F_isError LF r then LOGE CodecInitError
    else
      let outCapacity := LZ4F_compressFrameBound LF lz4_blockSize in
      (* have = ret = LZ4F_compressBegin (cctx, out, size, &prefs); *)
      let '(r, out, cctx) := LZ4F_compressBegin LF cctx size lz4_prefs in
      if LZ4F_isError LF r then LOGE CodecStreamError
      else
        let s0 := lz4_write (lz4_start r 0 (inr cctx) out0) out r in
        s <- do_while fuel (lz4_outer_body fuel 1 outCapacity)
               lz4_outer_cond s0 ;;
        match l_ctx s with
        | inr cctx =>
            (* have = ret = LZ4F_compressEnd (cctx, out, outCapacity, NULL); *)
            let '(r, out, _) := LZ4F_compressEnd LF cctx outCapacity in
            if LZ4F_isError LF r then LOGE CodecStreamError
            else
              let s := lz4_write s out r in
              Ok (l_total s, l_fd s)
        | inl _ => Fail UndefinedBehaviour
        end
  else Fail UndefinedBehaviour.
End Lz4.

(* ------------------------------------------------------------------ *)
(** ** The dispatchers *)

(** Modelled from the spec: the [file_t] enumeration of magiskboot.h (not
    under src/), "one of {gzip, xz, legacy-LZMA, bzip2, LZ4-frame,
    LZ4-legacy, unknown}". *)
Inductive file_t : Type :=
| UNKNOWN | GZIP | XZ | LZMA | BZIP2 | LZ4 | LZ4_LEGACY.

(** The libraries the program is linked with, and [BUFSIZ] of <stdio.h>. *)
Record codecs : Type := {
  lib_zlib : zlib;
  lib_lzma : liblzma;
  lib_bzip2 : bzlib;
  lib_lz4f : lz4f_lib;
  lib_lz4 : lz4_block_lib;
  BUFSIZ : Z
}.

(** [return f (...)] in a function that returns [long long]: the transcoder's
    [size_t] is converted. *)
Definition as_long_long (o : outcome (Z * list byte)) : outcome (Z * list byte) :=
  r <- o ;; Ok (to_long_long (fst r), snd r).

Section Dispatch.
Variable K : codecs.

Definition decomp (fuel : nat) (type : file_t) (to : list byte)
    (from : list byte) : outcome (Z * list byte) :=
  match type with
  | GZIP => as_long_long (gzip (lib_zlib K) from fuel 0 to)
  | XZ => as_long_long (lzma (lib_lzma K) (BUFSIZ K) from fuel 0 to)
  | LZMA => as_long_long (lzma (lib_lzma K) (BUFSIZ K) from fuel 0 to)
  | BZIP2 => as_long_long (bzip2 (lib_bzip2 K) from fuel 0 to)
  | LZ4 => as_long_long (lz4 (lib_lz4f K) from fuel 0 to)
  | LZ4_LEGACY => as_long_long (lz4_legacy (lib_lz4 K) from 0 to)
  | _ => Ok (-1, to)        (* Unsupported *)
  end.

Definition comp (fuel : nat) (type : file_t) (to : list byte)
    (from : list byte) : outcome (Z * list byte) :=
  match type with
  | GZIP => as_long_long (gzip (lib_zlib K) from fuel 1 to)
  | XZ => as_long_long (lzma (lib_lzma K) (BUFSIZ K) from fuel 1 to)
  | LZMA => as_long_long (lzma (lib_lzma K) (BUFSIZ K) from fuel 2 to)
  | BZIP2 => as_long_long (bzip2 (lib_bzip2 K) from fuel 1 to)
  | LZ4 => as_long_long (lz4 (lib_lz4f K) from fuel 1 to)
  | LZ4_LEGACY => as_long_long (lz4_legacy (lib_lz4 K) from 1 to)
  | _ => Ok (-1, to)        (* Unsupported *)
  end.
End Dispatch.

(* ------------------------------------------------------------------ *)
(** ** Utility functions for the command line *)

Open Scope string_scope.

(** <string.h>: [strrchr (s, c)] for a character [c] other than NUL, the
    tail of [s] that starts at the last [c]. *)
Fixpoint strrchr (s : string) (c : ascii) : option string :=
  match s with
  | EmptyString => None
  | String a r =>
      match strrchr r c with
      | Some e => Some e
      | None => if Ascii.eqb a c then Some s else None
      end
  end.

(** [strcmp (a, b) == 0] *)
Definition strcmp_eq (a b : string) : bool := String.eqb a b.

(** <limits.h> *)
Definition PATH_MAX : nat := 4096.

(** What a command does to the file system: the file it creates, the bytes
    it writes there, and the file it unlinks afterwards, if any. *)
Record file_action : Type := {
  dest : string;
  content : list byte;
  unlinked : option string
}.

(** The switch of [decomp_file]: [Some ok], or [None] in the default case. *)
Definition ext_matches (type : file_t) (ext : string) : option bool :=
  match type with
  | GZIP => Some (strcmp_eq ext ".gz")
  | XZ => Some (strcmp_eq ext ".xz")
  | LZMA => Some (strcmp_eq ext ".lzma")
  | BZIP2 => Some (strcmp_eq ext ".bz2")
  | LZ4_LEGACY | LZ4 => Some (strcmp_eq ext ".lz4")
  | _ => None
  end.

(** The branches of [comp_file] on the method name. *)
Definition match_method (method : string) : option (file_t * string) :=
  if strcmp_eq method "gzip" then Some (GZIP, "gz")
  else if strcmp_eq method "xz" then Some (XZ, "xz")
  else if strcmp_eq method "lzma" then Some (LZMA, "lzma")
  else if strcmp_eq method "lz4" then Some (LZ4, "lz4")
  else if strcmp_eq method "lz4_legacy" then Some (LZ4_LEGACY, "lz4")
  else if strcmp_eq method "bzip2" then Some (BZIP2, "bz2")
  else None.

(** Modelled from the spec: the commands open their destination with
    [open_new] of utils.c (not under src/), which the spec does not
    describe; it is taken to open the file for writing, creating it or
    cutting an existing one to no bytes.  When the destination names the
    source, the file behind the mapping [mmap_ro] made loses its content
    before the transcoder reads it, and the first read of the mapped bytes
    faults: the commands have no result then.  An empty source has no byte
    to lose or to read. *)
Definition truncates_source (target from : string) (file : list byte)
  : bool :=
  String.eqb target from && match file with [] => false | _ => true end.

Section Files.
Variable K : codecs.

(** [decomp_file (from, to)]; [file] is the content [mmap_ro] maps, of a
    path the system can open, and [type] what [check_type] makes of it;
    [to] is [None] for a null pointer. *)
Definition decomp_file (fuel : nat) (file : list byte) (type : file_t)
    (from : string) (to : option string) : outcome file_action :=
  match strrchr from "." with
  | None => LOGE ExtensionMismatch          (* "Bad filename extention" *)
  | Some ext =>
      match ext_matches type ext with
      | None => LOGE UnsupportedFormat
      | Some true =>
          (* *ext = '\0'; to = from; *)
          let stripped :=
            substring 0 (String.length from - String.length ext) from in
          let target := match to with Some t => t | None => stripped end in
          (* int fd = open_new (to); *)
          if truncates_source target from file then Fail UndefinedBehaviour
          else
          r <- decomp K fuel type [] file ;;
          Ok {| dest := target; content := snd r;
                unlinked := match to with
                            | Some _ => None
                            | None => Some from
                            end |}
      | Some false => LOGE ExtensionMismatch (* "Bad filename extention '%s'" *)
      end
  end.

(** [comp_file (method, from, to)]; [file] is the content [mmap_ro] maps, of
    a path the system can open. *)
Definition comp_file (fuel : nat) (file : list byte) (method : string)
    (from : string) (to : option string) : outcome file_action :=
  match match_method method with
  | None => Fail UnknownMethod               (* exit (1) *)
  | Some (type, ext) =>
      let target :=
        match to with
        | None =>
            (* snprintf (dest, sizeof (dest), "%s.%s", from, ext); *)
            Ok (substring 0 (PATH_MAX - 1) (from ++ "." ++ ext))
        | Some t =>
            (* strcpy (dest, to); *)
            if Nat.ltb (String.length t) PATH_MAX then Ok t
            else Fail UndefinedBehaviour
        end in
      d <- target ;;
      (* int fd = open_new (dest); *)
      if truncates_source d from file then Fail UndefinedBehaviour
      else
      r <- comp K fuel type [] file ;;
      Ok {| dest := d; content := snd r;
            unlinked := match to with
                        | Some _ => None
                        | None => Some from
                        end |}
  end.
End Files.

Close Scope string_scope.

(* ------------------------------------------------------------------ *)
(** ** The LZ4-legacy container, as the specification words it *)

(** "Repeatedly take up to an 8 MiB input block": the blocks of an input. *)
Fixpoint blocks_of (fuel : nat) (l : list byte) : list (list byte) :=
  match fuel with
  | O => []
  | S fuel' =>
      if lenZ l <=? LZ4_LEGACY_BLOCKSIZE then [l]
      else takeZ LZ4_LEGACY_BLOCKSIZE l
             :: blocks_of fuel' (dropZ LZ4_LEGACY_BLOCKSIZE l)
  end.

Definition legacy_blocks (l : list byte) : list (list byte) :=
  blocks_of (S (List.length l)) l.

(** "HC-compress it at level 9, write a 4-byte little-endian block length
    prefix, then the compressed block bytes". *)
Definition legacy_block (L : lz4_block_lib) (c : list byte) : list byte :=
  let z := LZ4_compress_HC L c (LZ4_COMPRESSBOUND LZ4_LEGACY_BLOCKSIZE) 9 in
  le32 (lenZ z) ++ z.

Definition legacy_body (L : lz4_block_lib) (b : list byte) : list byte :=
  flat_map (legacy_block L) (legacy_blocks b).

(** Magic, blocks, and the trailing field holding the input length as an
    [unsigned]. *)
Definition legacy_stream (L : lz4_block_lib) (b : list byte) : list byte :=
  legacy_magic ++ legacy_body L b ++ le32 (to_unsigned (lenZ b)).

(** [ceil (n / d)] *)
Definition ceil_div (n d : Z) : Z := (n + d - 1) / d.

(* ------------------------------------------------------------------ *)
(** ** Reference libraries

    Small implementations of the library interfaces, used to run the
    transcoders on concrete buffers. *)

(** An LZ4 block coder that emits one literal-only sequence: the token
    carries the literal length (15 meaning "extended by the bytes that
    follow"), the match nibble is zero. *)
Definition lit_ext (r : Z) : list byte :=
  repeat xff (Z.to_nat (r / 255)) ++ [byte_of_Z (r mod 255)].

Definition lit_compress (src : list byte) (cap level : Z) : list byte :=
  let n := lenZ src in
  if n <? 15 then byte_of_Z (16 * n) :: src
  else xf0 :: lit_ext (n - 15) ++ src.

Fixpoint lit_read_ext (l : list byte) (acc : Z) : option (Z * list byte) :=
  match l with
  | [] => None
  | b :: r =>
      if Z_of_byte b =? 255 then lit_read_ext r (acc + 255)
      else Some (acc + Z_of_byte b, r)
  end.

Definition lit_decompress (src : list byte) (cap : Z) : option (list byte) :=
  match src with
  | [] => None
  | t :: r =>
      let hi := Z_of_byte t / 16 in
      let lo := Z_of_byte t mod 16 in
      if negb (lo =? 0) then None
      else
        match (if hi =? 15 then lit_read_ext r 15 else Some (hi, r)) with
        | None => None
        | Some (n, lits) =>
            if (lenZ lits =? n) && (n <=? cap) then Some lits else None
        end
  end.

Definition lit_lz4 : lz4_block_lib :=
  {| LZ4_compress_HC := lit_compress; LZ4_decompress_safe := lit_decompress |}.

(** A streaming coder for a tagged format: every input byte [b] becomes
    [01 b], and [00] ends the stream.  The encoder queues what does not fit
    the output buffer; the decoder does the same with decoded bytes. *)
Record tag_state : Type := {
  t_queue : list byte;     (* produced, not yet handed out *)
  t_half : bool;           (* decoder: a [01] tag awaits its byte *)
  t_done : bool;           (* the end mark was written / read *)
  t_bad : bool             (* decoder: a byte that is no tag was met *)
}.

Definition tag_start : tag_state :=
  {| t_queue := []; t_half := false; t_done := false; t_bad := false |}.

Definition tag_hand_out (code_ok code_end code_err : Z) (s : tag_state)
    (used avail_out : Z) : stream_step tag_state :=
  let out := takeZ avail_out (t_queue s) in
  let rest := dropZ avail_out (t_queue s) in
  {| st_ret := if t_bad s then code_err
               else if t_done s && (lenZ rest =? 0) then code_end
               else code_ok;
     st_used := used;
     st_out := out;
     st_next := {| t_queue := rest; t_half := t_half s; t_done := t_done s;
                   t_bad := t_bad s |} |}.

Definition tag_encode (codes : Z * Z * Z) (s : tag_state)
    (input : list byte) (avail_out : Z) (finish : bool)
  : stream_step tag_state :=
  let '(code_ok, code_end, code_err) := codes in
  let body := flat_map (fun b => [x01; b]) input in
  let mark := if finish && negb (t_done s) then [x00] else [] in
  tag_hand_out code_ok code_end code_err
    {| t_queue := t_queue s ++ body ++ mark; t_half := false;
       t_done := t_done s || finish; t_bad := false |}
    (lenZ input) avail_out.

Fixpoint tag_parse (s : tag_state) (input : list byte) : tag_state :=
  match input with
  | [] => s
  | b :: r =>
      if t_done s || t_bad s then s
      else if t_half s then
        tag_parse {| t_queue := t_queue s ++ [b]; t_half := false;
                     t_done := false; t_bad := false |} r
      else if Z_of_byte b =? 1 then
        tag_parse {| t_queue := t_queue s; t_half := true;
                     t_done := false; t_bad := false |} r
      else if Z_of_byte b =? 0 then
        {| t_queue := t_queue s; t_half := false; t_done := true;
           t_bad := false |}
      else
        {| t_queue := t_queue s; t_half := false; t_done := false;
           t_bad := true |}
  end.

Definition tag_decode (codes : Z * Z * Z) (s : tag_state)
    (input : list byte) (avail_out : Z) : stream_step tag_state :=
  let '(code_ok, code_end, code_err) := codes in
  tag_hand_out code_ok code_end code_err (tag_parse s input)
    (lenZ input) avail_out.

Definition tag_zlib : zlib :=
  let codes := (Z_OK, Z_STREAM_END, Z_DATA_ERROR) in
  {| z_internal := tag_state;
     z_uninit := tag_start;
     inflateInit2 := fun _ => (Z_OK, tag_start);
     deflateInit2 := fun _ _ _ _ _ => (Z_OK, tag_start);
     inflate := fun s input avail_out _ => tag_decode codes s input avail_out;
     deflate := fun s input avail_out flush =>
                  tag_encode codes s input avail_out (flush =? Z_FINISH) |}.

(** liblzma has one coder entry for both directions: which one a stream
    runs is fixed when it is initialised.  The xz stream encoder starts its
    output with the byte FD and the LZMA-alone encoder with the byte 5D; the
    auto-detecting decoder accepts either as the first byte. *)
Definition tag_queue (q : list byte) : tag_state :=
  {| t_queue := q; t_half := false; t_done := false; t_bad := false |}.

Definition tag_lzma : liblzma :=
  let codes := (LZMA_OK, LZMA_STREAM_END, 9) in
  {| lzma_internal := bool * bool * tag_state;
     LZMA_STREAM_INIT := (false, false, tag_start);
     lzma_auto_decoder := fun _ _ _ => (LZMA_OK, (true, true, tag_start));
     lzma_stream_encoder := fun _ _ _ =>
       (LZMA_OK, (false, false, tag_queue [xfd]));
     lzma_alone_encoder := fun _ _ =>
       (LZMA_OK, (false, false, tag_queue [x5d]));
     lzma_code := fun s input avail_out action =>
       let '(decoder, fresh, t) := s in
       if decoder then
         let skip :=
           fresh && match input with
                    | b :: _ => (Z_of_byte b =? 253) || (Z_of_byte b =? 93)
                    | [] => false
                    end in
         let r := tag_decode codes t (if skip then tl input else input)
                    avail_out in
         {| st_ret := st_ret r; st_used := lenZ input; st_out := st_out r;
            st_next := (true, fresh && (lenZ input =? 0), st_next r) |}
       else
         let r := tag_encode codes t input avail_out
                    (action =? LZMA_FINISH) in
         {| st_ret := st_ret r; st_used := st_used r; st_out := st_out r;
            st_next := (false, false, st_next r) |} |}.

Definition tag_bzlib : bzlib :=
  let codes := (BZ_OK, BZ_STREAM_END, -4) in
  {| bz_internal := tag_state;
     bz_uninit := tag_start;
     BZ2_bzDecompressInit := fun _ _ => (BZ_OK, tag_start);
     BZ2_bzCompressInit := fun _ _ _ => (BZ_OK, tag_start);
     BZ2_bzDecompress := fun s input avail_out =>
                           tag_decode codes s input avail_out;
     BZ2_bzCompress := fun s input avail_out action =>
                         tag_encode codes s input avail_out
                           (action =? BZ_FINISH) |}.

(** A frame library over the same tagged format: the frame header is the
    LZ4 frame magic and one byte holding the block size identifier, five
    bytes that [LZ4F_getFrameInfo] always reads. *)
Definition tagf_error : Z := SIZE_MOD - 1.

Fixpoint tagf_parse (half : bool) (room : Z) (input : list byte)
  : list byte * Z * bool * Z :=
  match input with
  | [] => ([], 0, half, 1)
  | b :: r =>
      if half then
        if room <=? 0 then ([], 0, half, 1)
        else
          let '(o, n, h, code) := tagf_parse false (room - 1) r in
          (b :: o, n + 1, h, code)
      else if Z_of_byte b =? 1 then
        let '(o, n, h, code) := tagf_parse true room r in (o, n + 1, h, code)
      else if Z_of_byte b =? 0 then ([], 1, false, 0)
      else ([], 0, false, tagf_error)
  end.

Definition tag_lz4f : lz4f_lib :=
  {| lz4f_dctx := bool;
     lz4f_cctx := unit;
     LZ4F_isError := fun r => SIZE_MOD - 64 <=? r;
     LZ4F_createDecompressionContext := fun _ => (0, false);
     LZ4F_createCompressionContext := fun _ => (0, tt);
     LZ4F_getFrameInfo := fun d src _ =>
       match src with
       | m0 :: m1 :: m2 :: m3 :: id :: _ =>
           if (Z_of_byte m0 =? 4) && (Z_of_byte m1 =? 34)
              && (Z_of_byte m2 =? 77) && (Z_of_byte m3 =? 24)
           then (1, Z_of_byte id, 5, d)
           else (tagf_error, 0, 5, d)
       | _ => (tagf_error, 0, 5, d)
       end;
     LZ4F_compressFrameBound := fun n => 2 * n + 1;
     LZ4F_compressBegin := fun c _ prefs =>
       (5, [x04; x22; x4d; x18; byte_of_Z (blockSizeID prefs)], c);
     LZ4F_compressUpdate := fun c _ input =>
       let out := flat_map (fun b => [x01; b]) input in (lenZ out, out, c);
     LZ4F_compressEnd := fun c _ => (1, [x00], c);
     LZ4F_decompress := fun d cap input =>
       let '(o, n, h, code) := tagf_parse d cap input in (code, o, n, h) |}.

(** The program linked with the reference libraries; [BUFSIZ] as bionic's
    <stdio.h> defines it. *)
Definition tag_codecs : codecs :=
  {| lib_zlib := tag_zlib; lib_lzma := tag_lzma; lib_bzip2 := tag_bzlib;
     lib_lz4f := tag_lz4f; lib_lz4 := lit_lz4; BUFSIZ := 1024 |}.

(** Sample inputs. *)
Definition hello : list byte := [x68; x65; x6c; x6c; x6f].

(** A stream with the magic, a block length no block can have, and four
    more bytes. *)
Definition oversized_stream : list byte :=
  legacy_magic ++ [xff; xff; xff; xff] ++ [x00; x00; x00; x00].

(** 4 GiB of zeros. *)
Definition four_GiB : list byte := repeat x00 (Z.to_nat UINT_MOD).

(* ------------------------------------------------------------------ *)
(** ** Notions the properties are stated with *)

(** The states a loop passes through: [loop_head] holds of the state at
    the start of every iteration. *)
Inductive loop_head {S : Type} (body : S -> outcome (control S))
    (cond : S -> bool) (s0 : S) : S -> Prop :=
| head_first : loop_head body cond s0 s0
| head_again : forall s s',
    loop_head body cond s0 s ->
    body s = Ok (Next s') -> cond s' = true ->
    loop_head body cond s0 s'.

(** The block library decodes what it encoded of [c], and the encoding has
    a legal size. *)
Definition block_ok (L : lz4_block_lib) (c : list byte) : Prop :=
  let bound := LZ4_COMPRESSBOUND LZ4_LEGACY_BLOCKSIZE in
  let z := LZ4_compress_HC L c bound 9 in
  LZ4_decompress_safe L z LZ4_LEGACY_BLOCKSIZE = Some c
  /\ 0 < lenZ z <= bound.

(** The iteration of the LZ4-legacy decoding loop that starts at [s]. *)
Definition legacy_decode_trailer (L : lz4_block_lib) (buf : list byte)
    (s : legacy_state) : outcome legacy_state :=
  do_while 1 (legacy_decode_body L buf) (legacy_cond buf) s.

(** [counted fd0 s]: the stream is [fd0] and what was written since, and
    [total] is the number of bytes written since, as an [unsigned]. *)
Definition counted (fd0 : list byte) (s : legacy_state) : Prop :=
  exists w, lg_fd s = fd0 ++ w /\ lg_total s = to_unsigned (lenZ w).


(** [cursor_in_bounds pos_of size body cond s0]: at the start of every
    iteration of the loop started at [s0] the cursor is within the input;
    an iteration leaves it within the input; and after an iteration the
    loop test fails exactly when the cursor has reached the input length. *)
Definition cursor_in_bounds {S : Type} (pos_of : S -> Z) (size : Z)
    (body : S -> outcome (control S)) (cond : S -> bool) (s0 : S) : Prop :=
  forall s, loop_head body cond s0 s ->
    0 <= pos_of s <= size
    /\ forall s', body s = Ok (Next s') ->
         0 <= pos_of s' <= size
         /\ (cond s' = false <-> pos_of s' = size).

(** [cursor_in_windows pos_of chunk size body cond s0]: every iteration of
    the loop started at [s0] starts at a multiple of [chunk] and moves the
    cursor by [chunk], or to the end of the input when less is left. *)
Definition cursor_in_windows {S : Type} (pos_of : S -> Z) (chunk size : Z)
    (body : S -> outcome (control S)) (cond : S -> bool) (s0 : S) : Prop :=
  forall s, loop_head body cond s0 s ->
    (exists k, 0 <= k /\ pos_of s = k * chunk)
    /\ forall s', body s = Ok (Next s') ->
         pos_of s' = Z.min (pos_of s + chunk) size.

(** 2000 zero bytes. *)
Definition zeros_2000 : list byte := repeat x00 2000.



(** The windows of the outer loops: [gzip] and [bzip2] move the cursor by
    [CHUNK], [lzma] by [BUFSIZ], [lz4] in mode 1 by [lz4_blockSize]; each
    iteration feeds the rest of the input when no more than a window is
    left, and [gzip], [lzma] and [bzip2] run their inner loop with the
    finish value for that window and for no other. *)
Definition windows_as_coded (ZL : zlib) (LZ : liblzma) (BZ : bzlib)
    (LF : lz4f_lib) (BUFSIZ : Z) (buf : list byte) (fuel : nat)
    (mode : Z) : Prop :=
  let size := lenZ buf in
  CHUNK = 256 * 1024
  /\ lz4_blockSize = 4 * 1024 * 1024
  /\ (forall r i out0,
        cursor_in_windows pos CHUNK size (gzip_outer_body ZL buf fuel mode)
          (gzip_outer_cond ZL buf) (coder_init r i out0))
  /\ (forall s, 0 <= pos s <= size ->
        gzip_outer_body ZL buf fuel mode s =
          (s1 <- do_while fuel
                   (gzip_inner_body ZL buf mode
                      (if size - pos s <=? CHUNK
                       then Z_FINISH else Z_NO_FLUSH))
                   (gzip_inner_cond ZL)
                   (feed s (Z.min CHUNK (size - pos s))) ;;
           Ok (Next s1)))
  /\ (forall r i out0,
        cursor_in_windows pos CHUNK size (bzip2_outer_body BZ buf fuel mode)
          (bzip2_outer_cond BZ buf) (coder_init r i out0))
  /\ (forall s, 0 <= pos s <= size ->
        bzip2_outer_body BZ buf fuel mode s =
          (s1 <- do_while fuel
                   (bzip2_inner_body BZ buf mode
                      (if size - pos s <=? CHUNK then BZ_FINISH else BZ_RUN))
                   (bzip2_inner_cond BZ)
                   (feed s (Z.min CHUNK (size - pos s))) ;;
           Ok (Next s1)))
  /\ (forall r i out0,
        cursor_in_windows pos BUFSIZ size (lzma_outer_body LZ BUFSIZ buf fuel)
          (lzma_outer_cond LZ buf) (coder_init r i out0))
  /\ (forall s, 0 <= pos s <= size ->
        lzma_outer_body LZ BUFSIZ buf fuel s =
          (s1 <- do_while fuel
                   (lzma_inner_body LZ BUFSIZ buf
                      (if size - pos s <=? BUFSIZ
                       then LZMA_FINISH else LZMA_RUN))
                   (lzma_inner_cond LZ)
                   (feed s (Z.min BUFSIZ (size - pos s))) ;;
           if negb (ret s1 =? LZMA_OK) && negb (ret s1 =? LZMA_STREAM_END)
           then LOGE CodecStreamError
           else Ok (Next s1)))
  /\ (forall s0 outCapacity,
        l_pos s0 = 0 -> (exists c, l_ctx s0 = inr c) ->
        cursor_in_windows l_pos lz4_blockSize size
          (lz4_outer_body LF buf fuel 1 outCapacity) (lz4_outer_cond LF buf)
          s0)
  /\ (forall outCapacity s, 0 <= l_pos s <= size ->
        lz4_outer_body LF buf fuel mode outCapacity s =
          (s1 <- do_while fuel (lz4_inner_body LF buf mode outCapacity)
                   (lz4_inner_cond LF)
                   (lz4_set_avail LF s
                      (Z.min lz4_blockSize (size - l_pos s))) ;;
           Ok (Next s1))).

(** The suffix the specification expects for a container type: ".gz" for
    gzip, ".xz" for xz, ".lzma" for legacy LZMA, ".bz2" for bzip2 and
    ".lz4" for both LZ4 variants. *)
Definition expected_suffix (type : file_t) : option string :=
  match type with
  | GZIP => Some ".gz"%string
  | XZ => Some ".xz"%string
  | LZMA => Some ".lzma"%string
  | BZIP2 => Some ".bz2"%string
  | LZ4 => Some ".lz4"%string
  | LZ4_LEGACY => Some ".lz4"%string
  | UNKNOWN => None
  end.

(** [path] ends with [suffix]. *)
Definition has_suffix (suffix path : string) : Prop :=
  exists stem, path = (stem ++ suffix)%string.

(** [tallied out0 total fd]: the stream is [out0] followed by what was
    written since, and [total] is the number of bytes written since, as a
    [size_t]. *)
Definition tallied (out0 : list byte) (total : Z) (fd : list byte) : Prop :=
  exists w, fd = out0 ++ w /\ total = to_size_t (lenZ w).

(** 9,000,000 zero bytes: more than one 8 MiB block. *)
Definition nine_million : list byte := repeat x00 (Z.to_nat 9000000).

(** A frame of the reference frame library holding one byte, followed by
    two bytes that belong to no frame. *)
Definition trailing_frame : list byte :=
  [x04; x22; x4d; x18; x07; x01; x68; x00; xff; xff].

(** "hello" in the tagged format of the reference libraries. *)
Definition tagged_hello : list byte :=
  [x01; x68; x01; x65; x01; x6c; x01; x6c; x01; x6f; x00].


(** A block as it lies in an LZ4-legacy stream, whoever compressed it: the
    four bytes of its length and the compressed bytes [z]. *)
Definition raw_block (z : list byte) : list byte := le32 (lenZ z) ++ z.

(** [decodes_to L zc]: every pair of [zc] is a compressed block of a legal
    length and what the library decodes it to. *)
Definition decodes_to (L : lz4_block_lib)
    (zc : list (list byte * list byte)) : Prop :=
  forall z c, In (z, c) zc ->
    LZ4_decompress_safe L z LZ4_LEGACY_BLOCKSIZE = Some c
    /\ lenZ z <= LZ4_COMPRESSBOUND LZ4_LEGACY_BLOCKSIZE.

(** The compressor gives at least one byte for the block [c]. *)
Definition compresses (L : lz4_block_lib) (c : list byte) : bool :=
  negb (lenZ (LZ4_compress_HC L c
                (LZ4_COMPRESSBOUND LZ4_LEGACY_BLOCKSIZE) 9) =? 0).

(** "hello", compressed by the reference block library, and a second
    block. *)
Definition hello_block : list byte := [x50; x68; x65; x6c; x6c; x6f].
Definition world_block : list byte := [x30; x77; x6f; x72].

(** A block library whose compressor reports failure for every input. *)
Definition refusing_lz4 : lz4_block_lib :=
  {| LZ4_compress_HC := fun _ _ _ => [];
     LZ4_decompress_safe := lit_decompress |}.

(** The windows of [n] bytes an input is cut into, the last one being the
    rest of the input; an empty input has one empty window. *)
Fixpoint chunks_of (n : Z) (fuel : nat) (l : list byte) : list (list byte) :=
  match fuel with
  | O => []
  | S fuel' =>
      if lenZ l <=? n then [l]
      else takeZ n l :: chunks_of n fuel' (dropZ n l)
  end.

Definition is_nil {A : Type} (l : list A) : bool :=
  match l with [] => true | _ => false end.

(** [LZ4F_compressUpdate] called on one window after the other, from the
    context [c] on: the bytes the calls give, each cut to the length the
    call returned, and the last context.  [None] when a call returns an
    error code, or returns 0 before the last window. *)
Fixpoint lz4_updates (LF : lz4f_lib) (cap : Z) (c : lz4f_cctx LF)
    (ws : list (list byte)) : option (list byte * lz4f_cctx LF) :=
  match ws with
  | [] => Some ([], c)
  | w :: ws' =>
      let '(r, out, c') := LZ4F_compressUpdate LF c cap w in
      if LZ4F_isError LF r then None
      else if (r =? 0) && negb (is_nil ws') then None
      else
        match lz4_updates LF cap c' ws' with
        | Some (rest, c'') => Some (takeZ r out ++ rest, c'')
        | None => None
        end
  end.

(** The tagged format's bytes for an input, without the end mark. *)
Definition tagged_body (l : list byte) : list byte :=
  flat_map (fun b => [x01; b]) l.


(** A block library for runs of zero bytes: the four bytes of a number
    decode to that many zero bytes, and a block is coded as its length. *)
Definition zero_decompress (src : list byte) (cap : Z) : option (list byte) :=
  if lenZ src =? 4 then
    if read_le32 src <=? cap then Some (repeat x00 (Z.to_nat (read_le32 src)))
    else None
  else None.

Definition zero_lz4 : lz4_block_lib :=
  {| LZ4_compress_HC := fun c _ _ => le32 (lenZ c);
     LZ4_decompress_safe := zero_decompress |}.

(** A stream of 512 blocks of 8 MiB of zero bytes each, 4100 bytes long,
    and the 2^32 bytes it decodes to. *)
Definition zero_stream : list byte :=
  legacy_magic ++ flat_map raw_block (repeat (le32 LZ4_LEGACY_BLOCKSIZE) 512).

Definition zero_output : list byte :=
  List.concat (repeat (repeat x00 (Z.to_nat LZ4_LEGACY_BLOCKSIZE)) 512).

(** What [lz4_legacy] writes for "hello" with the literal-only library. *)
Definition hello_stream : list byte :=
  legacy_magic ++ raw_block hello_block ++ le32 5.

(** What [lzma] makes of one [lzma_code] call on the whole input with
    [LZMA_FINISH], from the state an initialisation call returned in
    [init]: the initialisation error when that call did not return
    [LZMA_OK], else the bytes the coder stored when it returned [LZMA_OK]
    or [LZMA_STREAM_END], else the stream error. *)
Definition lzma_one_call (LZ : liblzma) (BUFSIZ : Z)
    (init : Z * lzma_internal LZ) (buf out0 : list byte)
  : outcome (Z * list byte) :=
  if negb (fst init =? LZMA_OK) then Fail CodecInitError
  else
    let r := lzma_code LZ (snd init) buf BUFSIZ LZMA_FINISH in
    if (st_ret r =? LZMA_OK) || (st_ret r =? LZMA_STREAM_END)
    then Ok (lenZ (st_out r), out0 ++ st_out r)
    else Fail CodecStreamError.

(** The call leaves room in the output array. *)
Definition lzma_call_has_room (LZ : liblzma) (BUFSIZ : Z)
    (init : Z * lzma_internal LZ) (buf : list byte) : Prop :=
  lenZ (st_out (lzma_code LZ (snd init) buf BUFSIZ LZMA_FINISH)) < BUFSIZ.

(** The library call of every iteration of an inner loop: [gzip] hands
    [inflate] and [deflate] the flush value of the outer iteration,
    [bzip2] hands [BZ2_bzCompress] its action while [BZ2_bzDecompress] has
    no such argument, and [lzma] hands [lzma_code] its action; each call is
    given the input left of the window and the whole output array. *)
Definition calls_as_coded (ZL : zlib) (LZ : liblzma) (BZ : bzlib)
    (BUFSIZ : Z) (buf : list byte) : Prop :=
  (forall flush s,
     gzip_inner_body ZL buf 0 flush s =
       let r := inflate ZL (strm s) (window buf (next_in s) (avail_in s))
                  CHUNK flush in
       if to_size_t (st_ret r) =? to_size_t Z_STREAM_ERROR
       then Fail CodecStreamError
       else Ok (Next (drain (after_call to_size_t UINT_MOD
                               (reset_out s CHUNK) r) CHUNK (st_out r))))
  /\ (forall flush s,
        gzip_inner_body ZL buf 1 flush s =
          let r := deflate ZL (strm s) (window buf (next_in s) (avail_in s))
                     CHUNK flush in
          if to_size_t (st_ret r) =? to_size_t Z_STREAM_ERROR
          then Fail CodecStreamError
          else Ok (Next (drain (after_call to_size_t UINT_MOD
                                  (reset_out s CHUNK) r) CHUNK (st_out r))))
  /\ (forall action s,
        bzip2_inner_body BZ buf 0 action s =
          let r := BZ2_bzDecompress BZ (strm s)
                     (window buf (next_in s) (avail_in s)) CHUNK in
          Ok (Next (drain (after_call to_size_t UINT_MOD
                             (reset_out s CHUNK) r) CHUNK (st_out r))))
  /\ (forall action s,
        bzip2_inner_body BZ buf 1 action s =
          let r := BZ2_bzCompress BZ (strm s)
                     (window buf (next_in s) (avail_in s)) CHUNK action in
          Ok (Next (drain (after_call to_size_t UINT_MOD
                             (reset_out s CHUNK) r) CHUNK (st_out r))))
  /\ (forall action s,
        lzma_inner_body LZ BUFSIZ buf action s =
          let r := lzma_code LZ (strm s)
                     (window buf (next_in s) (avail_in s)) BUFSIZ action in
          Ok (Next (drain (after_call (fun z => z) SIZE_MOD
                             (reset_out s BUFSIZ) r) BUFSIZ (st_out r)))).

(** The frame [lz4] writes in mode 1: the bytes of [LZ4F_compressBegin],
    those of one [LZ4F_compressUpdate] per window, a call that has no
    finish argument, and those of the [LZ4F_compressEnd] that follows the
    loop. *)
Definition frame_ended_after_loop (LF : lz4f_lib) (buf : list byte)
    (fuel : nat) : Prop :=
  forall out0 r0 r1 r3 c0 c1 c2 c3 hdr body ftr,
    LZ4F_createCompressionContext LF LZ4F_VERSION = (r0, c0) ->
    LZ4F_isError LF r0 = false ->
    LZ4F_compressBegin LF c0 (lenZ buf) lz4_prefs = (r1, hdr, c1) ->
    LZ4F_isError LF r1 = false ->
    lz4_updates LF (LZ4F_compressFrameBound LF lz4_blockSize) c1
      (chunks_of lz4_blockSize fuel buf) = Some (body, c2) ->
    LZ4F_compressEnd LF c2 (LZ4F_compressFrameBound LF lz4_blockSize)
      = (r3, ftr, c3) ->
    LZ4F_isError LF r3 = false ->
    lz4 LF buf fuel 1 out0 =
      Ok (to_size_t (lenZ (takeZ r1 hdr ++ body ++ takeZ r3 ftr)),
          out0 ++ takeZ r1 hdr ++ body ++ takeZ r3 ftr).

(** The reference liblzma without its xz stream encoder: the
    initialisation call reports [LZMA_MEM_ERROR]. *)
Definition xz_less_lzma : liblzma :=
  {| lzma_internal := lzma_internal tag_lzma;
     LZMA_STREAM_INIT := LZMA_STREAM_INIT tag_lzma;
     lzma_auto_decoder := lzma_auto_decoder tag_lzma;
     lzma_stream_encoder := fun s _ _ => (5, s);
     lzma_alone_encoder := lzma_alone_encoder tag_lzma;
     lzma_code := lzma_code tag_lzma |}.

Definition xz_less_codecs : codecs :=
  {| lib_zlib := tag_zlib; lib_lzma := xz_less_lzma; lib_bzip2 := tag_bzlib;
     lib_lz4f := tag_lz4f; lib_lz4 := lit_lz4; BUFSIZ := 1024 |}.
(* ================================================================== *)
(** * Properties *)

(* ------------------------------------------------------------------ *)
(** ** Buffers *)

Lemma takeZ_firstn {A : Type} (l : list A) :
  forall n, takeZ n l = firstn (Z.to_nat n) l.
Proof.
  induction l as [|x r IH]; intros n; simpl.
  - now rewrite firstn_nil.
  - destruct (Z.leb_spec n 0) as [Hn|Hn].
    + replace (Z.to_nat n) with O by lia. reflexivity.
    + replace (Z.to_nat n) with (S (Z.to_nat (n - 1))) by lia.
      simpl. now rewrite IH.
Qed.

Lemma dropZ_skipn {A : Type} (l : list A) :
  forall n, dropZ n l = skipn (Z.to_nat n) l.
Proof.
  induction l as [|x r IH]; intros n; simpl.
  - now rewrite skipn_nil.
  - destruct (Z.leb_spec n 0) as [Hn|Hn].
    + replace (Z.to_nat n) with O by lia. reflexivity.
    + replace (Z.to_nat n) with (S (Z.to_nat (n - 1))) by lia.
      simpl. now rewrite IH.
Qed.

Lemma lenZ_nonneg {A : Type} (l : list A) : 0 <= lenZ l.
Proof. unfold lenZ. lia. Qed.

Lemma lenZ_app {A : Type} (a b : list A) : lenZ (a ++ b) = lenZ a + lenZ b.
Proof. unfold lenZ. rewrite length_app. lia. Qed.

Lemma lenZ_cons {A : Type} (x : A) (l : list A) : lenZ (x :: l) = 1 + lenZ l.
Proof. unfold lenZ. simpl List.length. lia. Qed.

Lemma lenZ_nil_iff {A : Type} (l : list A) : lenZ l = 0 <-> l = [].
Proof.
  unfold lenZ. destruct l; simpl; split; intros H; try reflexivity;
    try discriminate; lia.
Qed.

Lemma lenZ_takeZ {A : Type} (n : Z) (l : list A) :
  lenZ (takeZ n l) = Z.max 0 (Z.min n (lenZ l)).
Proof. unfold lenZ. rewrite takeZ_firstn, length_firstn. lia. Qed.

Lemma lenZ_dropZ {A : Type} (n : Z) (l : list A) :
  lenZ (dropZ n l) = Z.max 0 (lenZ l - Z.max 0 n).
Proof. unfold lenZ. rewrite dropZ_skipn, length_skipn. lia. Qed.

Lemma takeZ_all {A : Type} (n : Z) (l : list A) :
  lenZ l <= n -> takeZ n l = l.
Proof.
  unfold lenZ. intros H. rewrite takeZ_firstn. apply firstn_all2. lia.
Qed.

Lemma dropZ_all {A : Type} (n : Z) (l : list A) :
  lenZ l <= n -> dropZ n l = [].
Proof.
  unfold lenZ. intros H. rewrite dropZ_skipn. apply skipn_all2. lia.
Qed.

Lemma dropZ_0 {A : Type} (n : Z) (l : list A) : n <= 0 -> dropZ n l = l.
Proof.
  intros H. rewrite dropZ_skipn. replace (Z.to_nat n) with O by lia.
  reflexivity.
Qed.

Lemma takeZ_dropZ {A : Type} (n : Z) (l : list A) :
  takeZ n l ++ dropZ n l = l.
Proof. rewrite takeZ_firstn, dropZ_skipn. apply firstn_skipn. Qed.

Lemma dropZ_dropZ {A : Type} (a b : Z) (l : list A) :
  0 <= a -> 0 <= b -> dropZ a (dropZ b l) = dropZ (a + b) l.
Proof.
  intros Ha Hb. rewrite !dropZ_skipn, skipn_skipn.
  f_equal. lia.
Qed.

Lemma takeZ_app_exact {A : Type} (a b : list A) :
  takeZ (lenZ a) (a ++ b) = a.
Proof.
  unfold lenZ. rewrite takeZ_firstn, Nat2Z.id, firstn_app, Nat.sub_diag.
  simpl. rewrite firstn_all, app_nil_r. reflexivity.
Qed.

Lemma dropZ_app_exact {A : Type} (a b : list A) :
  dropZ (lenZ a) (a ++ b) = b.
Proof.
  unfold lenZ. rewrite dropZ_skipn, Nat2Z.id, skipn_app, Nat.sub_diag.
  rewrite skipn_all. reflexivity.
Qed.

Lemma window_app_exact (a b c : list byte) :
  window (a ++ b ++ c) (lenZ a) (lenZ b) = b.
Proof. unfold window. now rewrite dropZ_app_exact, takeZ_app_exact. Qed.

Lemma mem_read_inside (a b c : list byte) :
  mem_read (a ++ b ++ c) (lenZ a) (lenZ b) = Some b.
Proof.
  unfold mem_read.
  replace ((0 <=? lenZ a) && (0 <=? lenZ b)
           && (lenZ a + lenZ b <=? lenZ (a ++ b ++ c))) with true.
  - now rewrite window_app_exact.
  - symmetry. rewrite !andb_true_iff, !Z.leb_le, !lenZ_app.
    pose proof (lenZ_nonneg a). pose proof (lenZ_nonneg b).
    pose proof (lenZ_nonneg c). lia.
Qed.

Lemma mem_read_outside (buf : list byte) (p n : Z) :
  lenZ buf < p + n -> mem_read buf p n = None.
Proof.
  intros H. unfold mem_read.
  replace (p + n <=? lenZ buf) with false by (symmetry; apply Z.leb_gt; lia).
  now rewrite andb_false_r.
Qed.

(* ------------------------------------------------------------------ *)
(** ** Machine integers and their bytes *)

Lemma to_size_t_small (z : Z) : 0 <= z < SIZE_MOD -> to_size_t z = z.
Proof. intros H. unfold to_size_t. now apply Z.mod_small. Qed.

Lemma to_unsigned_small (z : Z) : 0 <= z < UINT_MOD -> to_unsigned z = z.
Proof. intros H. unfold to_unsigned. now apply Z.mod_small. Qed.

Lemma to_unsigned_range (z : Z) : 0 <= to_unsigned z < UINT_MOD.
Proof. unfold to_unsigned, UINT_MOD. apply Z.mod_pos_bound. lia. Qed.

Lemma to_unsigned_add (a b : Z) :
  to_unsigned (to_unsigned a + b) = to_unsigned (a + b).
Proof. unfold to_unsigned. now rewrite Zplus_mod_idemp_l. Qed.

Lemma Z_of_byte_of_Z (z : Z) : Z_of_byte (byte_of_Z z) = z mod 256.
Proof.
  unfold Z_of_byte, byte_of_Z.
  assert (Hr : 0 <= z mod 256 < 256) by (apply Z.mod_pos_bound; lia).
  destruct (Byte.of_N (Z.to_N (z mod 256))) as [b|] eqn:E.
  - apply Byte.to_of_N in E. rewrite E. lia.
  - apply Byte.of_N_None_iff in E. lia.
Qed.

Lemma Z_of_byte_range (b : byte) : 0 <= Z_of_byte b < 256.
Proof.
  unfold Z_of_byte. pose proof (Byte.to_N_bounded b). lia.
Qed.

Lemma lenZ_le32 (z : Z) : lenZ (le32 z) = 4.
Proof. reflexivity. Qed.

Lemma read_le32_le32 (z : Z) : read_le32 (le32 z) = to_unsigned z.
Proof.
  unfold le32, read_le32, to_unsigned, UINT_MOD.
  rewrite !Z_of_byte_of_Z, !Z.shiftr_div_pow2, !Z.shiftl_mul_pow2 by lia.
  change (2 ^ 8) with 256. change (2 ^ 16) with 65536.
  change (2 ^ 24) with 16777216. change (2 ^ 32) with 4294967296.
  pose proof (Z.div_mod z 256 ltac:(lia)) as D0.
  pose proof (Z.mod_pos_bound z 256 ltac:(lia)) as B0.
  pose proof (Z.mod_pos_bound (z / 256) 256 ltac:(lia)) as B1.
  pose proof (Z.mod_pos_bound (z / 65536) 256 ltac:(lia)) as B2.
  pose proof (Z.mod_pos_bound (z / 16777216) 256 ltac:(lia)) as B3.
  pose proof (Z.div_mod (z / 256) 256 ltac:(lia)) as D1.
  pose proof (Z.div_mod (z / 65536) 256 ltac:(lia)) as D2.
  pose proof (Z.div_mod (z / 16777216) 256 ltac:(lia)) as D3.
  rewrite Z.div_div in D1, D2, D3 by lia.
  change (256 * 256) with 65536 in D1.
  change (65536 * 256) with 16777216 in D2.
  change (16777216 * 256) with 4294967296 in D3.
  apply Z.mod_unique_pos with (q := z / 4294967296); lia.
Qed.

(* ------------------------------------------------------------------ *)
(** ** Loops *)

(** A loop that returns has kept every invariant its body keeps; it left
    through the loop test or through a [Break]. *)
Lemma do_while_inv {S : Type} (P Q : S -> Prop)
    (body : S -> outcome (control S)) (cond : S -> bool) :
  (forall s s', P s -> body s = Ok (Next s') -> P s') ->
  (forall s s', P s -> body s = Ok (Break s') -> Q s') ->
  forall fuel s s', P s -> do_while fuel body cond s = Ok s' ->
    (P s' /\ cond s' = false) \/ Q s'.
Proof.
  intros Hnext Hbreak fuel. induction fuel as [|fuel IH]; intros s s' HP H.
  - discriminate.
  - simpl in H. destruct (body s) as [[s1|s1]|e|] eqn:E; try discriminate.
    + destruct (cond s1) eqn:C.
      * apply (IH s1); eauto.
      * injection H as <-. left. eauto.
    + injection H as <-. right. eauto.
Qed.

(** The kinds of failure a loop can end with are those of its body. *)
Lemma do_while_fail {S : Type} (P : S -> Prop) (E : error -> Prop)
    (body : S -> outcome (control S)) (cond : S -> bool) :
  (forall s s', P s -> body s = Ok (Next s') -> P s') ->
  (forall s e, P s -> body s = Fail e -> E e) ->
  forall fuel s e, P s -> do_while fuel body cond s = Fail e -> E e.
Proof.
  intros Hnext Hfail fuel. induction fuel as [|fuel IH]; intros s e HP H.
  - discriminate.
  - simpl in H. destruct (body s) as [[s1|s1]|e1|] eqn:B; try discriminate.
    + destruct (cond s1); [apply (IH s1); eauto | discriminate].
    + injection H as <-. eauto.
Qed.

Lemma loop_head_inv {S : Type} (P : S -> Prop)
    (body : S -> outcome (control S)) (cond : S -> bool) (s0 : S) :
  P s0 ->
  (forall s s', P s -> body s = Ok (Next s') -> P s') ->
  forall s, loop_head body cond s0 s -> P s.
Proof.
  intros H0 Hstep s H. induction H; eauto.
Qed.



(* ------------------------------------------------------------------ *)
(** ** lz4_legacy, encoding *)

Lemma blocks_of_short (fuel : nat) (l : list byte) :
  lenZ l <= LZ4_LEGACY_BLOCKSIZE -> blocks_of (S fuel) l = [l].
Proof.
  intros H. simpl.
  now replace (lenZ l <=? LZ4_LEGACY_BLOCKSIZE) with true
    by (symmetry; apply Z.leb_le; exact H).
Qed.

Lemma blocks_of_long (fuel : nat) (l : list byte) :
  LZ4_LEGACY_BLOCKSIZE < lenZ l ->
  blocks_of (S fuel) l =
    takeZ LZ4_LEGACY_BLOCKSIZE l
      :: blocks_of fuel (dropZ LZ4_LEGACY_BLOCKSIZE l).
Proof.
  intros H. simpl.
  now replace (lenZ l <=? LZ4_LEGACY_BLOCKSIZE) with false
    by (symmetry; apply Z.leb_gt; exact H).
Qed.

Lemma BLOCKSIZE_value : LZ4_LEGACY_BLOCKSIZE = 8388608.
Proof. reflexivity. Qed.

Lemma COMPRESSBOUND_value : LZ4_COMPRESSBOUND LZ4_LEGACY_BLOCKSIZE = 8421520.
Proof. reflexivity. Qed.

Section LegacyEncode.
Variable L : lz4_block_lib.
Variable buf : list byte.
Let size : Z := lenZ buf.

Hypothesis size_fits : size + LZ4_LEGACY_BLOCKSIZE < SIZE_MOD.

(** One iteration on the block [c] of [insize] bytes at [pos]. *)
Lemma legacy_encode_body_block (s : legacy_state) (insize : Z) :
  0 <= lg_pos s -> 0 <= insize <= LZ4_LEGACY_BLOCKSIZE ->
  lg_pos s + insize <= size ->
  (if to_size_t (lg_pos s + LZ4_LEGACY_BLOCKSIZE) >=? size
   then to_unsigned (to_size_t (size - lg_pos s))
   else LZ4_LEGACY_BLOCKSIZE) = insize ->
  let c := window buf (lg_pos s) insize in
  LZ4_compress_HC L c (LZ4_COMPRESSBOUND LZ4_LEGACY_BLOCKSIZE) 9 <> [] ->
  legacy_encode_body L buf s =
    Ok (Next {| lg_pos := lg_pos s + insize;
                lg_total := to_unsigned
                              (lg_total s + lenZ (legacy_block L c));
                lg_fd := lg_fd s ++ legacy_block L c |}).
Proof.
  intros Hp Hin Hle Hsel c Hne.
  unfold legacy_encode_body. fold size. rewrite Hsel.
  unfold mem_read. fold size.
  replace ((0 <=? lg_pos s) && (0 <=? insize)
           && (lg_pos s + insize <=? size)) with true
    by (symmetry; rewrite !andb_true_iff, !Z.leb_le; lia).
  fold c.
  set (z := LZ4_compress_HC L c (LZ4_COMPRESSBOUND LZ4_LEGACY_BLOCKSIZE) 9)
    in *.
  assert (Hz : lenZ z <> 0) by (rewrite lenZ_nil_iff; exact Hne).
  replace (lenZ z =? 0) with false by (symmetry; apply Z.eqb_neq; exact Hz).
  unfold legacy_write, legacy_set_pos, xwrite, LOGE; cbn [lg_pos lg_total lg_fd].
  rewrite (takeZ_all 4 (le32 (lenZ z))) by (rewrite lenZ_le32; lia).
  rewrite (takeZ_all (lenZ z) z) by lia.
  unfold legacy_block. fold z.
  rewrite to_size_t_small
    by (unfold SIZE_MOD in *; rewrite BLOCKSIZE_value in *; lia).
  rewrite to_unsigned_add, lenZ_app, <- app_assoc.
  do 3 f_equal. f_equal. lia.
Qed.

Lemma legacy_select_last (p : Z) :
  0 <= p <= size -> size - p <= LZ4_LEGACY_BLOCKSIZE ->
  (if to_size_t (p + LZ4_LEGACY_BLOCKSIZE) >=? size
   then to_unsigned (to_size_t (size - p))
   else LZ4_LEGACY_BLOCKSIZE) = size - p.
Proof.
  intros Hp Hlast.
  rewrite BLOCKSIZE_value in *. unfold SIZE_MOD in *.
  rewrite !to_size_t_small by (unfold SIZE_MOD; lia).
  replace (p + 8388608 >=? size) with true
    by (symmetry; apply Z.geb_le; lia).
  apply to_unsigned_small. unfold UINT_MOD. lia.
Qed.

Lemma legacy_select_full (p : Z) :
  0 <= p -> p + LZ4_LEGACY_BLOCKSIZE < size ->
  (if to_size_t (p + LZ4_LEGACY_BLOCKSIZE) >=? size
   then to_unsigned (to_size_t (size - p))
   else LZ4_LEGACY_BLOCKSIZE) = LZ4_LEGACY_BLOCKSIZE.
Proof.
  intros Hp Hfull.
  rewrite BLOCKSIZE_value in *. unfold SIZE_MOD in *.
  rewrite !to_size_t_small by (unfold SIZE_MOD; lia).
  destruct (p + 8388608 >=? size) eqn:E; [|reflexivity].
  apply Z.geb_le in E. lia.
Qed.

(** The encoding loop, from any block boundary on: it appends the blocks
    of the rest of the input and stops at the end of the input. *)
Lemma legacy_encode_loop (fuel : nat) :
  forall s,
    0 <= lg_pos s <= size ->
    size - lg_pos s <= Z.of_nat fuel * LZ4_LEGACY_BLOCKSIZE ->
    (1 <= fuel)%nat ->
    (forall c, In c (blocks_of fuel (dropZ (lg_pos s) buf)) ->
       LZ4_compress_HC L c (LZ4_COMPRESSBOUND LZ4_LEGACY_BLOCKSIZE) 9 <> []) ->
    let body :=
      flat_map (legacy_block L) (blocks_of fuel (dropZ (lg_pos s) buf)) in
    do_while fuel (legacy_encode_body L buf) (legacy_cond buf) s =
      Ok {| lg_pos := size;
            lg_total := to_unsigned (lg_total s + lenZ body);
            lg_fd := lg_fd s ++ body |}.
Proof.
  induction fuel as [|fuel IH]; intros s Hp Hfuel H1 Hne body; [lia|].
  assert (Hrest : lenZ (dropZ (lg_pos s) buf) = size - lg_pos s)
    by (rewrite lenZ_dropZ; fold size; lia).
  destruct (Z_le_gt_dec (size - lg_pos s) LZ4_LEGACY_BLOCKSIZE) as [Hl|Hl].
  - (* the last block *)
    subst body. rewrite blocks_of_short in * by lia.
    assert (Hw : window buf (lg_pos s) (size - lg_pos s)
                 = dropZ (lg_pos s) buf)
      by (unfold window; apply takeZ_all; lia).
    cbn [do_while].
    rewrite (legacy_encode_body_block s (size - lg_pos s));
      try lia; try (apply legacy_select_last; lia).
    2: { rewrite Hw. apply Hne. now left. }
    rewrite Hw. unfold legacy_cond. cbn [lg_pos]. fold size.
    replace (lg_pos s + (size - lg_pos s)) with size by lia.
    rewrite Z.ltb_irrefl. cbn [flat_map]. now rewrite app_nil_r.
  - (* a full block, and more to come *)
    subst body. rewrite blocks_of_long in * by lia.
    assert (Hw : window buf (lg_pos s) LZ4_LEGACY_BLOCKSIZE
                 = takeZ LZ4_LEGACY_BLOCKSIZE (dropZ (lg_pos s) buf))
      by reflexivity.
    pose proof BLOCKSIZE_value as HB.
    cbn [do_while].
    rewrite (legacy_encode_body_block s LZ4_LEGACY_BLOCKSIZE);
      try lia; try (apply legacy_select_full; lia).
    2: { rewrite Hw. apply Hne. now left. }
    rewrite Hw. unfold legacy_cond at 1. cbn [lg_pos]. fold size.
    replace (lg_pos s + LZ4_LEGACY_BLOCKSIZE <? size) with true
      by (symmetry; apply Z.ltb_lt; lia).
    rewrite IH; cbn [lg_pos lg_total lg_fd].
    + replace (dropZ (lg_pos s + LZ4_LEGACY_BLOCKSIZE) buf)
        with (dropZ LZ4_LEGACY_BLOCKSIZE (dropZ (lg_pos s) buf))
        by (rewrite dropZ_dropZ by lia; f_equal; lia).
      cbn [flat_map]. rewrite to_unsigned_add, lenZ_app, <- app_assoc.
      do 2 f_equal. f_equal. lia.
    + lia.
    + lia.
    + lia.
    + intros c Hc. apply Hne. right.
      replace (dropZ LZ4_LEGACY_BLOCKSIZE (dropZ (lg_pos s) buf))
        with (dropZ (lg_pos s + LZ4_LEGACY_BLOCKSIZE) buf)
        by (rewrite dropZ_dropZ by lia; f_equal; lia).
      exact Hc.
Qed.

(** What [lz4_legacy] in mode 1 returns and writes, for a library that
    compresses every block of the input to at least one byte. *)
Lemma lz4_legacy_encode_eq (fd0 : list byte) :
  (forall c, In c (legacy_blocks buf) ->
     LZ4_compress_HC L c (LZ4_COMPRESSBOUND LZ4_LEGACY_BLOCKSIZE) 9 <> []) ->
  lz4_legacy L buf 1 fd0 =
    Ok (to_unsigned (4 + lenZ (legacy_body L buf)),
        fd0 ++ legacy_stream L buf).
Proof.
  intros Hne. unfold lz4_legacy, lz4_legacy_fuel. cbn [Z.eqb Pos.eqb].
  pose proof (lenZ_nonneg buf) as Hs. fold size in Hs.
  pose proof BLOCKSIZE_value as HB.
  rewrite legacy_encode_loop.
  - unfold legacy_write, xwrite, bind; cbn [lg_pos lg_total lg_fd].
    rewrite dropZ_0 by lia. fold (legacy_blocks buf).
    fold (legacy_body L buf).
    rewrite (takeZ_all 4 legacy_magic) by (cbn; lia).
    rewrite (takeZ_all 4 (le32 _)) by (rewrite lenZ_le32; lia).
    unfold legacy_stream. fold size.
    rewrite to_unsigned_add, <- !app_assoc.
    change (0 + lenZ legacy_magic) with 4. reflexivity.
  - unfold legacy_write, xwrite; cbn [lg_pos]. fold size. lia.
  - unfold legacy_write, xwrite; cbn [lg_pos]. fold size.
    unfold size, lenZ in *. lia.
  - lia.
  - unfold legacy_write, xwrite; cbn [lg_pos].
    rewrite dropZ_0 by lia. exact Hne.
Qed.
End LegacyEncode.

(* ------------------------------------------------------------------ *)
(** ** The blocks of an input *)

Lemma ceil_div_short (n : Z) :
  0 <= n <= LZ4_LEGACY_BLOCKSIZE ->
  Z.max 1 (ceil_div n LZ4_LEGACY_BLOCKSIZE) = 1.
Proof.
  intros H. unfold ceil_div. rewrite BLOCKSIZE_value in *.
  assert ((n + 8388608 - 1) / 8388608 <= 1)
    by (apply Z.lt_succ_r, Z.div_lt_upper_bound; lia).
  lia.
Qed.

Lemma ceil_div_long (n : Z) :
  LZ4_LEGACY_BLOCKSIZE < n ->
  Z.max 1 (ceil_div n LZ4_LEGACY_BLOCKSIZE) =
    1 + Z.max 1 (ceil_div (n - LZ4_LEGACY_BLOCKSIZE) LZ4_LEGACY_BLOCKSIZE).
Proof.
  intros H. unfold ceil_div. rewrite BLOCKSIZE_value in *.
  replace (n + 8388608 - 1) with ((n - 8388608 + 8388608 - 1) + 1 * 8388608)
    by lia.
  rewrite Z.div_add by lia.
  assert (1 <= (n - 8388608 + 8388608 - 1) / 8388608)
    by (apply Z.div_le_lower_bound; lia).
  lia.
Qed.

Lemma blocks_of_count (fuel : nat) :
  forall l,
    lenZ l <= Z.of_nat fuel * LZ4_LEGACY_BLOCKSIZE -> (1 <= fuel)%nat ->
    Z.of_nat (List.length (blocks_of fuel l)) =
      Z.max 1 (ceil_div (lenZ l) LZ4_LEGACY_BLOCKSIZE).
Proof.
  induction fuel as [|fuel IH]; intros l Hl H1; [lia|].
  pose proof (lenZ_nonneg l) as H0.
  pose proof BLOCKSIZE_value as HB.
  destruct (Z_le_gt_dec (lenZ l) LZ4_LEGACY_BLOCKSIZE) as [Hs|Hs].
  - rewrite blocks_of_short by lia. rewrite ceil_div_short by lia.
    reflexivity.
  - rewrite blocks_of_long by lia. rewrite ceil_div_long by lia.
    simpl List.length. rewrite Nat2Z.inj_succ, IH.
    + rewrite lenZ_dropZ.
      replace (Z.max 0 (lenZ l - Z.max 0 LZ4_LEGACY_BLOCKSIZE))
        with (lenZ l - LZ4_LEGACY_BLOCKSIZE) by lia.
      lia.
    + rewrite lenZ_dropZ. rewrite HB in *. lia.
    + rewrite HB in *. lia.
Qed.

Lemma blocks_of_concat (fuel : nat) :
  forall l,
    lenZ l <= Z.of_nat fuel * LZ4_LEGACY_BLOCKSIZE -> (1 <= fuel)%nat ->
    List.concat (blocks_of fuel l) = l.
Proof.
  induction fuel as [|fuel IH]; intros l Hl H1; [lia|].
  pose proof (lenZ_nonneg l) as H0.
  pose proof BLOCKSIZE_value as HB.
  destruct (Z_le_gt_dec (lenZ l) LZ4_LEGACY_BLOCKSIZE) as [Hs|Hs].
  - rewrite blocks_of_short by lia. simpl. apply app_nil_r.
  - rewrite blocks_of_long by lia. simpl. rewrite IH.
    + apply takeZ_dropZ.
    + rewrite lenZ_dropZ. rewrite HB in *. lia.
    + rewrite HB in *. lia.
Qed.

Lemma blocks_of_bound (fuel : nat) :
  forall l c, In c (blocks_of fuel l) -> lenZ c <= LZ4_LEGACY_BLOCKSIZE.
Proof.
  induction fuel as [|fuel IH]; intros l c Hc; [contradiction|].
  pose proof BLOCKSIZE_value as HB.
  destruct (Z_le_gt_dec (lenZ l) LZ4_LEGACY_BLOCKSIZE) as [Hs|Hs].
  - rewrite blocks_of_short in Hc by lia.
    destruct Hc as [<-|[]]. exact Hs.
  - rewrite blocks_of_long in Hc by lia.
    destruct Hc as [<-|Hc].
    + rewrite lenZ_takeZ. lia.
    + eapply IH. exact Hc.
Qed.

Lemma legacy_blocks_fuel (l : list byte) :
  lenZ l <= Z.of_nat (S (List.length l)) * LZ4_LEGACY_BLOCKSIZE.
Proof.
  pose proof BLOCKSIZE_value. unfold lenZ. lia.
Qed.

Lemma legacy_blocks_count (l : list byte) :
  Z.of_nat (List.length (legacy_blocks l)) =
    Z.max 1 (ceil_div (lenZ l) LZ4_LEGACY_BLOCKSIZE).
Proof.
  apply blocks_of_count; [apply legacy_blocks_fuel | lia].
Qed.

Lemma legacy_blocks_concat (l : list byte) :
  List.concat (legacy_blocks l) = l.
Proof.
  apply blocks_of_concat; [apply legacy_blocks_fuel | lia].
Qed.

Lemma legacy_blocks_bound (l c : list byte) :
  In c (legacy_blocks l) -> lenZ c <= LZ4_LEGACY_BLOCKSIZE.
Proof. apply blocks_of_bound. Qed.

Lemma legacy_blocks_nonempty (l : list byte) : legacy_blocks l <> [].
Proof.
  intros E. pose proof (legacy_blocks_count l) as H. rewrite E in H.
  simpl in H. lia.
Qed.

(* ------------------------------------------------------------------ *)
(** ** lz4_legacy, decoding an encoded stream *)

Lemma do_while_once {S : Type} (body : S -> outcome (control S))
    (cond : S -> bool) (s : S) (fuel : nat) :
  (forall s', body s = Ok (Next s') -> cond s' = false) ->
  do_while (Datatypes.S fuel) body cond s = do_while 1 body cond s.
Proof.
  intros H. simpl. destruct (body s) as [[s'|s']|e|] eqn:E; try reflexivity.
  now rewrite (H s' eq_refl).
Qed.

Lemma Ok_Next_inj {S : Type} (a b : S) :
  @Ok (control S) (Next a) = Ok (Next b) -> a = b.
Proof. intros H. now injection H. Qed.

Lemma legacy_state_eq (p p' t t' : Z) (f f' : list byte) :
  p = p' -> t = t' -> f = f' ->
  {| lg_pos := p; lg_total := t; lg_fd := f |} =
  {| lg_pos := p'; lg_total := t'; lg_fd := f' |}.
Proof. now intros -> -> ->. Qed.

Lemma read_le32_nonneg (bs : list byte) : 0 <= read_le32 bs.
Proof.
  unfold read_le32.
  destruct bs as [|b0 [|b1 [|b2 [|b3 [|]]]]]; try lia.
  pose proof (Z_of_byte_range b0). pose proof (Z_of_byte_range b1).
  pose proof (Z_of_byte_range b2). pose proof (Z_of_byte_range b3).
  rewrite !Z.shiftl_mul_pow2 by lia. lia.
Qed.

Lemma mem_read_mid (pre b rest : list byte) (p n : Z) :
  p = lenZ pre -> n = lenZ b -> mem_read (pre ++ b ++ rest) p n = Some b.
Proof. intros -> ->. apply mem_read_inside. Qed.

Lemma mem_read_end (pre b : list byte) (p n : Z) :
  p = lenZ pre -> n = lenZ b -> mem_read (pre ++ b) p n = Some b.
Proof.
  intros -> ->. rewrite <- (app_nil_r b) at 1. apply mem_read_inside.
Qed.

Section LegacyDecode.
Variable L : lz4_block_lib.
(** The stream: [buf], ending in the four bytes of the trailing field. *)
Variable buf : list byte.
Variable t : Z.
Let size : Z := lenZ buf.
Let bound : Z := LZ4_COMPRESSBOUND LZ4_LEGACY_BLOCKSIZE.

Hypothesis size_fits : size < SIZE_MOD.
Hypothesis t_range : 0 <= t < UINT_MOD.

(** One iteration of the decoding loop over the encoding of a block. *)
Lemma legacy_decode_body_block (s : legacy_state) (pre rest c : list byte) :
  buf = pre ++ legacy_block L c ++ rest ->
  lg_pos s = lenZ pre ->
  block_ok L c ->
  legacy_decode_body L buf s =
    Ok (Next {| lg_pos := lenZ (pre ++ legacy_block L c);
                lg_total := to_unsigned (lg_total s + lenZ c);
                lg_fd := lg_fd s ++ c |}).
Proof.
  intros Hbuf Hpos [Hrt Hlen]. cbv zeta in Hrt, Hlen.
  unfold legacy_block in *. fold bound in Hbuf, Hrt, Hlen |- *.
  set (z := LZ4_compress_HC L c bound 9) in *.
  assert (Hsz : size = lenZ pre + 4 + lenZ z + lenZ rest).
  { unfold size. rewrite Hbuf, !lenZ_app, lenZ_le32. lia. }
  pose proof (lenZ_nonneg pre). pose proof (lenZ_nonneg rest).
  assert (Hb : bound = 8421520) by reflexivity.
  unfold legacy_decode_body. rewrite Hpos.
  replace (mem_read buf (lenZ pre) 4) with (Some (le32 (lenZ z)))
    by (rewrite Hbuf, <- app_assoc; symmetry; now apply mem_read_mid).
  rewrite read_le32_le32, to_unsigned_small by (unfold UINT_MOD; lia).
  rewrite to_size_t_small by lia. fold bound.
  replace (lenZ z >? bound) with false
    by (symmetry; rewrite Z.gtb_ltb; apply Z.ltb_ge; lia).
  replace (mem_read buf (lenZ pre + 4) (lenZ z)) with (Some z)
    by (rewrite Hbuf, <- app_assoc, app_assoc; symmetry;
        apply mem_read_mid; [rewrite lenZ_app, lenZ_le32; lia|reflexivity]).
  rewrite Hrt.
  unfold legacy_write, legacy_set_pos, xwrite; cbn [lg_pos lg_total lg_fd].
  rewrite takeZ_all by lia.
  rewrite to_size_t_small by lia.
  do 3 f_equal. rewrite !lenZ_app, lenZ_le32. lia.
Qed.

Lemma legacy_decode_at_trailer (s : legacy_state) (pre : list byte)
    (fuel : nat) :
  buf = pre ++ le32 t ->
  lg_pos s = lenZ pre ->
  do_while (S fuel) (legacy_decode_body L buf) (legacy_cond buf) s =
    legacy_decode_trailer L buf s.
Proof.
  intros Hbuf Hpos. unfold legacy_decode_trailer.
  apply do_while_once. intros s'.
  assert (Hsz : size = lenZ pre + 4)
    by (unfold size; rewrite Hbuf, lenZ_app, lenZ_le32; lia).
  pose proof (lenZ_nonneg pre).
  unfold legacy_decode_body. rewrite Hpos.
  replace (mem_read buf (lenZ pre) 4) with (Some (le32 t))
    by (rewrite Hbuf; symmetry; now apply mem_read_end).
  rewrite to_size_t_small by lia.
  destruct (read_le32 (le32 t) >? _); [discriminate|].
  destruct (mem_read buf (lenZ pre + 4) (read_le32 (le32 t))) as [src|] eqn:M;
    [|discriminate].
  destruct (LZ4_decompress_safe L src LZ4_LEGACY_BLOCKSIZE) as [out|];
    [|discriminate].
  intros E. apply Ok_Next_inj in E. subst s'.
  unfold legacy_cond, legacy_write, legacy_set_pos, xwrite; cbn [lg_pos].
  fold size. apply Z.ltb_ge.
  pose proof (read_le32_nonneg (le32 t)) as Hn.
  assert (Hz0 : read_le32 (le32 t) = 0).
  { destruct (Z.eq_dec (read_le32 (le32 t)) 0) as [E0|E0]; [exact E0|].
    rewrite mem_read_outside in M; [discriminate|]. fold size. lia. }
  rewrite Hz0, to_size_t_small by lia. lia.
Qed.

(** The decoding loop over the encodings of the blocks [cs]: it decodes
    each of them and then runs into the trailing field. *)
Lemma legacy_decode_loop (cs : list (list byte)) :
  forall (fuel : nat) (pre : list byte) (s : legacy_state),
    buf = pre ++ flat_map (legacy_block L) cs ++ le32 t ->
    lg_pos s = lenZ pre ->
    0 <= lg_total s < UINT_MOD ->
    (List.length cs < fuel)%nat ->
    (forall c, In c cs -> block_ok L c) ->
    do_while fuel (legacy_decode_body L buf) (legacy_cond buf) s =
      legacy_decode_trailer L buf
        {| lg_pos := lenZ (pre ++ flat_map (legacy_block L) cs);
           lg_total := to_unsigned (lg_total s + lenZ (List.concat cs));
           lg_fd := lg_fd s ++ List.concat cs |}.
Proof.
  induction cs as [|c cs IH]; intros fuel pre s Hbuf Hpos Htot Hfuel Hok.
  - destruct fuel as [|fuel]; [simpl in Hfuel; lia|].
    cbn [flat_map List.concat app] in *.
    rewrite (legacy_decode_at_trailer s pre) by assumption.
    unfold legacy_decode_trailer. f_equal.
    destruct s as [p tt f]; cbn [lg_pos lg_total lg_fd] in *.
    rewrite !app_nil_r, Z.add_0_r, to_unsigned_small by lia.
    now rewrite Hpos.
  - destruct fuel as [|fuel]; [simpl in Hfuel; lia|].
    cbn [flat_map] in Hbuf. rewrite <- app_assoc in Hbuf.
    cbn [do_while].
    rewrite (legacy_decode_body_block s pre _ c Hbuf Hpos)
      by (apply Hok; now left).
    replace (legacy_cond buf _) with true.
    2: { symmetry. unfold legacy_cond; cbn [lg_pos]. apply Z.ltb_lt.
         rewrite Hbuf, !lenZ_app, lenZ_le32.
         pose proof (lenZ_nonneg (flat_map (legacy_block L) cs)). lia. }
    rewrite (IH fuel (pre ++ legacy_block L c)); cbn [lg_pos lg_total lg_fd].
    + cbn [flat_map List.concat]. f_equal. apply legacy_state_eq.
      * now rewrite <- app_assoc.
      * rewrite to_unsigned_add, lenZ_app. f_equal. lia.
      * now rewrite <- app_assoc.
    + now rewrite <- app_assoc.
    + reflexivity.
    + apply to_unsigned_range.
    + simpl in Hfuel. lia.
    + intros c' Hc'. apply Hok. now right.
Qed.

(** What the iteration at the trailing field does, by the value [t] the
    field holds. *)
Lemma legacy_trailer_large (s : legacy_state) (pre : list byte) :
  buf = pre ++ le32 t -> lg_pos s = lenZ pre -> bound < t ->
  legacy_decode_trailer L buf s =
    Ok {| lg_pos := size; lg_total := lg_total s; lg_fd := lg_fd s |}.
Proof.
  intros Hbuf Hpos Ht.
  assert (Hsz : size = lenZ pre + 4)
    by (unfold size; rewrite Hbuf, lenZ_app, lenZ_le32; lia).
  pose proof (lenZ_nonneg pre).
  unfold legacy_decode_trailer. cbn [do_while].
  unfold legacy_decode_body. rewrite Hpos.
  replace (mem_read buf (lenZ pre) 4) with (Some (le32 t))
    by (rewrite Hbuf; symmetry; now apply mem_read_end).
  rewrite read_le32_le32, to_unsigned_small by exact t_range.
  fold bound.
  replace (t >? bound) with true by (symmetry; rewrite Z.gtb_ltb; apply Z.ltb_lt; lia).
  unfold legacy_set_pos; cbn [lg_total lg_fd].
  rewrite to_size_t_small by lia. now rewrite Hsz.
Qed.

Lemma legacy_trailer_small (s : legacy_state) (pre : list byte) :
  buf = pre ++ le32 t -> lg_pos s = lenZ pre -> 0 < t <= bound ->
  legacy_decode_trailer L buf s = Fail UndefinedBehaviour.
Proof.
  intros Hbuf Hpos Ht.
  assert (Hsz : size = lenZ pre + 4)
    by (unfold size; rewrite Hbuf, lenZ_app, lenZ_le32; lia).
  pose proof (lenZ_nonneg pre).
  unfold legacy_decode_trailer. cbn [do_while].
  unfold legacy_decode_body. rewrite Hpos.
  replace (mem_read buf (lenZ pre) 4) with (Some (le32 t))
    by (rewrite Hbuf; symmetry; now apply mem_read_end).
  rewrite read_le32_le32, to_unsigned_small by exact t_range.
  fold bound.
  replace (t >? bound) with false
    by (symmetry; rewrite Z.gtb_ltb; apply Z.ltb_ge; lia).
  rewrite to_size_t_small by lia.
  rewrite mem_read_outside; [reflexivity|]. fold size. lia.
Qed.
End LegacyDecode.

Lemma flat_map_blocks_length (L : lz4_block_lib) (cs : list (list byte)) :
  (List.length cs <= List.length (flat_map (legacy_block L) cs))%nat.
Proof.
  induction cs as [|c cs IH]; simpl; [lia|].
  rewrite !length_app. simpl. lia.
Qed.

Section LegacyRoundTrip.
Variable L : lz4_block_lib.
Variable b : list byte.
Let bound : Z := LZ4_COMPRESSBOUND LZ4_LEGACY_BLOCKSIZE.

Hypothesis stream_fits : lenZ (legacy_stream L b) < SIZE_MOD.
Hypothesis blocks_ok : forall c, In c (legacy_blocks b) -> block_ok L c.

Lemma legacy_decode_stream (fd0 : list byte) :
  lz4_legacy L (legacy_stream L b) 0 fd0 =
    s <- legacy_decode_trailer L (legacy_stream L b)
           {| lg_pos := lenZ (legacy_magic ++ legacy_body L b);
              lg_total := to_unsigned (lenZ b);
              lg_fd := fd0 ++ b |} ;;
    Ok (lg_total s, lg_fd s).
Proof.
  unfold lz4_legacy, lz4_legacy_fuel. cbn [Z.eqb].
  rewrite (legacy_decode_loop L (legacy_stream L b)
             (to_unsigned (lenZ b)) stream_fits
             (legacy_blocks b) _ legacy_magic).
  - unfold legacy_set_pos; cbn [lg_pos lg_total lg_fd].
    fold (legacy_body L b).
    now rewrite legacy_blocks_concat, Z.add_0_l.
  - reflexivity.
  - reflexivity.
  - unfold legacy_set_pos; cbn [lg_total]. unfold UINT_MOD. lia.
  - unfold legacy_stream, legacy_body.
    pose proof (flat_map_blocks_length L (legacy_blocks b)).
    rewrite !length_app. lia.
  - exact blocks_ok.
Qed.

(** A trailing field above the bound ends the loop: the input comes
    back. *)
Lemma legacy_roundtrip_large (fd0 : list byte) :
  bound < to_unsigned (lenZ b) ->
  lz4_legacy L (legacy_stream L b) 0 fd0 =
    Ok (to_unsigned (lenZ b), fd0 ++ b).
Proof.
  intros Ht. rewrite legacy_decode_stream.
  rewrite (legacy_trailer_large L (legacy_stream L b)
             (to_unsigned (lenZ b)) stream_fits (to_unsigned_range _) _
             (legacy_magic ++ legacy_body L b)).
  - reflexivity.
  - unfold legacy_stream. now rewrite <- app_assoc.
  - reflexivity.
  - exact Ht.
Qed.

(** A trailing field within the bound is taken for a block length, and the
    block is read from behind the end of the stream. *)
Lemma legacy_roundtrip_small (fd0 : list byte) :
  0 < to_unsigned (lenZ b) <= bound ->
  lz4_legacy L (legacy_stream L b) 0 fd0 = Fail UndefinedBehaviour.
Proof.
  intros Ht. rewrite legacy_decode_stream.
  rewrite (legacy_trailer_small L (legacy_stream L b)
             (to_unsigned (lenZ b)) stream_fits (to_unsigned_range _) _
             (legacy_magic ++ legacy_body L b)).
  - reflexivity.
  - unfold legacy_stream. now rewrite <- app_assoc.
  - reflexivity.
  - exact Ht.
Qed.
End LegacyRoundTrip.

(* ------------------------------------------------------------------ *)
(** ** The literal-only block coder is a lawful LZ4 block library *)

Lemma lit_read_ext_repeat (k : nat) :
  forall (acc r : Z) (rest : list byte),
    0 <= r < 255 ->
    lit_read_ext (repeat xff k ++ byte_of_Z r :: rest) acc =
      Some (acc + 255 * Z.of_nat k + r, rest).
Proof.
  induction k as [|k IH]; intros acc r rest Hr.
  - cbn [repeat app lit_read_ext].
    rewrite Z_of_byte_of_Z, Z.mod_small by lia.
    replace (r =? 255) with false by (symmetry; apply Z.eqb_neq; lia).
    do 2 f_equal. lia.
  - cbn [repeat app lit_read_ext].
    change (Z_of_byte xff =? 255) with true. cbn iota.
    rewrite IH by exact Hr. do 2 f_equal. lia.
Qed.

Lemma lenZ_repeat {A : Type} (x : A) (n : nat) : lenZ (repeat x n) = Z.of_nat n.
Proof. unfold lenZ. now rewrite repeat_length. Qed.

Lemma lenZ_lit_ext (r : Z) : 0 <= r -> lenZ (lit_ext r) = r / 255 + 1.
Proof.
  intros Hr. unfold lit_ext. rewrite lenZ_app, lenZ_repeat.
  change (lenZ [byte_of_Z (r mod 255)]) with 1.
  pose proof (Z.div_pos r 255 Hr ltac:(lia)). lia.
Qed.

Lemma lit_read_ext_lit_ext (r : Z) (rest : list byte) :
  0 <= r ->
  lit_read_ext (lit_ext r ++ rest) 15 = Some (15 + r, rest).
Proof.
  intros Hr. unfold lit_ext. rewrite <- app_assoc. cbn [app].
  rewrite lit_read_ext_repeat by (apply Z.mod_pos_bound; lia).
  pose proof (Z.div_pos r 255 Hr ltac:(lia)).
  rewrite Z2Nat.id by lia.
  pose proof (Z.div_mod r 255 ltac:(lia)). do 2 f_equal. lia.
Qed.

Lemma lit_compress_nonempty (src : list byte) (cap level : Z) :
  lit_compress src cap level <> [].
Proof. unfold lit_compress. destruct (lenZ src <? 15); discriminate. Qed.

Lemma lenZ_lit_compress (src : list byte) (cap level : Z) :
  lenZ src <= lenZ (lit_compress src cap level)
    <= lenZ src + lenZ src / 255 + 2.
Proof.
  pose proof (lenZ_nonneg src) as H0.
  unfold lit_compress. destruct (Z.ltb_spec (lenZ src) 15) as [Hs|Hs].
  - rewrite lenZ_cons.
    pose proof (Z.div_pos (lenZ src) 255 H0 ltac:(lia)). lia.
  - rewrite lenZ_cons, lenZ_app, lenZ_lit_ext by lia.
    pose proof (Z.div_pos (lenZ src - 15) 255 ltac:(lia) ltac:(lia)).
    assert ((lenZ src - 15) / 255 <= lenZ src / 255)
      by (apply Z.div_le_mono; lia).
    lia.
Qed.

Lemma lit_roundtrip (src : list byte) (cap level bound : Z) :
  lenZ src <= bound ->
  lit_decompress (lit_compress src cap level) bound = Some src.
Proof.
  intros Hb. pose proof (lenZ_nonneg src) as H0.
  unfold lit_compress. destruct (Z.ltb_spec (lenZ src) 15) as [Hs|Hs].
  - unfold lit_decompress.
    rewrite Z_of_byte_of_Z, (Z.mod_small (16 * lenZ src)) by lia.
    replace (16 * lenZ src) with (lenZ src * 16) by lia.
    rewrite Z.mod_mul, Z.div_mul by lia. cbn [Z.eqb negb].
    replace (lenZ src =? 15) with false by (symmetry; apply Z.eqb_neq; lia).
    rewrite Z.eqb_refl. cbn [andb].
    now replace (lenZ src <=? bound) with true
      by (symmetry; apply Z.leb_le; lia).
  - unfold lit_decompress.
    change (Z_of_byte xf0 mod 16) with 0. change (Z_of_byte xf0 / 16) with 15.
    cbn [Z.eqb negb Pos.eqb].
    rewrite lit_read_ext_lit_ext by lia.
    replace (15 + (lenZ src - 15)) with (lenZ src) by lia.
    rewrite Z.eqb_refl. cbn [andb].
    now replace (lenZ src <=? bound) with true
      by (symmetry; apply Z.leb_le; lia).
Qed.

Lemma lit_block_ok (c : list byte) :
  lenZ c <= LZ4_LEGACY_BLOCKSIZE -> block_ok lit_lz4 c.
Proof.
  intros Hc. unfold block_ok. cbn [LZ4_compress_HC LZ4_decompress_safe lit_lz4].
  split; [now apply lit_roundtrip|].
  set (z := lit_compress c (LZ4_COMPRESSBOUND LZ4_LEGACY_BLOCKSIZE) 9).
  pose proof (lenZ_lit_compress c
                (LZ4_COMPRESSBOUND LZ4_LEGACY_BLOCKSIZE) 9) as [Hlo Hhi].
  pose proof (lit_compress_nonempty c
                (LZ4_COMPRESSBOUND LZ4_LEGACY_BLOCKSIZE) 9) as Hne.
  fold z in Hlo, Hhi, Hne. rewrite <- lenZ_nil_iff in Hne.
  pose proof (lenZ_nonneg z). pose proof (lenZ_nonneg c).
  rewrite COMPRESSBOUND_value. rewrite BLOCKSIZE_value in Hc.
  assert (lenZ c / 255 <= 32896)
    by (apply Z.lt_succ_r, Z.div_lt_upper_bound; lia).
  lia.
Qed.

Lemma lit_blocks_ok (b c : list byte) :
  In c (legacy_blocks b) -> block_ok lit_lz4 c.
Proof. intros H. apply lit_block_ok. eapply legacy_blocks_bound, H. Qed.

Lemma lit_blocks_nonempty (b c : list byte) :
  In c (legacy_blocks b) ->
  LZ4_compress_HC lit_lz4 c (LZ4_COMPRESSBOUND LZ4_LEGACY_BLOCKSIZE) 9 <> [].
Proof. intros _. apply lit_compress_nonempty. Qed.

(* ------------------------------------------------------------------ *)
(** ** lz4_legacy: what the returned total counts *)

Lemma Ok_Break_inj {S : Type} (a b : S) :
  @Ok (control S) (Break a) = Ok (Break b) -> a = b.
Proof. intros H. now injection H. Qed.

Lemma Ok_inj {A : Type} (a b : A) : Ok a = Ok b -> a = b.
Proof. intros H. now injection H. Qed.

Lemma counted_write (fd0 : list byte) (s : legacy_state) (data : list byte)
    (count : Z) :
  counted fd0 s -> counted fd0 (legacy_write s data count).
Proof.
  intros [w [Hfd Ht]]. exists (w ++ takeZ count data).
  unfold legacy_write, xwrite; cbn [lg_fd lg_total].
  rewrite Hfd, Ht, to_unsigned_add, lenZ_app, app_assoc. now split.
Qed.

Lemma counted_set_pos (fd0 : list byte) (s : legacy_state) (p : Z) :
  counted fd0 s -> counted fd0 (legacy_set_pos s p).
Proof. intros H. exact H. Qed.

Lemma legacy_decode_body_counted (L : lz4_block_lib) (buf fd0 : list byte)
    (s : legacy_state) (c : control legacy_state) :
  counted fd0 s -> legacy_decode_body L buf s = Ok c ->
  counted fd0 (match c with Next s' => s' | Break s' => s' end).
Proof.
  intros Hs. unfold legacy_decode_body, LOGE.
  destruct (mem_read buf (lg_pos s) 4) as [word|]; [|discriminate].
  destruct (read_le32 word >? _).
  - intros E. apply Ok_inj in E. subst c. now apply counted_set_pos.
  - destruct (mem_read buf _ (read_le32 word)) as [src|]; [|discriminate].
    destruct (LZ4_decompress_safe L src LZ4_LEGACY_BLOCKSIZE) as [out|];
      [|discriminate].
    intros E. apply Ok_inj in E. subst c.
    now apply counted_write, counted_set_pos.
Qed.

Lemma legacy_encode_body_counted (L : lz4_block_lib) (buf fd0 : list byte)
    (s : legacy_state) (c : control legacy_state) :
  counted fd0 s -> legacy_encode_body L buf s = Ok c ->
  counted fd0 (match c with Next s' => s' | Break s' => s' end).
Proof.
  intros Hs. unfold legacy_encode_body, LOGE.
  destruct (mem_read buf (lg_pos s) _) as [src|]; [|discriminate].
  destruct (lenZ _ =? 0); [discriminate|].
  intros E. apply Ok_inj in E. subst c.
  now apply counted_write, counted_write, counted_set_pos.
Qed.

Lemma do_while_counted (fd0 : list byte)
    (body : legacy_state -> outcome (control legacy_state))
    (cond : legacy_state -> bool) :
  (forall s c, counted fd0 s -> body s = Ok c ->
     counted fd0 (match c with Next s' => s' | Break s' => s' end)) ->
  forall fuel s s', counted fd0 s -> do_while fuel body cond s = Ok s' ->
    counted fd0 s'.
Proof.
  intros Hbody fuel s s' Hs H.
  destruct (do_while_inv (counted fd0) (counted fd0) body cond) with
    (fuel := fuel) (s := s) (s' := s') as [[H1 _]|H1]; auto.
  - intros s1 s2 H1 H2. exact (Hbody s1 (Next s2) H1 H2).
  - intros s1 s2 H1 H2. exact (Hbody s1 (Break s2) H1 H2).
Qed.

(** In mode 0 the returned value is the number of bytes written, as an
    [unsigned]. *)
Lemma lz4_legacy_decode_total (L : lz4_block_lib) (buf fd0 : list byte)
    (t : Z) (out : list byte) :
  lz4_legacy L buf 0 fd0 = Ok (t, out) ->
  exists w, out = fd0 ++ w /\ t = to_unsigned (lenZ w).
Proof.
  unfold lz4_legacy, lz4_legacy_fuel. cbn [Z.eqb]. unfold bind.
  destruct (do_while _ _ _ _) as [s| |] eqn:E; try discriminate.
  intros H. apply Ok_inj in H.
  apply do_while_counted with (fd0 := fd0) in E.
  - destruct E as [w [Hfd Ht]]. exists w.
    assert (lg_total s = t) by congruence.
    assert (lg_fd s = out) by congruence. subst. now split.
  - intros s1 c. apply legacy_decode_body_counted.
  - exists []. unfold legacy_set_pos; cbn [lg_fd lg_total].
    rewrite app_nil_r. now split.
Qed.

(** In mode 1 the returned value leaves out the four bytes of the trailing
    field, which are written without being added to [total]. *)
Lemma lz4_legacy_encode_total (L : lz4_block_lib) (buf fd0 : list byte)
    (t : Z) (out : list byte) :
  lz4_legacy L buf 1 fd0 = Ok (t, out) ->
  exists w, out = fd0 ++ w /\ 4 <= lenZ w /\ t = to_unsigned (lenZ w - 4).
Proof.
  unfold lz4_legacy, lz4_legacy_fuel. cbn [Z.eqb Pos.eqb]. unfold bind.
  destruct (do_while _ _ _ _) as [s| |] eqn:E; try discriminate.
  unfold xwrite. intros H. apply Ok_inj in H.
  apply do_while_counted with (fd0 := fd0) in E.
  - destruct E as [w [Hfd Ht]].
    exists (w ++ le32 (to_unsigned (lenZ buf))).
    rewrite (takeZ_all 4 (le32 _)) in H by (rewrite lenZ_le32; lia).
    assert (lg_total s = t) by congruence.
    assert (lg_fd s ++ le32 (to_unsigned (lenZ buf)) = out) by congruence.
    subst t out. rewrite Hfd, Ht, lenZ_app, lenZ_le32, app_assoc.
    pose proof (lenZ_nonneg w).
    repeat split; [lia|]. f_equal. lia.
  - intros s1 c. apply legacy_encode_body_counted.
  - apply counted_write. exists []. cbn [lg_fd lg_total].
    rewrite app_nil_r. now split.
Qed.

(* ================================================================== *)
(** * The LZ4-legacy container *)

Lemma flat_map_block_length (L : lz4_block_lib) (cs : list (list byte)) :
  (forall c, In c cs ->
     lenZ c <= lenZ (LZ4_compress_HC L c
                       (LZ4_COMPRESSBOUND LZ4_LEGACY_BLOCKSIZE) 9)) ->
  lenZ (List.concat cs) <= lenZ (flat_map (legacy_block L) cs).
Proof.
  induction cs as [|c cs IH]; intros H; cbn [List.concat flat_map].
  - reflexivity.
  - unfold legacy_block at 1. rewrite !lenZ_app, lenZ_le32.
    pose proof (H c (or_introl eq_refl)).
    assert (lenZ (List.concat cs) <= lenZ (flat_map (legacy_block L) cs))
      by (apply IH; intros c' Hc'; apply H; now right).
    lia.
Qed.

Lemma lenZ_four_GiB : lenZ four_GiB = UINT_MOD.
Proof.
  unfold four_GiB. rewrite lenZ_repeat. apply Z2Nat.id.
  unfold UINT_MOD. lia.
Qed.

Lemma mod_shift_4 (a : Z) : to_unsigned a <> (a + 4) mod 2 ^ 32.
Proof.
  unfold to_unsigned, UINT_MOD. intros E.
  pose proof (Z.div_mod a (2 ^ 32) ltac:(lia)) as Ha.
  pose proof (Z.div_mod (a + 4) (2 ^ 32) ltac:(lia)) as Hb.
  rewrite <- E in Hb.
  assert (4 = 2 ^ 32 * ((a + 4) / 2 ^ 32 - a / 2 ^ 32)) by lia.
  lia.
Qed.

(** C2 (as amended).  For every input buffer whose blocks the library
    compresses to at least one byte, LZ4-legacy encode emits the magic
    02 21 4C 18, then max (1, ceil (len / 8 MiB)) blocks (one block of no
    input bytes for the empty buffer), each the level-9 HC compression of at
    most 8 MiB of input behind its 4-byte little-endian length, then a
    4-byte little-endian field holding len modulo 2^32, which is len itself
    when len < 2^32. *)
Theorem C2_lz4_legacy_encode_layout (L : lz4_block_lib) (b : list byte) :
  lenZ b + LZ4_LEGACY_BLOCKSIZE < SIZE_MOD ->
  (forall c, In c (legacy_blocks b) ->
     LZ4_compress_HC L c (LZ4_COMPRESSBOUND LZ4_LEGACY_BLOCKSIZE) 9 <> []) ->
  (exists t,
     lz4_legacy L b 1 [] =
       Ok (t,
           [x02; x21; x4c; x18]
           ++ flat_map
                (fun c =>
                   let z := LZ4_compress_HC L c
                              (LZ4_COMPRESSBOUND LZ4_LEGACY_BLOCKSIZE) 9 in
                   le32 (lenZ z) ++ z)
                (legacy_blocks b)
           ++ le32 (lenZ b mod 2 ^ 32)))
  /\ Z.of_nat (List.length (legacy_blocks b))
     = Z.max 1 (ceil_div (lenZ b) LZ4_LEGACY_BLOCKSIZE)
  /\ List.concat (legacy_blocks b) = b
  /\ (forall c, In c (legacy_blocks b) -> lenZ c <= LZ4_LEGACY_BLOCKSIZE)
  /\ (lenZ b < 2 ^ 32 -> read_le32 (le32 (lenZ b mod 2 ^ 32)) = lenZ b).
Proof.
  intros Hfit Hne. split; [|split; [|split; [|split]]].
  - eexists. rewrite (lz4_legacy_encode_eq L b Hfit [] Hne). reflexivity.
  - apply legacy_blocks_count.
  - apply legacy_blocks_concat.
  - apply legacy_blocks_bound.
  - intros Hlt. pose proof (lenZ_nonneg b).
    rewrite read_le32_le32. unfold to_unsigned, UINT_MOD.
    rewrite Z.mod_mod by lia. apply Z.mod_small. lia.
Qed.

Lemma C2_witness :
  (exists t,
     lz4_legacy lit_lz4 hello 1 [] =
       Ok (t,
           [x02; x21; x4c; x18]
           ++ flat_map
                (fun c =>
                   let z := LZ4_compress_HC lit_lz4 c
                              (LZ4_COMPRESSBOUND LZ4_LEGACY_BLOCKSIZE) 9 in
                   le32 (lenZ z) ++ z)
                (legacy_blocks hello)
           ++ le32 (lenZ hello mod 2 ^ 32)))
  /\ Z.of_nat (List.length (legacy_blocks hello))
     = Z.max 1 (ceil_div (lenZ hello) LZ4_LEGACY_BLOCKSIZE)
  /\ List.concat (legacy_blocks hello) = hello
  /\ (forall c, In c (legacy_blocks hello) -> lenZ c <= LZ4_LEGACY_BLOCKSIZE)
  /\ (lenZ hello < 2 ^ 32 ->
      read_le32 (le32 (lenZ hello mod 2 ^ 32)) = lenZ hello).
Proof.
  apply (C2_lz4_legacy_encode_layout lit_lz4 hello).
  - vm_compute. reflexivity.
  - intros c _. apply lit_compress_nonempty.
Defined.

(** C2, the claim as stated fails on the empty buffer: the loop body runs
    once, so one block (of no input bytes) is emitted, where
    ceil (0 / 8 MiB) is 0. *)
Lemma C2_counterexample :
  lz4_legacy lit_lz4 [] 1 [] =
    Ok (9, legacy_magic ++ legacy_block lit_lz4 [] ++ le32 0)
  /\ legacy_block lit_lz4 [] = [x01; x00; x00; x00; x00]
  /\ ceil_div (lenZ (@nil byte)) LZ4_LEGACY_BLOCKSIZE = 0.
Proof. split; [|split]; vm_compute; reflexivity. Qed.

(** C4, at the failing transcoder.  A successful LZ4-legacy encode returns
    four less than the number of bytes it wrote: the trailing size field is
    written but not added to [total]. *)
Theorem C4_lz4_legacy_encode_returns_four_less (L : lz4_block_lib)
    (buf : list byte) (t : Z) (out : list byte) :
  lz4_legacy L buf 1 [] = Ok (t, out) ->
  lenZ out < 2 ^ 32 ->
  t = lenZ out - 4 /\ t <> lenZ out.
Proof.
  intros H Hlt. apply lz4_legacy_encode_total in H.
  destruct H as [w [Hout [H4 Ht]]]. cbn [app] in Hout. subst out.
  rewrite to_unsigned_small in Ht by (unfold UINT_MOD; lia). lia.
Qed.

Lemma C4_witness :
  14 = lenZ ([x02; x21; x4c; x18; x06; x00; x00; x00;
              x50; x68; x65; x6c; x6c; x6f; x05; x00; x00; x00]) - 4
  /\ 14 <> lenZ ([x02; x21; x4c; x18; x06; x00; x00; x00;
                  x50; x68; x65; x6c; x6c; x6f; x05; x00; x00; x00]).
Proof.
  apply (C4_lz4_legacy_encode_returns_four_less lit_lz4 hello 14
           [x02; x21; x4c; x18; x06; x00; x00; x00;
            x50; x68; x65; x6c; x6c; x6f; x05; x00; x00; x00]).
  - vm_compute. reflexivity.
  - vm_compute. reflexivity.
Defined.

(** With the literal-only library the encoder's output is at least as long
    as its input, and the returned value is never the output length modulo
    2^32. *)
Lemma lit_encode_total_off (b : list byte) :
  lenZ b + LZ4_LEGACY_BLOCKSIZE < SIZE_MOD ->
  exists t out,
    lz4_legacy lit_lz4 b 1 [] = Ok (t, out)
    /\ lenZ b <= lenZ out
    /\ t <> lenZ out mod 2 ^ 32.
Proof.
  intros Hfit.
  pose proof (lz4_legacy_encode_eq lit_lz4 b Hfit []
                (lit_blocks_nonempty b)) as E.
  cbn [app] in E.
  assert (Hbody : lenZ (List.concat (legacy_blocks b))
                  <= lenZ (legacy_body lit_lz4 b)).
  { apply flat_map_block_length. intros c _.
    apply (lenZ_lit_compress c _ 9). }
  rewrite legacy_blocks_concat in Hbody.
  eexists. eexists. split; [exact E|].
  unfold legacy_stream. rewrite !lenZ_app, lenZ_le32.
  change (lenZ legacy_magic) with 4.
  split; [lia|].
  replace (4 + (lenZ (legacy_body lit_lz4 b) + 4))
    with (4 + lenZ (legacy_body lit_lz4 b) + 4) by lia.
  apply mod_shift_4.
Qed.

(** With the literal-only library 4 GiB of input give more than 2^32 bytes
    of output, and the returned value is not the byte count modulo 2^32. *)
Lemma lit_four_GiB_encode_total :
  exists t out,
    lz4_legacy lit_lz4 four_GiB 1 [] = Ok (t, out)
    /\ 2 ^ 32 <= lenZ out
    /\ t <> lenZ out mod 2 ^ 32.
Proof.
  assert (Hfit : lenZ four_GiB + LZ4_LEGACY_BLOCKSIZE < SIZE_MOD).
  { rewrite lenZ_four_GiB, BLOCKSIZE_value. unfold UINT_MOD, SIZE_MOD. lia. }
  destruct (lit_encode_total_off four_GiB Hfit) as [t [out [E [Hlen Ht]]]].
  exists t, out. split; [exact E|]. split; [|exact Ht].
  rewrite lenZ_four_GiB in Hlen. exact Hlen.
Qed.

(** C3, at the failing inputs.  On the stream the encoder produces for any
    input of 1 to 8421520 bytes, the decoding loop, having decoded every
    block, stands four bytes before the end with its test [pos < size] true;
    it reads the trailing size field as a block length, which passes the
    bound check, and the block it then reads lies behind the end of the
    input. *)
Theorem C3_lz4_legacy_trailer_read_as_block (L : lz4_block_lib)
    (b : list byte) :
  let s := legacy_stream L b in
  let at_trailer :=
    {| lg_pos := lenZ s - 4; lg_total := lenZ b; lg_fd := b |} in
  lenZ s < SIZE_MOD ->
  (forall c, In c (legacy_blocks b) -> block_ok L c) ->
  0 < lenZ b <= LZ4_COMPRESSBOUND LZ4_LEGACY_BLOCKSIZE ->
  lz4_legacy L s 0 [] =
    (r <- legacy_decode_trailer L s at_trailer ;; Ok (lg_total r, lg_fd r))
  /\ legacy_cond s at_trailer = true
  /\ mem_read s (lg_pos at_trailer) 4 = Some (le32 (lenZ b))
  /\ mem_read s (lenZ s) (read_le32 (le32 (lenZ b))) = None
  /\ lz4_legacy L s 0 [] = Fail UndefinedBehaviour.
Proof.
  intros s at_trailer Hfit Hok Hlen.
  rewrite COMPRESSBOUND_value in Hlen.
  assert (Hu : to_unsigned (lenZ b) = lenZ b)
    by (apply to_unsigned_small; unfold UINT_MOD; lia).
  assert (Hs : lenZ s = lenZ (legacy_magic ++ legacy_body L b) + 4).
  { unfold s, legacy_stream. rewrite !lenZ_app, lenZ_le32. lia. }
  split; [|split; [|split; [|split]]].
  - unfold s. rewrite (legacy_decode_stream L b Hfit Hok []).
    unfold at_trailer. fold s. rewrite Hu, Hs. cbn [app].
    now replace (lenZ (legacy_magic ++ legacy_body L b) + 4 - 4)
      with (lenZ (legacy_magic ++ legacy_body L b)) by lia.
  - unfold legacy_cond, at_trailer; cbn [lg_pos]. apply Z.ltb_lt. lia.
  - unfold at_trailer; cbn [lg_pos]. unfold s, legacy_stream.
    rewrite app_assoc, Hu. apply mem_read_end; [|reflexivity].
    fold (legacy_stream L b). fold s. unfold s, legacy_stream.
    rewrite !lenZ_app, lenZ_le32. lia.
  - rewrite read_le32_le32, Hu. apply mem_read_outside. lia.
  - unfold s. apply legacy_roundtrip_small; try assumption.
    rewrite Hu, COMPRESSBOUND_value. exact Hlen.
Qed.

Lemma C3_witness :
  let s := legacy_stream lit_lz4 hello in
  let at_trailer :=
    {| lg_pos := lenZ s - 4; lg_total := lenZ hello; lg_fd := hello |} in
  lz4_legacy lit_lz4 s 0 [] =
    (r <- legacy_decode_trailer lit_lz4 s at_trailer ;;
     Ok (lg_total r, lg_fd r))
  /\ legacy_cond s at_trailer = true
  /\ mem_read s (lg_pos at_trailer) 4 = Some (le32 (lenZ hello))
  /\ mem_read s (lenZ s) (read_le32 (le32 (lenZ hello))) = None
  /\ lz4_legacy lit_lz4 s 0 [] = Fail UndefinedBehaviour.
Proof.
  apply (C3_lz4_legacy_trailer_read_as_block lit_lz4 hello).
  - vm_compute. reflexivity.
  - apply lit_blocks_ok.
  - vm_compute. split; [reflexivity | discriminate].
Defined.

(** C1, at the failing inputs.  For the LZ4-legacy tag the round trip
    through the dispatchers fails on every input of 1 to 8421520 bytes:
    [comp] succeeds, and [decomp] of what it wrote reads behind the end of
    its input instead of returning the input. *)
Theorem C1_lz4_legacy_round_trip_fails (K : codecs) (fuel : nat)
    (b : list byte) :
  lenZ b + LZ4_LEGACY_BLOCKSIZE < SIZE_MOD ->
  lenZ (legacy_stream (lib_lz4 K) b) < SIZE_MOD ->
  (forall c, In c (legacy_blocks b) -> block_ok (lib_lz4 K) c) ->
  0 < lenZ b <= LZ4_COMPRESSBOUND LZ4_LEGACY_BLOCKSIZE ->
  exists t encoded,
    comp K fuel LZ4_LEGACY [] b = Ok (t, encoded)
    /\ decomp K fuel LZ4_LEGACY [] encoded = Fail UndefinedBehaviour.
Proof.
  intros Hfit Hsfit Hok Hlen.
  assert (Hne : forall c, In c (legacy_blocks b) ->
            LZ4_compress_HC (lib_lz4 K) c
              (LZ4_COMPRESSBOUND LZ4_LEGACY_BLOCKSIZE) 9 <> []).
  { intros c Hc. destruct (Hok c Hc) as [_ Hz]. cbv zeta in Hz.
    rewrite <- lenZ_nil_iff. lia. }
  exists (to_long_long (to_unsigned (4 + lenZ (legacy_body (lib_lz4 K) b)))).
  exists (legacy_stream (lib_lz4 K) b).
  unfold comp, decomp, as_long_long.
  rewrite (lz4_legacy_encode_eq (lib_lz4 K) b Hfit [] Hne).
  rewrite legacy_roundtrip_small; try assumption.
  - split; reflexivity.
  - rewrite to_unsigned_small; [exact Hlen|].
    rewrite COMPRESSBOUND_value in Hlen. unfold UINT_MOD. lia.
Qed.

Lemma C1_witness :
  exists t encoded,
    comp tag_codecs 1 LZ4_LEGACY [] hello = Ok (t, encoded)
    /\ decomp tag_codecs 1 LZ4_LEGACY [] encoded = Fail UndefinedBehaviour.
Proof.
  apply (C1_lz4_legacy_round_trip_fails tag_codecs 1%nat hello).
  - vm_compute. reflexivity.
  - vm_compute. reflexivity.
  - apply lit_blocks_ok.
  - vm_compute. split; [reflexivity | discriminate].
Defined.

(* ================================================================== *)
(** * The streaming transcoders *)


Lemma do_while_never_fails {S : Type} (body : S -> outcome (control S))
    (cond : S -> bool) :
  (forall s e, body s <> Fail e) ->
  forall fuel s e, do_while fuel body cond s <> Fail e.
Proof.
  intros Hb fuel s e H.
  apply (do_while_fail (fun _ => True) (fun _ => False) body cond)
    with (fuel := fuel) (s := s) (e := e); auto.
  intros s1 e1 _ H1. exact (Hb s1 e1 H1).
Qed.

Lemma select_window_spec (chunk p size : Z) :
  0 <= p <= size -> 0 <= chunk -> size + chunk < SIZE_MOD ->
  select_window chunk p size =
    (Z.min chunk (size - p), size - p <=? chunk).
Proof.
  intros Hp Hc Hfit. unfold select_window.
  rewrite !to_size_t_small by lia.
  destruct (Z.leb_spec (size - p) chunk) as [H|H].
  - replace (p + chunk >=? size) with true
      by (symmetry; apply Z.geb_le; lia).
    f_equal. lia.
  - replace (p + chunk >=? size) with false
      by (symmetry; rewrite Z.geb_leb; apply Z.leb_gt; lia).
    f_equal. lia.
Qed.

Lemma pos_drain {I : Type} (s : coder_state I) (cap : Z) (out : list byte) :
  pos (drain s cap out) = pos s /\ avail_out (drain s cap out) = avail_out s
  /\ ret (drain s cap out) = ret s.
Proof. unfold drain, xwrite. now cbn. Qed.

Lemma pos_after_call {I : Type} (conv : Z -> Z) (w : Z) (s : coder_state I)
    (r : stream_step I) :
  pos (after_call conv w s r) = pos s.
Proof. reflexivity. Qed.

(** *** gzip *)

Section GzipLoop.
Variable ZL : zlib.
Variable buf : list byte.
Let size : Z := lenZ buf.

Lemma gzip_inner_body_pos (mode flush : Z) (s : coder_state (z_internal ZL))
    (c : control (coder_state (z_internal ZL))) :
  gzip_inner_body ZL buf mode flush s = Ok c ->
  exists s', c = Next s' /\ pos s' = pos s.
Proof.
  unfold gzip_inner_body, LOGE.
  destruct (mode =? 0); [|destruct (mode =? 1)];
    match goal with
    | |- context [if ?b then Fail _ else _] => destruct b; [discriminate|]
    end;
    intros E; apply Ok_inj in E; subst c; eexists; split;
      try reflexivity; apply pos_drain.
Qed.

Lemma gzip_inner_loop (fuel : nat) (mode flush : Z) :
  forall s s',
    do_while fuel (gzip_inner_body ZL buf mode flush) (gzip_inner_cond ZL) s
      = Ok s' ->
    pos s' = pos s /\ avail_out s' <> 0.
Proof.
  intros s s' H.
  destruct (do_while_inv (fun x => pos x = pos s) (fun _ => False)
              (gzip_inner_body ZL buf mode flush) (gzip_inner_cond ZL))
    with (fuel := fuel) (s := s) (s' := s') as [[Hp Hc]|[]]; auto.
  - intros s1 s2 H1 H2. apply gzip_inner_body_pos in H2.
    destruct H2 as [s3 [E3 H3]]. apply (f_equal (fun c =>
      match c with Next x => pos x | Break x => pos x end)) in E3.
    cbn in E3. congruence.
  - intros s1 s2 H1 H2. apply gzip_inner_body_pos in H2.
    destruct H2 as [s3 [E3 _]]. discriminate.
  - split; [exact Hp|]. unfold gzip_inner_cond in Hc.
    now apply Z.eqb_neq.
Qed.

Hypothesis size_fits : size + CHUNK < SIZE_MOD.

(** The window an outer iteration feeds and the flush value it passes. *)
Lemma gzip_outer_body_eq (fuel : nat) (mode : Z)
    (s : coder_state (z_internal ZL)) :
  0 <= pos s <= size ->
  gzip_outer_body ZL buf fuel mode s =
    (s1 <- do_while fuel
             (gzip_inner_body ZL buf mode
                (if size - pos s <=? CHUNK then Z_FINISH else Z_NO_FLUSH))
             (gzip_inner_cond ZL) (feed s (Z.min CHUNK (size - pos s))) ;;
     Ok (Next s1)).
Proof.
  intros Hp. unfold gzip_outer_body. fold size.
  rewrite select_window_spec by (try assumption; unfold CHUNK; lia).
  rewrite to_unsigned_small; [reflexivity|].
  unfold UINT_MOD, CHUNK. lia.
Qed.

Lemma gzip_outer_step (fuel : nat) (mode : Z)
    (s s' : coder_state (z_internal ZL)) :
  0 <= pos s <= size ->
  gzip_outer_body ZL buf fuel mode s = Ok (Next s') ->
  pos s' = Z.min (pos s + CHUNK) size /\ avail_out s' <> 0.
Proof.
  intros Hp. rewrite gzip_outer_body_eq by exact Hp. unfold bind.
  destruct (do_while _ _ _ _) as [s1| |] eqn:E; try discriminate.
  intros H. apply Ok_Next_inj in H. subst s1.
  apply gzip_inner_loop in E. destruct E as [E1 E2].
  split; [|exact E2]. rewrite E1. unfold feed; cbn [pos].
  unfold CHUNK, SIZE_MOD in *. rewrite to_size_t_small
    by (unfold SIZE_MOD; lia). lia.
Qed.
End GzipLoop.

(** *** bzip2 *)

Section Bzip2Loop.
Variable BZ : bzlib.
Variable buf : list byte.
Let size : Z := lenZ buf.

Lemma bzip2_inner_body_pos (mode action : Z) (s : coder_state (bz_internal BZ))
    (c : control (coder_state (bz_internal BZ))) :
  bzip2_inner_body BZ buf mode action s = Ok c ->
  exists s', c = Next s' /\ pos s' = pos s.
Proof.
  unfold bzip2_inner_body, LOGE.
  destruct (mode =? 0); [|destruct (mode =? 1)];
    intros E; apply Ok_inj in E; subst c; eexists; split;
      try reflexivity; apply pos_drain.
Qed.

Lemma bzip2_inner_loop (fuel : nat) (mode action : Z) :
  forall s s',
    do_while fuel (bzip2_inner_body BZ buf mode action) (bzip2_inner_cond BZ) s
      = Ok s' ->
    pos s' = pos s /\ avail_out s' <> 0.
Proof.
  intros s s' H.
  destruct (do_while_inv (fun x => pos x = pos s) (fun _ => False)
              (bzip2_inner_body BZ buf mode action) (bzip2_inner_cond BZ))
    with (fuel := fuel) (s := s) (s' := s') as [[Hp Hc]|[]]; auto.
  - intros s1 s2 H1 H2. apply bzip2_inner_body_pos in H2.
    destruct H2 as [s3 [E3 H3]]. apply (f_equal (fun c =>
      match c with Next x => pos x | Break x => pos x end)) in E3.
    cbn in E3. congruence.
  - intros s1 s2 H1 H2. apply bzip2_inner_body_pos in H2.
    destruct H2 as [s3 [E3 _]]. discriminate.
  - split; [exact Hp|]. unfold bzip2_inner_cond in Hc.
    now apply Z.eqb_neq.
Qed.

Hypothesis size_fits : size + CHUNK < SIZE_MOD.

(** The window an outer iteration feeds and the action it passes. *)
Lemma bzip2_outer_body_eq (fuel : nat) (mode : Z)
    (s : coder_state (bz_internal BZ)) :
  0 <= pos s <= size ->
  bzip2_outer_body BZ buf fuel mode s =
    (s1 <- do_while fuel
             (bzip2_inner_body BZ buf mode
                (if size - pos s <=? CHUNK then BZ_FINISH else BZ_RUN))
             (bzip2_inner_cond BZ) (feed s (Z.min CHUNK (size - pos s))) ;;
     Ok (Next s1)).
Proof.
  intros Hp. unfold bzip2_outer_body. fold size.
  rewrite select_window_spec by (try assumption; unfold CHUNK; lia).
  rewrite to_unsigned_small; [reflexivity|].
  unfold UINT_MOD, CHUNK. lia.
Qed.

Lemma bzip2_outer_step (fuel : nat) (mode : Z)
    (s s' : coder_state (bz_internal BZ)) :
  0 <= pos s <= size ->
  bzip2_outer_body BZ buf fuel mode s = Ok (Next s') ->
  pos s' = Z.min (pos s + CHUNK) size /\ avail_out s' <> 0.
Proof.
  intros Hp. rewrite bzip2_outer_body_eq by exact Hp. unfold bind.
  destruct (do_while _ _ _ _) as [s1| |] eqn:E; try discriminate.
  intros H. apply Ok_Next_inj in H. subst s1.
  apply bzip2_inner_loop in E. destruct E as [E1 E2].
  split; [|exact E2]. rewrite E1. unfold feed; cbn [pos].
  unfold CHUNK, SIZE_MOD in *. rewrite to_size_t_small
    by (unfold SIZE_MOD; lia). lia.
Qed.
End Bzip2Loop.

(** *** lzma *)

Section LzmaLoop.
Variable LZ : liblzma.
Variable BUFSIZ : Z.
Variable buf : list byte.
Let size : Z := lenZ buf.

Lemma lzma_inner_body_pos (action : Z) (s : coder_state (lzma_internal LZ))
    (c : control (coder_state (lzma_internal LZ))) :
  lzma_inner_body LZ BUFSIZ buf action s = Ok c ->
  exists s', c = Next s' /\ pos s' = pos s.
Proof.
  unfold lzma_inner_body. intros E. apply Ok_inj in E. subst c.
  eexists. split; reflexivity.
Qed.

Lemma lzma_inner_loop (fuel : nat) (action : Z) :
  forall s s',
    do_while fuel (lzma_inner_body LZ BUFSIZ buf action)
      (lzma_inner_cond LZ) s = Ok s' ->
    pos s' = pos s /\ (avail_out s' <> 0 \/ ret s' <> LZMA_OK).
Proof.
  intros s s' H.
  destruct (do_while_inv (fun x => pos x = pos s) (fun _ => False)
              (lzma_inner_body LZ BUFSIZ buf action) (lzma_inner_cond LZ))
    with (fuel := fuel) (s := s) (s' := s') as [[Hp Hc]|[]]; auto.
  - intros s1 s2 H1 H2. apply lzma_inner_body_pos in H2.
    destruct H2 as [s3 [E3 H3]]. apply (f_equal (fun c =>
      match c with Next x => pos x | Break x => pos x end)) in E3.
    cbn in E3. congruence.
  - intros s1 s2 H1 H2. apply lzma_inner_body_pos in H2.
    destruct H2 as [s3 [E3 _]]. discriminate.
  - split; [exact Hp|]. unfold lzma_inner_cond in Hc.
    apply andb_false_iff in Hc.
    destruct Hc as [Hc|Hc]; apply Z.eqb_neq in Hc; auto.
Qed.

Hypothesis BUFSIZ_nonneg : 0 <= BUFSIZ.
Hypothesis size_fits : size + BUFSIZ < SIZE_MOD.

(** The window an outer iteration feeds and the action it passes. *)
Lemma lzma_outer_body_eq (fuel : nat) (s : coder_state (lzma_internal LZ)) :
  0 <= pos s <= size ->
  lzma_outer_body LZ BUFSIZ buf fuel s =
    (s1 <- do_while fuel
             (lzma_inner_body LZ BUFSIZ buf
                (if size - pos s <=? BUFSIZ then LZMA_FINISH else LZMA_RUN))
             (lzma_inner_cond LZ) (feed s (Z.min BUFSIZ (size - pos s))) ;;
     if negb (ret s1 =? LZMA_OK) && negb (ret s1 =? LZMA_STREAM_END)
     then LOGE CodecStreamError
     else Ok (Next s1)).
Proof.
  intros Hp. unfold lzma_outer_body. fold size.
  now rewrite select_window_spec by assumption.
Qed.

Lemma lzma_outer_step (fuel : nat) (s s' : coder_state (lzma_internal LZ)) :
  0 <= pos s <= size ->
  lzma_outer_body LZ BUFSIZ buf fuel s = Ok (Next s') ->
  pos s' = Z.min (pos s + BUFSIZ) size
  /\ (avail_out s' <> 0 \/ ret s' <> LZMA_OK).
Proof.
  intros Hp. rewrite lzma_outer_body_eq by exact Hp. unfold bind, LOGE.
  destruct (do_while _ _ _ _) as [s1| |] eqn:E; try discriminate.
  destruct (negb _ && negb _); [discriminate|].
  intros H. apply Ok_Next_inj in H. subst s1.
  apply lzma_inner_loop in E. destruct E as [E1 E2].
  split; [|exact E2]. rewrite E1. unfold feed; cbn [pos].
  rewrite to_size_t_small by lia. lia.
Qed.
End LzmaLoop.

(** *** The cursor of the three streaming transcoders *)

Lemma cursor_windows_from_step {S : Type} (Inv : S -> Prop)
    (pos_of : S -> Z) (chunk size : Z)
    (body : S -> outcome (control S)) (cond : S -> bool) (s0 : S) :
  0 <= chunk -> 0 <= size -> pos_of s0 = 0 -> Inv s0 ->
  (forall s, cond s = true -> pos_of s < size) ->
  (forall s s', Inv s -> 0 <= pos_of s <= size -> body s = Ok (Next s') ->
     pos_of s' = Z.min (pos_of s + chunk) size /\ Inv s') ->
  (forall s, loop_head body cond s0 s -> Inv s /\ 0 <= pos_of s <= size)
  /\ cursor_in_windows pos_of chunk size body cond s0.
Proof.
  intros Hc Hs H0 HI Hcond Hstep.
  assert (Hinv : forall s, loop_head body cond s0 s ->
            Inv s /\ 0 <= pos_of s <= size
            /\ exists k, 0 <= k /\ pos_of s = k * chunk).
  { intros s H. induction H as [|s s' Hh [IHi [IHb [k [Hk IHk]]]] Hb Hcn].
    - split; [exact HI|]. split; [lia|]. exists 0. lia.
    - destruct (Hstep s s' IHi IHb Hb) as [Hp Hi'].
      apply Hcond in Hcn.
      split; [exact Hi'|]. split; [lia|]. exists (k + 1). lia. }
  split; intros s Hh; destruct (Hinv s Hh) as [Hi [Hb Hk]].
  - now split.
  - split; [exact Hk|]. intros s' Hbody. now apply Hstep.
Qed.

Lemma cursor_from_step {S : Type} (pos_of : S -> Z) (chunk size : Z)
    (body : S -> outcome (control S)) (cond : S -> bool) (s0 : S) :
  0 <= chunk -> 0 <= size -> pos_of s0 = 0 ->
  (forall s, cond s = (pos_of s <? size)) ->
  (forall s s', 0 <= pos_of s <= size -> body s = Ok (Next s') ->
     pos_of s' = Z.min (pos_of s + chunk) size) ->
  cursor_in_bounds pos_of size body cond s0
  /\ cursor_in_windows pos_of chunk size body cond s0.
Proof.
  intros Hc Hs H0 Hcond Hstep.
  destruct (cursor_windows_from_step (fun _ => True) pos_of chunk size
              body cond s0) as [Hb Hw]; auto.
  - intros s Hs'. rewrite Hcond in Hs'. now apply Z.ltb_lt.
  - split; [|exact Hw]. intros s Hh. destruct (Hb s Hh) as [_ Hbs].
    split; [exact Hbs|]. intros s' Hbody.
    pose proof (Hstep s s' Hbs Hbody) as Hp.
    split; [lia|]. rewrite Hcond, Z.ltb_ge. lia.
Qed.

(** *** lz4_legacy, encoding *)

Lemma legacy_encode_step (L : lz4_block_lib) (buf : list byte)
    (s s' : legacy_state) :
  lenZ buf + LZ4_LEGACY_BLOCKSIZE < SIZE_MOD ->
  0 <= lg_pos s <= lenZ buf ->
  legacy_encode_body L buf s = Ok (Next s') ->
  lg_pos s' = Z.min (lg_pos s + LZ4_LEGACY_BLOCKSIZE) (lenZ buf).
Proof.
  intros Hfit Hp. unfold legacy_encode_body, LOGE.
  pose proof BLOCKSIZE_value as HB.
  assert (Hsel :
    (if to_size_t (lg_pos s + LZ4_LEGACY_BLOCKSIZE) >=? lenZ buf
     then to_unsigned (to_size_t (lenZ buf - lg_pos s))
     else LZ4_LEGACY_BLOCKSIZE)
    = Z.min LZ4_LEGACY_BLOCKSIZE (lenZ buf - lg_pos s)).
  { destruct (Z_le_gt_dec (lenZ buf - lg_pos s) LZ4_LEGACY_BLOCKSIZE).
    - rewrite legacy_select_last by lia. lia.
    - rewrite legacy_select_full by lia. lia. }
  rewrite Hsel.
  destruct (mem_read buf (lg_pos s) _) as [src|]; [|discriminate].
  destruct (lenZ _ =? 0); [discriminate|].
  intros E. apply Ok_Next_inj in E. subst s'.
  unfold legacy_write, legacy_set_pos, xwrite; cbn [lg_pos].
  rewrite to_size_t_small by (unfold SIZE_MOD in *; lia). lia.
Qed.

(** *** lz4, encoding *)

Section Lz4Loop.
Variable LF : lz4f_lib.
Variable buf : list byte.
Let size : Z := lenZ buf.

Hypothesis size_fits : size + lz4_blockSize < SIZE_MOD.

Lemma lz4_blockSize_value : lz4_blockSize = 4194304.
Proof. reflexivity. Qed.

(** The window an outer iteration sets up. *)
Lemma lz4_outer_body_eq (fuel : nat) (mode outCapacity : Z)
    (s : lz4_state (lz4f_dctx LF) (lz4f_cctx LF)) :
  0 <= l_pos s <= size ->
  lz4_outer_body LF buf fuel mode outCapacity s =
    (s1 <- do_while fuel (lz4_inner_body LF buf mode outCapacity)
             (lz4_inner_cond LF)
             (lz4_set_avail LF s (Z.min lz4_blockSize (size - l_pos s))) ;;
     Ok (Next s1)).
Proof.
  intros Hp. unfold lz4_outer_body. fold size.
  pose proof lz4_blockSize_value as HB.
  rewrite !to_size_t_small by lia.
  destruct (Z.leb_spec (size - l_pos s) lz4_blockSize) as [H|H].
  - replace (l_pos s + lz4_blockSize >=? size) with true
      by (symmetry; apply Z.geb_le; lia).
    now rewrite Z.min_r by lia.
  - replace (l_pos s + lz4_blockSize >=? size) with false
      by (symmetry; rewrite Z.geb_leb; apply Z.leb_gt; lia).
    now rewrite Z.min_l by lia.
Qed.

(** In mode 1 the inner loop takes the whole window in one call. *)
Lemma lz4_encode_outer_step (fuel : nat) (outCapacity : Z)
    (s s' : lz4_state (lz4f_dctx LF) (lz4f_cctx LF)) :
  (exists c, l_ctx s = inr c) ->
  0 <= l_pos s <= size ->
  lz4_outer_body LF buf fuel 1 outCapacity s = Ok (Next s') ->
  l_pos s' = Z.min (l_pos s + lz4_blockSize) size
  /\ (exists c, l_ctx s' = inr c).
Proof.
  intros [c Hc] Hp. rewrite lz4_outer_body_eq by exact Hp. unfold bind.
  pose proof lz4_blockSize_value as HB.
  destruct fuel as [|fuel]; [discriminate|]. cbn [do_while].
  set (n := Z.min lz4_blockSize (size - l_pos s)).
  set (s1 := lz4_set_avail LF s n).
  assert (Hc1 : l_ctx s1 = inr c) by exact Hc.
  assert (Hp1 : l_pos s1 = l_pos s) by reflexivity.
  assert (Ha1 : l_avail_in s1 = n) by reflexivity.
  unfold lz4_inner_body at 1, LOGE. rewrite Hc1. cbn [Z.eqb Pos.eqb].
  match goal with
  | |- context [LZ4F_compressUpdate LF c outCapacity ?i] =>
      destruct (LZ4F_compressUpdate LF c outCapacity i) as [[r out] c']
  end.
  destruct (LZ4F_isError LF r); [discriminate|].
  unfold lz4_inner_cond at 1, lz4_advance, lz4_write, xwrite;
    cbn [l_avail_in l_ret l_pos l_ctx].
  rewrite Z.sub_diag. change (to_size_t 0 =? 0) with true. cbn [negb andb].
  intros E. apply Ok_Next_inj in E. subst s'. cbn [l_pos l_ctx].
  split; [|now exists c'].
  rewrite Hp1, Ha1. subst n.
  rewrite to_size_t_small by lia. lia.
Qed.
End Lz4Loop.

(* ================================================================== *)
(** * The cursor and the windows *)









(** The lz4 loop has a second exit as well: it ends when the library
    returns 0, here at the end mark of a frame that two more bytes follow,
    with the cursor at 8 of 10 input bytes. *)
Lemma lz4_loop_stops_at_frame_end :
  lenZ trailing_frame = 10
  /\ lz4 tag_lz4f trailing_frame 4 0 [] = Ok (1, [x68])
  /\ match do_while 4
             (lz4_outer_body tag_lz4f trailing_frame 4 0 (Z.shiftl 1 22))
             (lz4_outer_cond tag_lz4f trailing_frame)
             (lz4_start tag_lz4f 1 5 (inl false) []) with
     | Ok s => l_pos s = 8 /\ l_ret s = 0
     | _ => False
     end.
Proof.
  split; [reflexivity|]. split; [vm_compute; reflexivity|].
  vm_compute. split; reflexivity.
Qed.

(** C9, the claim as stated fails for the lzma transcoder: its window is
    [BUFSIZ], not 64 KiB.  With bionic's [BUFSIZ] of 1024 the first
    iteration over 2000 input bytes leaves the cursor at 1024 and the loop
    goes on, where a 64 KiB window would have taken all of the input. *)
Lemma C9_counterexample :
  lenZ zeros_2000 = 2000
  /\ match lzma_outer_body tag_lzma 1024 zeros_2000 4
             (coder_init (fst (lzma_init tag_lzma 1))
                (snd (lzma_init tag_lzma 1)) []) with
     | Ok (Next s') =>
         pos s' = 1024 /\ lzma_outer_cond tag_lzma zeros_2000 s' = true
     | _ => False
     end.
Proof. split; [reflexivity|]. vm_compute. split; reflexivity. Qed.

(* ================================================================== *)
(** * Stream errors *)

Lemma bzip2_inner_never_fails (BZ : bzlib) (buf : list byte) (mode action : Z)
    (s : coder_state (bz_internal BZ)) (e : error) :
  bzip2_inner_body BZ buf mode action s <> Fail e.
Proof.
  unfold bzip2_inner_body.
  destruct (mode =? 0); [|destruct (mode =? 1)]; discriminate.
Qed.

Lemma bzip2_outer_never_fails (BZ : bzlib) (buf : list byte) (fuel : nat)
    (mode : Z) (s : coder_state (bz_internal BZ)) (e : error) :
  bzip2_outer_body BZ buf fuel mode s <> Fail e.
Proof.
  unfold bzip2_outer_body, bind.
  destruct (select_window _ _ _) as [n last].
  destruct (do_while _ _ _ _) eqn:E; try discriminate.
  exfalso. revert E. apply do_while_never_fails.
  intros s1 e1. apply bzip2_inner_never_fails.
Qed.

Lemma gzip_inner_fails_only_on_stream_error (ZL : zlib) (buf : list byte)
    (flush : Z) (s : coder_state (z_internal ZL)) (e : error) :
  (forall st input avail fl,
     to_size_t (st_ret (inflate ZL st input avail fl))
       <> to_size_t Z_STREAM_ERROR) ->
  gzip_inner_body ZL buf 0 flush s <> Fail e.
Proof.
  intros Hlib. unfold gzip_inner_body, LOGE. cbn [Z.eqb].
  unfold after_call; cbn [ret].
  match goal with
  | |- context [to_size_t (st_ret ?r) =? _] =>
      replace (to_size_t (st_ret r) =? to_size_t Z_STREAM_ERROR) with false
        by (symmetry; apply Z.eqb_neq, Hlib)
  end.
  discriminate.
Qed.

Lemma tag_inflate_codes (st : tag_state) (input : list byte) (avail fl : Z) :
  to_size_t (st_ret (inflate tag_zlib st input avail fl))
    <> to_size_t Z_STREAM_ERROR.
Proof.
  cbn [inflate tag_zlib]. unfold tag_decode, tag_hand_out; cbn [st_ret].
  destruct (t_bad _); [vm_compute; discriminate|].
  destruct (t_done _ && _); vm_compute; discriminate.
Qed.

(* ================================================================== *)
(** * The dispatchers *)

(* ================================================================== *)
(** * File names *)

Open Scope string_scope.

Lemma strrchr_stem (c : ascii) (s : string) :
  forall e, strrchr s c = Some e -> exists stem, s = stem ++ e.
Proof.
  induction s as [|a r IH]; intros e H; simpl in H; [discriminate|].
  destruct (strrchr r c) as [e'|] eqn:E.
  - injection H as <-. destruct (IH e' eq_refl) as [stem Hs].
    exists (String a stem). simpl. now rewrite Hs.
  - destruct (Ascii.eqb a c); [|discriminate].
    injection H as <-. now exists "".
Qed.

Lemma strrchr_app (c : ascii) (stem s : string) (e : string) :
  strrchr s c = Some e -> strrchr (stem ++ s) c = Some e.
Proof.
  intros H. induction stem as [|a r IH]; simpl; [exact H|].
  now rewrite IH.
Qed.

(** The extension [decomp_file] compares is the expected suffix exactly when
    the path ends with that suffix. *)
Lemma ext_is_suffix (type : file_t) (suffix from ext : string) :
  expected_suffix type = Some suffix ->
  strrchr from "." = Some ext ->
  ext_matches type ext = Some true -> has_suffix suffix from.
Proof.
  intros Hs He Hm. apply strrchr_stem in He. destruct He as [stem ->].
  exists stem. f_equal.
  destruct type; try discriminate; cbn in Hs, Hm;
    injection Hs as <-; injection Hm as Hm;
    unfold strcmp_eq in Hm; now apply String.eqb_eq in Hm.
Qed.

Lemma suffix_is_ext (type : file_t) (suffix from : string) :
  expected_suffix type = Some suffix ->
  has_suffix suffix from ->
  strrchr from "." = Some suffix /\ ext_matches type suffix = Some true.
Proof.
  intros Hs [stem ->].
  destruct type; try discriminate; cbn in Hs; injection Hs as <-;
    (split; [apply strrchr_app; reflexivity | reflexivity]).
Qed.

Lemma substring_0_all (s : string) :
  forall n, (String.length s <= n)%nat -> substring 0 n s = s.
Proof.
  induction s as [|a r IH]; intros n H.
  - now destruct n.
  - destruct n as [|n]; simpl in *; [lia|]. rewrite IH by lia. reflexivity.
Qed.

Lemma substring_0_app (a b : string) :
  forall n, (n <= String.length a)%nat ->
    substring 0 n (a ++ b) = substring 0 n a.
Proof.
  induction a as [|x r IH]; intros n H; simpl in *.
  - replace n with 0%nat by lia. now destruct b.
  - destruct n as [|n]; [reflexivity|]. simpl. rewrite IH by lia.
    reflexivity.
Qed.

Lemma length_append (a b : string) :
  String.length (a ++ b) = (String.length a + String.length b)%nat.
Proof. induction a as [|x r IH]; simpl; [reflexivity|now rewrite IH]. Qed.

Lemma substring_stem (a b : string) :
  substring 0 (String.length (a ++ b) - String.length b) (a ++ b) = a.
Proof.
  rewrite length_append.
  replace (String.length a + String.length b - String.length b)%nat
    with (String.length a) by lia.
  rewrite substring_0_app by lia. now apply substring_0_all.
Qed.

Lemma eqb_shorter (a b : string) :
  (String.length a < String.length b)%nat -> String.eqb a b = false.
Proof.
  intros H. apply String.eqb_neq. intros E. subst a. lia.
Qed.

(** The name without its extension is not the name. *)
Lemma stripped_differs (stem e : string) (file : list byte) :
  e <> "" ->
  truncates_source
    (substring 0 (String.length (stem ++ e) - String.length e) (stem ++ e))
    (stem ++ e) file = false.
Proof.
  intros He. unfold truncates_source. rewrite substring_stem.
  rewrite eqb_shorter; [reflexivity|].
  rewrite length_append. destruct e; [now contradiction He|simpl; lia].
Qed.

(** C8.  [decomp_file] fails with [ExtensionMismatch] whenever the path does
    not end with the suffix expected for the detected type (".gz", ".xz",
    ".lzma", ".bz2", and ".lz4" for both LZ4 variants), and does not fail so
    when it does (its only other exit before decoding is for a destination
    that names the source file, which [open_new] would cut to no bytes
    under the mapping); the method matcher maps "lz4_legacy" to the
    LZ4-legacy tag and "lz4" to the LZ4-frame tag, a different tag, both
    with the suffix "lz4" that [comp_file] appends behind a dot. *)
Theorem C8_extension_and_method (K : codecs) (fuel : nat) (file : list byte)
    (type : file_t) (from : string) (to : option string) (suffix : string) :
  expected_suffix type = Some suffix ->
  (~ has_suffix suffix from ->
   decomp_file K fuel file type from to = Fail ExtensionMismatch)
  /\ (has_suffix suffix from ->
      decomp_file K fuel file type from to =
        if match to with
           | Some t => truncates_source t from file
           | None => false
           end
        then Fail UndefinedBehaviour
        else
        (r <- decomp K fuel type [] file ;;
         Ok {| dest := match to with
                       | Some t => t
                       | None =>
                           substring 0
                             (String.length from - String.length suffix) from
                       end;
               content := snd r;
               unlinked := match to with
                           | Some _ => None
                           | None => Some from
                           end |}))
  /\ expected_suffix LZ4 = expected_suffix LZ4_LEGACY
  /\ match_method "lz4_legacy" = Some (LZ4_LEGACY, "lz4")
  /\ match_method "lz4" = Some (LZ4, "lz4")
  /\ LZ4_LEGACY <> LZ4
  /\ (forall r, comp K fuel LZ4_LEGACY [] file = Ok r ->
      comp_file K fuel file "lz4_legacy" "ramdisk.cpio" None =
        Ok {| dest := "ramdisk.cpio.lz4"; content := snd r;
              unlinked := Some "ramdisk.cpio" |}).
Proof.
  intros Hs. split; [|split; [|split; [|split; [|split; [|split]]]]];
    try reflexivity; try discriminate.
  - intros Hno. unfold decomp_file, LOGE.
    destruct (strrchr from ".") as [ext|] eqn:He; [|reflexivity].
    destruct (ext_matches type ext) as [[|]|] eqn:Hm.
    + exfalso. apply Hno. now apply (ext_is_suffix type suffix from ext).
    + reflexivity.
    + destruct type; discriminate.
  - intros Hyes.
    destruct (suffix_is_ext type suffix from Hs Hyes) as [He Hm].
    unfold decomp_file. rewrite He, Hm.
    destruct to as [t|]; [reflexivity|].
    replace (truncates_source _ from file) with false; [reflexivity|].
    symmetry. destruct Hyes as [stem ->]. apply stripped_differs.
    destruct type; try discriminate; cbn in Hs; injection Hs as <-;
      discriminate.
  - intros r Hr. unfold comp_file.
    change (match_method "lz4_legacy") with (Some (LZ4_LEGACY, "lz4")).
    cbv beta iota. unfold bind at 1.
    change (truncates_source _ "ramdisk.cpio" file) with false.
    cbv beta iota. rewrite Hr. reflexivity.
Qed.

Lemma C8_witness :
  decomp_file tag_codecs 3 [] GZIP "ramdisk.cpio.xz" None
    = Fail ExtensionMismatch
  /\ match_method "lz4_legacy" = Some (LZ4_LEGACY, "lz4")
  /\ match_method "lz4" = Some (LZ4, "lz4").
Proof.
  destruct (C8_extension_and_method tag_codecs 3%nat [] GZIP
              "ramdisk.cpio.xz" None ".gz" eq_refl)
    as [Hno [_ [_ [Hlegacy [Hframe _]]]]].
  split; [|split; assumption].
  apply Hno. intros Hs.
  apply (suffix_is_ext GZIP) in Hs; [|reflexivity].
  destruct Hs as [Hs _]. vm_compute in Hs. discriminate.
Defined.

Close Scope string_scope.

(* ================================================================== *)
(** * Further properties *)

Lemma do_while_keeps {S : Type} (P : S -> Prop)
    (body : S -> outcome (control S)) (cond : S -> bool) :
  (forall s c, P s -> body s = Ok c ->
     P (match c with Next s' => s' | Break s' => s' end)) ->
  forall fuel s s', P s -> do_while fuel body cond s = Ok s' -> P s'.
Proof.
  intros Hbody fuel s s' Hs H.
  destruct (do_while_inv P P body cond) with
    (fuel := fuel) (s := s) (s' := s') as [[H1 _]|H1]; auto.
  - intros s1 s2 H1 H2. exact (Hbody s1 (Next s2) H1 H2).
  - intros s1 s2 H1 H2. exact (Hbody s1 (Break s2) H1 H2).
Qed.

Lemma to_size_t_add (a b : Z) :
  to_size_t (to_size_t a + b) = to_size_t (a + b).
Proof. unfold to_size_t. now rewrite Zplus_mod_idemp_l. Qed.

Lemma tallied_start (out0 : list byte) : tallied out0 0 out0.
Proof. exists []. now rewrite app_nil_r. Qed.

Lemma tallied_xwrite (out0 : list byte) (t : Z) (fd data : list byte)
    (count : Z) :
  tallied out0 t fd ->
  tallied out0 (to_size_t (t + snd (xwrite fd data count)))
    (fst (xwrite fd data count)).
Proof.
  intros [w [-> ->]]. exists (w ++ takeZ count data).
  unfold xwrite; cbn [fst snd].
  now rewrite to_size_t_add, lenZ_app, app_assoc.
Qed.

Lemma tallied_drain {I : Type} (out0 : list byte) (s : coder_state I)
    (cap : Z) (out : list byte) :
  tallied out0 (total s) (fd s) ->
  tallied out0 (total (drain s cap out)) (fd (drain s cap out)).
Proof. intros H. unfold drain. now apply tallied_xwrite. Qed.

Lemma gzip_tallied (ZL : zlib) (buf : list byte) (fuel : nat) (mode : Z)
    (out0 : list byte) (t : Z) (out : list byte) :
  gzip ZL buf fuel mode out0 = Ok (t, out) -> tallied out0 t out.
Proof.
  unfold gzip, bind, LOGE. destruct (gzip_init ZL mode) as [r i].
  destruct (negb _); [discriminate|].
  destruct (do_while _ _ _ _) as [s| |] eqn:E; try discriminate.
  intros H. apply Ok_inj in H.
  assert (Hs : tallied out0 (total s) (fd s)).
  { revert E.
    apply (do_while_keeps (fun x => tallied out0 (total x) (fd x)));
      [|apply tallied_start].
    intros s1 c H1. unfold gzip_outer_body, bind.
    destruct (select_window _ _ _) as [n last].
    destruct (do_while _ _ _ _) as [s2| |] eqn:E2; try discriminate.
    intros Hc. apply Ok_inj in Hc. subst c. revert E2.
    apply (do_while_keeps (fun x => tallied out0 (total x) (fd x)));
      [|exact H1].
    intros s3 c3 H3. unfold gzip_inner_body, LOGE.
    destruct (mode =? 0); [|destruct (mode =? 1)];
      match goal with
      | |- context [if ?b then Fail _ else _] => destruct b; [discriminate|]
      end;
      intros Hc; apply Ok_inj in Hc; subst c3;
      apply tallied_drain; exact H3. }
  replace t with (total s) by congruence.
  replace out with (fd s) by congruence. exact Hs.
Qed.

Lemma bzip2_tallied (BZ : bzlib) (buf : list byte) (fuel : nat) (mode : Z)
    (out0 : list byte) (t : Z) (out : list byte) :
  bzip2 BZ buf fuel mode out0 = Ok (t, out) -> tallied out0 t out.
Proof.
  unfold bzip2, bind, LOGE. destruct (bzip2_init BZ mode) as [r i].
  destruct (negb _); [discriminate|].
  destruct (do_while _ _ _ _) as [s| |] eqn:E; try discriminate.
  intros H. apply Ok_inj in H.
  assert (Hs : tallied out0 (total s) (fd s)).
  { revert E.
    apply (do_while_keeps (fun x => tallied out0 (total x) (fd x)));
      [|apply tallied_start].
    intros s1 c H1. unfold bzip2_outer_body, bind.
    destruct (select_window _ _ _) as [n last].
    destruct (do_while _ _ _ _) as [s2| |] eqn:E2; try discriminate.
    intros Hc. apply Ok_inj in Hc. subst c. revert E2.
    apply (do_while_keeps (fun x => tallied out0 (total x) (fd x)));
      [|exact H1].
    intros s3 c3 H3. unfold bzip2_inner_body.
    destruct (mode =? 0); [|destruct (mode =? 1)];
      intros Hc; apply Ok_inj in Hc; subst c3;
      apply tallied_drain; exact H3. }
  replace t with (total s) by congruence.
  replace out with (fd s) by congruence. exact Hs.
Qed.

Lemma lzma_tallied (LZ : liblzma) (BUFSIZ : Z) (buf : list byte)
    (fuel : nat) (mode : Z) (out0 : list byte) (t : Z) (out : list byte) :
  lzma LZ BUFSIZ buf fuel mode out0 = Ok (t, out) -> tallied out0 t out.
Proof.
  unfold lzma, bind, LOGE. destruct (lzma_init LZ mode) as [r i].
  destruct (negb _); [discriminate|].
  destruct (do_while _ _ _ _) as [s| |] eqn:E; try discriminate.
  intros H. apply Ok_inj in H.
  assert (Hs : tallied out0 (total s) (fd s)).
  { revert E.
    apply (do_while_keeps (fun x => tallied out0 (total x) (fd x)));
      [|apply tallied_start].
    intros s1 c H1. unfold lzma_outer_body, bind, LOGE.
    destruct (select_window _ _ _) as [n last].
    destruct (do_while _ _ _ _) as [s2| |] eqn:E2; try discriminate.
    destruct (negb _ && negb _); [discriminate|].
    intros Hc. apply Ok_inj in Hc. subst c. revert E2.
    apply (do_while_keeps (fun x => tallied out0 (total x) (fd x)));
      [|exact H1].
    intros s3 c3 H3. unfold lzma_inner_body.
    intros Hc; apply Ok_inj in Hc; subst c3.
    apply tallied_drain; exact H3. }
  replace t with (total s) by congruence.
  replace out with (fd s) by congruence. exact Hs.
Qed.

Lemma tallied_lz4_write (LF : lz4f_lib) (out0 : list byte)
    (s : lz4_state (lz4f_dctx LF) (lz4f_cctx LF)) (out : list byte)
    (have : Z) :
  tallied out0 (l_total s) (l_fd s) ->
  tallied out0 (l_total (lz4_write LF s out have))
    (l_fd (lz4_write LF s out have)).
Proof. intros H. unfold lz4_write. now apply tallied_xwrite. Qed.

Lemma lz4_loop_tallied (LF : lz4f_lib) (buf : list byte) (fuel : nat)
    (mode outCapacity : Z) (out0 : list byte)
    (s s' : lz4_state (lz4f_dctx LF) (lz4f_cctx LF)) :
  tallied out0 (l_total s) (l_fd s) ->
  do_while fuel (lz4_outer_body LF buf fuel mode outCapacity)
    (lz4_outer_cond LF buf) s = Ok s' ->
  tallied out0 (l_total s') (l_fd s').
Proof.
  intros Hs.
  apply (do_while_keeps (fun x => tallied out0 (l_total x) (l_fd x)));
    [|exact Hs].
  intros s1 c H1. unfold lz4_outer_body, bind.
  destruct (do_while _ _ _ _) as [s2| |] eqn:E2; try discriminate.
  intros Hc. apply Ok_inj in Hc. subst c. revert E2.
  apply (do_while_keeps (fun x => tallied out0 (l_total x) (l_fd x)));
    [|exact H1].
  intros s3 c3 H3. unfold lz4_inner_body, LOGE.
  destruct (l_ctx s3) as [d|cc].
  - destruct (mode =? 0); [|discriminate].
    destruct (LZ4F_decompress LF d outCapacity _) as [[[r o] rd] d'].
    destruct (LZ4F_isError LF r); [discriminate|].
    intros Hc. apply Ok_inj in Hc. subst c3.
    apply (tallied_lz4_write LF out0 s3 o (lenZ o) H3).
  - destruct (mode =? 1); [|discriminate].
    destruct (LZ4F_compressUpdate LF cc outCapacity _) as [[r o] cc'].
    destruct (LZ4F_isError LF r); [discriminate|].
    intros Hc. apply Ok_inj in Hc. subst c3.
    apply (tallied_lz4_write LF out0 s3 o r H3).
Qed.

Lemma lz4_tallied (LF : lz4f_lib) (buf : list byte) (fuel : nat) (mode : Z)
    (out0 : list byte) (t : Z) (out : list byte) :
  lz4 LF buf fuel mode out0 = Ok (t, out) -> tallied out0 t out.
Proof.
  unfold lz4, bind, LOGE.
  destruct (mode =? 0).
  - destruct (LZ4F_createDecompressionContext LF LZ4F_VERSION) as [r d].
    destruct (LZ4F_isError LF r); [discriminate|].
    destruct (LZ4F_getFrameInfo LF d _ _) as [[[r1 id] rd] d1].
    destruct (lenZ buf <? rd); [discriminate|].
    destruct (LZ4F_isError LF r1); [discriminate|].
    destruct (lz4_outCapacity id) as [cap|]; [|discriminate].
    destruct (do_while _ _ _ _) as [s| |] eqn:E; try discriminate.
    intros H. apply Ok_inj in H.
    apply lz4_loop_tallied with (out0 := out0) in E;
      [|apply tallied_start].
    replace t with (l_total s) by congruence.
    replace out with (l_fd s) by congruence. exact E.
  - destruct (mode =? 1); [|discriminate].
    destruct (LZ4F_createCompressionContext LF LZ4F_VERSION) as [r c].
    destruct (LZ4F_isError LF r); [discriminate|].
    destruct (LZ4F_compressBegin LF c _ _) as [[r1 o1] c1].
    destruct (LZ4F_isError LF r1); [discriminate|].
    destruct (do_while _ _ _ _) as [s| |] eqn:E; try discriminate.
    apply lz4_loop_tallied with (out0 := out0) in E;
      [|apply tallied_lz4_write, tallied_start].
    destruct (l_ctx s) as [d|c2]; [discriminate|].
    destruct (LZ4F_compressEnd LF c2 _) as [[r2 o2] c3].
    destruct (LZ4F_isError LF r2); [discriminate|].
    intros H. apply Ok_inj in H.
    pose proof (tallied_lz4_write LF out0 s o2 r2 E) as Hw.
    replace t with (l_total (lz4_write LF s o2 r2)) by congruence.
    replace out with (l_fd (lz4_write LF s o2 r2)) by congruence.
    exact Hw.
Qed.

(** The gzip, lzma, bzip2 and lz4 transcoders return the number of bytes
    they wrote (as a [size_t]): every [xwrite] of theirs, the frame header
    and the frame end mark of lz4 included, is added to [total]. *)
Theorem streaming_transcoders_return_bytes_written (K : codecs)
    (buf : list byte) (fuel : nat) (mode : Z) (out0 : list byte) (t : Z)
    (out : list byte) :
  gzip (lib_zlib K) buf fuel mode out0 = Ok (t, out)
  \/ lzma (lib_lzma K) (BUFSIZ K) buf fuel mode out0 = Ok (t, out)
  \/ bzip2 (lib_bzip2 K) buf fuel mode out0 = Ok (t, out)
  \/ lz4 (lib_lz4f K) buf fuel mode out0 = Ok (t, out) ->
  exists w, out = out0 ++ w /\ t = lenZ w mod 2 ^ 64.
Proof.
  intros [H|[H|[H|H]]].
  - exact (gzip_tallied _ _ _ _ _ _ _ H).
  - exact (lzma_tallied _ _ _ _ _ _ _ _ H).
  - exact (bzip2_tallied _ _ _ _ _ _ _ H).
  - exact (lz4_tallied _ _ _ _ _ _ _ H).
Qed.

Lemma streaming_transcoders_return_bytes_written_witness :
  exists w,
    [x04; x22; x4d; x18; x07; x01; x68; x01; x65; x01; x6c; x01; x6c;
     x01; x6f; x00] = [] ++ w
    /\ 16 = lenZ w mod 2 ^ 64.
Proof.
  apply (streaming_transcoders_return_bytes_written tag_codecs hello 4%nat 1
           [] 16
           [x04; x22; x4d; x18; x07; x01; x68; x01; x65; x01; x6c; x01; x6c;
            x01; x6f; x00]).
  right. right. right. vm_compute. reflexivity.
Defined.

Lemma lit_body_length (cs : list (list byte)) :
  lenZ (flat_map (legacy_block lit_lz4) cs)
    <= 6 * Z.of_nat (List.length cs) + 2 * lenZ (List.concat cs).
Proof.
  induction cs as [|c cs IH]; cbn [flat_map List.concat List.length].
  - reflexivity.
  - unfold legacy_block at 1. rewrite !lenZ_app, lenZ_le32.
    cbn [LZ4_compress_HC lit_lz4].
    pose proof (lenZ_lit_compress c
                  (LZ4_COMPRESSBOUND LZ4_LEGACY_BLOCKSIZE) 9) as [_ Hhi].
    pose proof (lenZ_nonneg c).
    assert (lenZ c / 255 <= lenZ c)
      by (apply Z.div_le_upper_bound; lia).
    rewrite Nat2Z.inj_succ. lia.
Qed.

Lemma lit_stream_length (b : list byte) :
  lenZ (legacy_stream lit_lz4 b) <= 8 * lenZ b + 14.
Proof.
  unfold legacy_stream, legacy_body. rewrite !lenZ_app, lenZ_le32.
  change (lenZ legacy_magic) with 4.
  pose proof (lit_body_length (legacy_blocks b)) as H.
  rewrite legacy_blocks_concat, legacy_blocks_count in H.
  pose proof (lenZ_nonneg b) as H0.
  assert (ceil_div (lenZ b) LZ4_LEGACY_BLOCKSIZE <= lenZ b + 1).
  { unfold ceil_div. rewrite BLOCKSIZE_value.
    apply Z.lt_succ_r, Z.div_lt_upper_bound; lia. }
  lia.
Qed.

Lemma lenZ_nine_million : lenZ nine_million = 9000000.
Proof. unfold nine_million. rewrite lenZ_repeat. apply Z2Nat.id. lia. Qed.

(** For an input longer than 8421520 bytes and shorter than 4 GiB, whose
    blocks the library codes faithfully, the LZ4-legacy round trip returns
    the input: the trailing size field exceeds the bound on a block length
    and ends the decoding loop.  The encoder emits ceil (len / 8 MiB)
    blocks. *)
Theorem lz4_legacy_round_trip_large (L : lz4_block_lib) (b : list byte) :
  lenZ b + LZ4_LEGACY_BLOCKSIZE < SIZE_MOD ->
  lenZ (legacy_stream L b) < SIZE_MOD ->
  (forall c, In c (legacy_blocks b) -> block_ok L c) ->
  LZ4_COMPRESSBOUND LZ4_LEGACY_BLOCKSIZE < lenZ b < 2 ^ 32 ->
  exists t encoded,
    lz4_legacy L b 1 [] = Ok (t, encoded)
    /\ lz4_legacy L encoded 0 [] = Ok (lenZ b, b)
    /\ Z.of_nat (List.length (legacy_blocks b))
       = ceil_div (lenZ b) LZ4_LEGACY_BLOCKSIZE.
Proof.
  intros Hfit Hsfit Hok Hlen.
  assert (Hne : forall c, In c (legacy_blocks b) ->
            LZ4_compress_HC L c
              (LZ4_COMPRESSBOUND LZ4_LEGACY_BLOCKSIZE) 9 <> []).
  { intros c Hc. destruct (Hok c Hc) as [_ Hz]. cbv zeta in Hz.
    rewrite <- lenZ_nil_iff. lia. }
  pose proof (lenZ_nonneg b) as H0.
  assert (Hu : to_unsigned (lenZ b) = lenZ b)
    by (apply to_unsigned_small; unfold UINT_MOD; lia).
  exists (to_unsigned (4 + lenZ (legacy_body L b))), (legacy_stream L b).
  split; [|split].
  - rewrite (lz4_legacy_encode_eq L b Hfit [] Hne). reflexivity.
  - rewrite (legacy_roundtrip_large L b Hsfit Hok []).
    + now rewrite Hu.
    + rewrite Hu. lia.
  - rewrite legacy_blocks_count. rewrite COMPRESSBOUND_value in Hlen.
    unfold ceil_div. rewrite BLOCKSIZE_value.
    assert (1 <= (lenZ b + 8388608 - 1) / 8388608)
      by (apply Z.div_le_lower_bound; lia).
    lia.
Qed.

Lemma lz4_legacy_round_trip_large_witness :
  exists t encoded,
    lz4_legacy lit_lz4 nine_million 1 [] = Ok (t, encoded)
    /\ lz4_legacy lit_lz4 encoded 0 [] = Ok (lenZ nine_million, nine_million)
    /\ Z.of_nat (List.length (legacy_blocks nine_million))
       = ceil_div (lenZ nine_million) LZ4_LEGACY_BLOCKSIZE.
Proof.
  apply (lz4_legacy_round_trip_large lit_lz4 nine_million).
  - rewrite lenZ_nine_million, BLOCKSIZE_value. unfold SIZE_MOD. lia.
  - pose proof (lit_stream_length nine_million) as H.
    rewrite lenZ_nine_million in H. unfold SIZE_MOD. lia.
  - apply lit_blocks_ok.
  - rewrite lenZ_nine_million, COMPRESSBOUND_value. lia.
Defined.

(** The scenario of the specification: 9,000,000 bytes are encoded as two
    blocks. *)
Lemma nine_million_two_blocks :
  ceil_div (lenZ nine_million) LZ4_LEGACY_BLOCKSIZE = 2.
Proof. rewrite lenZ_nine_million. reflexivity. Qed.

(* ================================================================== *)
(** * lz4_legacy always returns or fails *)

Lemma mem_read_some (buf : list byte) (p n : Z) (r : list byte) :
  mem_read buf p n = Some r -> 0 <= p /\ 0 <= n /\ p + n <= lenZ buf.
Proof.
  unfold mem_read.
  destruct ((0 <=? p) && (0 <=? n) && (p + n <=? lenZ buf)) eqn:E;
    [|discriminate].
  intros _. apply andb_true_iff in E. destruct E as [E E3].
  apply andb_true_iff in E. destruct E as [E1 E2].
  apply Z.leb_le in E1, E2, E3. lia.
Qed.

Lemma legacy_decode_step (L : lz4_block_lib) (buf : list byte)
    (s s' : legacy_state) :
  lenZ buf < SIZE_MOD ->
  legacy_decode_body L buf s = Ok (Next s') ->
  lg_pos s + 4 <= lg_pos s'.
Proof.
  intros Hfit. unfold legacy_decode_body, LOGE.
  destruct (mem_read buf (lg_pos s) 4) as [word|] eqn:M1; [|discriminate].
  apply mem_read_some in M1.
  destruct (read_le32 word >? _); [discriminate|].
  rewrite (to_size_t_small (lg_pos s + 4)) by lia.
  destruct (mem_read buf (lg_pos s + 4) (read_le32 word)) as [src|] eqn:M2;
    [|discriminate].
  apply mem_read_some in M2.
  destruct (LZ4_decompress_safe L src LZ4_LEGACY_BLOCKSIZE) as [out|];
    [|discriminate].
  intros E. apply Ok_Next_inj in E. subst s'.
  unfold legacy_write, legacy_set_pos, xwrite; cbn [lg_pos].
  rewrite to_size_t_small by lia. lia.
Qed.

Lemma legacy_decode_loop_ends (L : lz4_block_lib) (buf : list byte) :
  lenZ buf < SIZE_MOD ->
  forall (fuel : nat) (s : legacy_state),
    lenZ buf - lg_pos s < Z.of_nat fuel -> (1 <= fuel)%nat ->
    do_while fuel (legacy_decode_body L buf) (legacy_cond buf) s
      <> OutOfFuel.
Proof.
  intros Hfit fuel. induction fuel as [|fuel IH]; intros s Hm H1; [lia|].
  cbn [do_while].
  destruct (legacy_decode_body L buf s) as [[s'|s']|e|] eqn:B;
    try discriminate.
  - destruct (legacy_cond buf s') eqn:C; [|discriminate].
    apply legacy_decode_step in B; [|exact Hfit].
    unfold legacy_cond in C. apply Z.ltb_lt in C.
    apply IH; lia.
  - exfalso. revert B. unfold legacy_decode_body, LOGE.
    destruct (mem_read buf (lg_pos s) 4); [|discriminate].
    destruct (read_le32 _ >? _); [discriminate|].
    destruct (mem_read buf _ _); [|discriminate].
    destruct (LZ4_decompress_safe L _ _); discriminate.
Qed.

Lemma legacy_encode_loop_ends (L : lz4_block_lib) (buf : list byte) :
  lenZ buf + LZ4_LEGACY_BLOCKSIZE < SIZE_MOD ->
  forall (fuel : nat) (s : legacy_state),
    0 <= lg_pos s <= lenZ buf ->
    lenZ buf - lg_pos s < Z.of_nat fuel ->
    do_while fuel (legacy_encode_body L buf) (legacy_cond buf) s
      <> OutOfFuel.
Proof.
  intros Hfit fuel. induction fuel as [|fuel IH]; intros s Hp Hm; [lia|].
  cbn [do_while].
  destruct (legacy_encode_body L buf s) as [[s'|s']|e|] eqn:B;
    try discriminate.
  - destruct (legacy_cond buf s') eqn:C; [|discriminate].
    apply legacy_encode_step in B; [|exact Hfit|exact Hp].
    unfold legacy_cond in C. apply Z.ltb_lt in C.
    pose proof BLOCKSIZE_value.
    apply IH; lia.
  - exfalso. revert B. unfold legacy_encode_body, LOGE.
    destruct (mem_read buf _ _); [|discriminate].
    destruct (lenZ _ =? 0); discriminate.
Qed.

(** On any input, in any mode and with any library, [lz4_legacy] returns or
    fails: the fuel it runs its loop with is never used up. *)
Theorem lz4_legacy_returns_or_fails (L : lz4_block_lib) (buf : list byte)
    (mode : Z) (fd0 : list byte) :
  lenZ buf + LZ4_LEGACY_BLOCKSIZE < SIZE_MOD ->
  lz4_legacy L buf mode fd0 <> OutOfFuel.
Proof.
  intros Hfit. pose proof BLOCKSIZE_value as HB.
  pose proof (lenZ_nonneg buf) as H0.
  unfold lz4_legacy, lz4_legacy_fuel, bind.
  destruct (mode =? 0); [|destruct (mode =? 1); [|discriminate]].
  - destruct (do_while _ _ _ _) eqn:E; try discriminate.
    exfalso. revert E. apply legacy_decode_loop_ends; [lia | | lia].
    unfold legacy_set_pos; cbn [lg_pos]. unfold lenZ. lia.
  - destruct (do_while _ _ _ _) eqn:E.
    + unfold xwrite. discriminate.
    + discriminate.
    + exfalso. revert E. apply legacy_encode_loop_ends; [exact Hfit | |];
        unfold legacy_write, xwrite; cbn [lg_pos]; unfold lenZ in *; lia.
Qed.

Lemma lz4_legacy_returns_or_fails_witness :
  lz4_legacy lit_lz4 oversized_stream 0 [] <> OutOfFuel.
Proof.
  apply (lz4_legacy_returns_or_fails lit_lz4 oversized_stream 0 []).
  vm_compute. reflexivity.
Defined.

(* ================================================================== *)
(** * The transcoders at work

    Round trips through the dispatchers with the reference libraries. *)

Example gzip_round_trip_hello :
  comp tag_codecs 4 GZIP [] hello = Ok (11, tagged_hello)
  /\ decomp tag_codecs 4 GZIP [] tagged_hello = Ok (5, hello).
Proof. split; vm_compute; reflexivity. Qed.

Example xz_round_trip_hello :
  comp tag_codecs 4 XZ [] hello = Ok (12, xfd :: tagged_hello)
  /\ decomp tag_codecs 4 XZ [] (xfd :: tagged_hello) = Ok (5, hello).
Proof. split; vm_compute; reflexivity. Qed.

Example lzma_round_trip_hello :
  comp tag_codecs 4 LZMA [] hello = Ok (12, x5d :: tagged_hello)
  /\ decomp tag_codecs 4 LZMA [] (x5d :: tagged_hello) = Ok (5, hello).
Proof. split; vm_compute; reflexivity. Qed.

Example bzip2_round_trip_hello :
  comp tag_codecs 4 BZIP2 [] hello = Ok (11, tagged_hello)
  /\ decomp tag_codecs 4 BZIP2 [] tagged_hello = Ok (5, hello).
Proof. split; vm_compute; reflexivity. Qed.

Example lz4_round_trip_hello :
  comp tag_codecs 4 LZ4 [] hello
    = Ok (16, [x04; x22; x4d; x18; x07] ++ tagged_hello)
  /\ decomp tag_codecs 4 LZ4 [] ([x04; x22; x4d; x18; x07] ++ tagged_hello)
     = Ok (5, hello).
Proof. split; vm_compute; reflexivity. Qed.

(** The empty buffer: gzip returns it; the LZ4-legacy decoder takes the
    trailing field, 0, for the length of a block, and the reference library
    rejects a block of no bytes. *)
Example round_trips_of_the_empty_buffer :
  comp tag_codecs 4 GZIP [] [] = Ok (1, [x00])
  /\ decomp tag_codecs 4 GZIP [] [x00] = Ok (0, [])
  /\ comp tag_codecs 4 LZ4_LEGACY [] []
     = Ok (9, legacy_magic ++ [x01; x00; x00; x00; x00] ++ le32 0)
  /\ decomp tag_codecs 4 LZ4_LEGACY []
       (legacy_magic ++ [x01; x00; x00; x00; x00] ++ le32 0)
     = Fail CodecStreamError.
Proof. split; [|split; [|split]]; vm_compute; reflexivity. Qed.

(* ================================================================== *)
(** * lz4_legacy on streams of any origin *)

Section LegacyRaw.
Variable L : lz4_block_lib.
Variable buf : list byte.

Hypothesis size_fits : lenZ buf < SIZE_MOD.

(** One iteration of the decoding loop over a block. *)
Lemma legacy_decode_body_raw (s : legacy_state) (pre rest z c : list byte) :
  buf = pre ++ raw_block z ++ rest ->
  lg_pos s = lenZ pre ->
  LZ4_decompress_safe L z LZ4_LEGACY_BLOCKSIZE = Some c ->
  lenZ z <= LZ4_COMPRESSBOUND LZ4_LEGACY_BLOCKSIZE ->
  legacy_decode_body L buf s =
    Ok (Next {| lg_pos := lenZ (pre ++ raw_block z);
                lg_total := to_unsigned (lg_total s + lenZ c);
                lg_fd := lg_fd s ++ c |}).
Proof.
  intros Hbuf Hpos Hrt Hlen. unfold raw_block in *.
  rewrite COMPRESSBOUND_value in Hlen.
  assert (Hsz : lenZ buf = lenZ pre + 4 + lenZ z + lenZ rest).
  { rewrite Hbuf, !lenZ_app, lenZ_le32. lia. }
  pose proof (lenZ_nonneg pre). pose proof (lenZ_nonneg rest).
  pose proof (lenZ_nonneg z).
  unfold legacy_decode_body. rewrite Hpos.
  replace (mem_read buf (lenZ pre) 4) with (Some (le32 (lenZ z)))
    by (rewrite Hbuf, <- app_assoc; symmetry; now apply mem_read_mid).
  rewrite read_le32_le32, to_unsigned_small by (unfold UINT_MOD; lia).
  rewrite to_size_t_small by lia. rewrite COMPRESSBOUND_value.
  replace (lenZ z >? 8421520) with false
    by (symmetry; rewrite Z.gtb_ltb; apply Z.ltb_ge; lia).
  replace (mem_read buf (lenZ pre + 4) (lenZ z)) with (Some z)
    by (rewrite Hbuf, <- app_assoc, app_assoc; symmetry;
        apply mem_read_mid; [rewrite lenZ_app, lenZ_le32; lia|reflexivity]).
  rewrite Hrt.
  unfold legacy_write, legacy_set_pos, xwrite; cbn [lg_pos lg_total lg_fd].
  rewrite takeZ_all by lia.
  rewrite to_size_t_small by lia.
  do 3 f_equal. rewrite !lenZ_app, lenZ_le32. lia.
Qed.

(** The decoding loop over blocks that more input follows: it decodes each
    of them and goes on behind them. *)
Lemma legacy_decode_blocks (zc : list (list byte * list byte)) :
  forall (k : nat) (pre rest : list byte) (s : legacy_state),
    buf = pre ++ flat_map raw_block (map fst zc) ++ rest ->
    rest <> [] ->
    lg_pos s = lenZ pre ->
    decodes_to L zc ->
    do_while (List.length zc + k) (legacy_decode_body L buf)
      (legacy_cond buf) s =
    do_while k (legacy_decode_body L buf) (legacy_cond buf)
      {| lg_pos := lenZ (pre ++ flat_map raw_block (map fst zc));
         lg_total := fold_left (fun t c => to_unsigned (t + lenZ c))
                       (map snd zc) (lg_total s);
         lg_fd := lg_fd s ++ List.concat (map snd zc) |}.
Proof.
  induction zc as [|[z c] zc IH]; intros k pre rest s Hbuf Hne Hpos Hok.
  - cbn [List.length map flat_map List.concat fold_left Nat.add].
    rewrite !app_nil_r, <- Hpos. now destruct s.
  - cbn [List.length map flat_map List.concat fold_left Nat.add fst snd]
      in *.
    rewrite <- app_assoc in Hbuf. cbn [do_while].
    destruct (Hok z c (or_introl eq_refl)) as [Hrt Hlen].
    rewrite (legacy_decode_body_raw s pre _ z c Hbuf Hpos Hrt Hlen).
    replace (legacy_cond buf _) with true.
    2: { symmetry. unfold legacy_cond; cbn [lg_pos]. apply Z.ltb_lt.
         rewrite Hbuf, !lenZ_app.
         pose proof (lenZ_nonneg (flat_map raw_block (map fst zc))).
         assert (lenZ rest <> 0) by (now rewrite lenZ_nil_iff).
         pose proof (lenZ_nonneg rest). lia. }
    rewrite (IH k (pre ++ raw_block z) rest); cbn [lg_pos lg_total lg_fd].
    + f_equal. apply legacy_state_eq.
      * now rewrite <- app_assoc.
      * reflexivity.
      * now rewrite <- app_assoc.
    + now rewrite <- app_assoc.
    + exact Hne.
    + reflexivity.
    + intros z' c' H'. apply Hok. now right.
Qed.
End LegacyRaw.

Lemma fold_total (cs : list (list byte)) :
  forall t, fold_left (fun t c => to_unsigned (t + lenZ c)) cs (to_unsigned t)
            = to_unsigned (t + lenZ (List.concat cs)).
Proof.
  induction cs as [|c cs IH]; intros t; cbn [fold_left List.concat].
  - change (lenZ (@nil byte)) with 0.
    rewrite Z.add_0_r. reflexivity.
  - rewrite to_unsigned_add, IH, lenZ_app. f_equal. lia.
Qed.

Lemma le32_app_nonempty (t : Z) (junk : list byte) : le32 t ++ junk <> [].
Proof.
  intros H. apply (f_equal lenZ) in H. rewrite lenZ_app, lenZ_le32 in H.
  change (lenZ (@nil byte)) with 0 in H.
  pose proof (lenZ_nonneg junk). lia.
Qed.

Lemma raw_block_nonempty (z : list byte) : raw_block z <> [].
Proof. apply le32_app_nonempty. Qed.

Lemma raw_blocks_length (zs : list (list byte)) :
  (List.length zs <= List.length (flat_map raw_block zs))%nat.
Proof.
  induction zs as [|z zs IH]; simpl; [lia|].
  rewrite !length_app. simpl. lia.
Qed.

(** Decoding a stream of the magic and blocks that ends with its last block. *)
Lemma legacy_plain_stream (L : lz4_block_lib)
    (zc : list (list byte * list byte)) (fd0 : list byte) :
  let buf := legacy_magic ++ flat_map raw_block (map fst zc) in
  lenZ buf < SIZE_MOD ->
  zc <> [] ->
  decodes_to L zc ->
  lz4_legacy L buf 0 fd0 =
    Ok (to_unsigned (lenZ (List.concat (map snd zc))),
        fd0 ++ List.concat (map snd zc)).
Proof.
  intros buf Hfit Hne Hok.
  destruct (exists_last Hne) as [zc' [[z c] Hlast]]. subst zc.
  assert (Hbuf : buf = legacy_magic ++ flat_map raw_block (map fst zc')
                         ++ raw_block z).
  { unfold buf. rewrite map_app, flat_map_app. cbn [map flat_map fst].
    now rewrite app_nil_r. }
  unfold lz4_legacy, lz4_legacy_fuel. cbn [Z.eqb].
  replace (S (List.length buf))
    with (List.length zc' + S (List.length buf - List.length zc'))%nat.
  2: { pose proof (raw_blocks_length (map fst zc')) as H.
       rewrite length_map in H. rewrite Hbuf, !length_app. lia. }
  rewrite (legacy_decode_blocks L buf Hfit zc' _ legacy_magic (raw_block z));
    try assumption; try reflexivity.
  - cbn [do_while]. unfold legacy_set_pos; cbn [lg_pos lg_total lg_fd].
    destruct (Hok z c) as [Hrt Hlen]; [apply in_or_app; right; now left|].
    rewrite (legacy_decode_body_raw L buf Hfit _
               (legacy_magic ++ flat_map raw_block (map fst zc')) [] z c);
      try assumption.
    + unfold legacy_cond; cbn [lg_pos].
      replace (lenZ _ <? lenZ buf) with false.
      * unfold bind; cbn [lg_total lg_fd].
        change 0 with (to_unsigned 0) at 1.
        rewrite fold_total, to_unsigned_add, map_app, concat_app.
        cbn [map List.concat snd]. rewrite app_nil_r, lenZ_app.
        now rewrite Z.add_0_l, app_assoc.
      * symmetry. apply Z.ltb_ge. rewrite Hbuf, <- app_assoc. lia.
    + now rewrite Hbuf, app_nil_r, <- app_assoc.
    + reflexivity.
  - apply raw_block_nonempty.
  - intros z' c' H'. apply Hok. apply in_or_app. now left.
Qed.

(** A stream that is the magic and one or more blocks, with no trailing
    field, decodes to the concatenation of its blocks: the loop ends
    exactly at the end of the input. *)
Theorem lz4_legacy_decodes_plain_stream (L : lz4_block_lib)
    (zc : list (list byte * list byte)) (fd0 : list byte) :
  let buf := legacy_magic ++ flat_map raw_block (map fst zc) in
  lenZ buf < SIZE_MOD ->
  zc <> [] ->
  decodes_to L zc ->
  lz4_legacy L buf 0 fd0 =
    Ok (to_unsigned (lenZ (List.concat (map snd zc))),
        fd0 ++ List.concat (map snd zc)).
Proof. exact (legacy_plain_stream L zc fd0). Qed.

Lemma hello_world_decodes :
  decodes_to lit_lz4 [(hello_block, hello); (world_block, [x77; x6f; x72])].
Proof.
  intros z c [H|[H|[]]]; injection H as <- <-; split;
    try (vm_compute; reflexivity); vm_compute; discriminate.
Qed.

Lemma lz4_legacy_decodes_plain_stream_witness :
  lz4_legacy lit_lz4
    (legacy_magic
     ++ flat_map raw_block
          (map fst [(hello_block, hello); (world_block, [x77; x6f; x72])]))
    0 [] =
    Ok (to_unsigned
          (lenZ (List.concat
                   (map snd [(hello_block, hello);
                             (world_block, [x77; x6f; x72])]))),
        [] ++ List.concat
                (map snd [(hello_block, hello);
                          (world_block, [x77; x6f; x72])])).
Proof.
  apply (lz4_legacy_decodes_plain_stream lit_lz4
           [(hello_block, hello); (world_block, [x77; x6f; x72])] []).
  - vm_compute. reflexivity.
  - discriminate.
  - apply hello_world_decodes.
Defined.

(** A block length above the bound ends the decoding without an error:
    the blocks before it are returned, and whatever follows the length is
    never looked at. *)
Theorem lz4_legacy_stops_at_oversized_length (L : lz4_block_lib)
    (zc : list (list byte * list byte)) (t : Z) (junk fd0 : list byte) :
  let buf :=
    legacy_magic ++ flat_map raw_block (map fst zc) ++ le32 t ++ junk in
  lenZ buf < SIZE_MOD ->
  decodes_to L zc ->
  LZ4_COMPRESSBOUND LZ4_LEGACY_BLOCKSIZE < t < UINT_MOD ->
  lz4_legacy L buf 0 fd0 =
    Ok (to_unsigned (lenZ (List.concat (map snd zc))),
        fd0 ++ List.concat (map snd zc)).
Proof.
  intros buf Hfit Hok Ht.
  unfold lz4_legacy, lz4_legacy_fuel. cbn [Z.eqb].
  replace (S (List.length buf))
    with (List.length zc + S (List.length buf - List.length zc))%nat.
  2: { pose proof (raw_blocks_length (map fst zc)) as H.
       rewrite length_map in H. unfold buf. rewrite !length_app. lia. }
  rewrite (legacy_decode_blocks L buf Hfit zc _ legacy_magic
             (le32 t ++ junk)); try assumption; try reflexivity.
  2: { apply le32_app_nonempty. }
  cbn [do_while]. unfold legacy_set_pos; cbn [lg_pos lg_total lg_fd].
  unfold legacy_decode_body; cbn [lg_pos].
  replace (mem_read buf (lenZ (legacy_magic
                                ++ flat_map raw_block (map fst zc))) 4)
    with (Some (le32 t)).
  2: { symmetry. unfold buf. rewrite app_assoc.
       now apply mem_read_mid. }
  rewrite COMPRESSBOUND_value in *. unfold UINT_MOD in Ht.
  rewrite read_le32_le32, to_unsigned_small by (unfold UINT_MOD; lia).
  replace (t >? 8421520) with true
    by (symmetry; rewrite Z.gtb_ltb; apply Z.ltb_lt; lia).
  unfold bind; cbn [lg_total lg_fd].
  change 0 with (to_unsigned 0) at 1.
  now rewrite fold_total, Z.add_0_l.
Qed.

Lemma lz4_legacy_stops_at_oversized_length_witness :
  lz4_legacy lit_lz4
    (legacy_magic ++ flat_map raw_block (map fst [(hello_block, hello)])
     ++ le32 4294967295 ++ hello_block)
    0 [] =
    Ok (to_unsigned (lenZ (List.concat (map snd [(hello_block, hello)]))),
        [] ++ List.concat (map snd [(hello_block, hello)])).
Proof.
  apply (lz4_legacy_stops_at_oversized_length lit_lz4
           [(hello_block, hello)] 4294967295 hello_block []).
  - vm_compute. reflexivity.
  - intros z c [H|[]]. injection H as <- <-.
    split; [vm_compute; reflexivity | vm_compute; discriminate].
  - vm_compute. split; reflexivity.
Defined.

(** An input of fewer than eight bytes, the empty one included, makes the
    decoder read its first block length from behind the end of the input:
    the magic is skipped and the length read without a look at [size]. *)
Theorem lz4_legacy_short_input_overread (L : lz4_block_lib)
    (buf fd0 : list byte) :
  lenZ buf < 8 ->
  lz4_legacy L buf 0 fd0 = Fail UndefinedBehaviour.
Proof.
  intros Hs. unfold lz4_legacy, lz4_legacy_fuel. cbn [Z.eqb do_while].
  unfold legacy_decode_body, legacy_set_pos; cbn [lg_pos].
  rewrite mem_read_outside by lia. reflexivity.
Qed.

Lemma lz4_legacy_short_input_overread_witness :
  lz4_legacy lit_lz4 [] 0 [] = Fail UndefinedBehaviour.
Proof.
  apply (lz4_legacy_short_input_overread lit_lz4 [] []).
  vm_compute. reflexivity.
Defined.

(** Decoding a stream that ends inside a block. *)
Lemma legacy_truncated_block (L : lz4_block_lib)
    (zc : list (list byte * list byte)) (n : Z) (z fd0 : list byte) :
  let buf := legacy_magic ++ flat_map raw_block (map fst zc) ++ le32 n ++ z in
  lenZ buf < SIZE_MOD ->
  decodes_to L zc ->
  lenZ z < n <= LZ4_COMPRESSBOUND LZ4_LEGACY_BLOCKSIZE ->
  lz4_legacy L buf 0 fd0 = Fail UndefinedBehaviour.
Proof.
  intros buf Hfit Hok Hn.
  unfold lz4_legacy, lz4_legacy_fuel. cbn [Z.eqb].
  replace (S (List.length buf))
    with (List.length zc + S (List.length buf - List.length zc))%nat.
  2: { pose proof (raw_blocks_length (map fst zc)) as H.
       rewrite length_map in H. unfold buf. rewrite !length_app. lia. }
  rewrite (legacy_decode_blocks L buf Hfit zc _ legacy_magic (le32 n ++ z));
    try assumption; try reflexivity.
  2: { apply le32_app_nonempty. }
  cbn [do_while]. unfold legacy_set_pos; cbn [lg_pos lg_total lg_fd].
  unfold legacy_decode_body; cbn [lg_pos].
  set (pre := legacy_magic ++ flat_map raw_block (map fst zc)).
  replace (mem_read buf (lenZ pre) 4) with (Some (le32 n)).
  2: { symmetry. unfold buf. rewrite app_assoc. fold pre.
       now apply mem_read_mid. }
  pose proof (lenZ_nonneg z). pose proof (lenZ_nonneg pre).
  assert (Hsz : lenZ buf = lenZ pre + 4 + lenZ z).
  { unfold buf. rewrite app_assoc. fold pre.
    rewrite !lenZ_app, lenZ_le32. lia. }
  rewrite COMPRESSBOUND_value in *.
  rewrite read_le32_le32, to_unsigned_small by (unfold UINT_MOD; lia).
  replace (n >? 8421520) with false
    by (symmetry; rewrite Z.gtb_ltb; apply Z.ltb_ge; lia).
  rewrite to_size_t_small by lia.
  rewrite mem_read_outside by lia. reflexivity.
Qed.

(** A stream cut off inside a block, so that the length field announces
    more bytes than the input still has, makes the decoder hand the
    library a source range that runs past the end of the input: the block
    length is compared with the compress bound only, not with [size]. *)
Theorem lz4_legacy_truncated_block_overread (L : lz4_block_lib)
    (zc : list (list byte * list byte)) (n : Z) (z fd0 : list byte) :
  let buf := legacy_magic ++ flat_map raw_block (map fst zc) ++ le32 n ++ z in
  lenZ buf < SIZE_MOD ->
  decodes_to L zc ->
  lenZ z < n <= LZ4_COMPRESSBOUND LZ4_LEGACY_BLOCKSIZE ->
  lz4_legacy L buf 0 fd0 = Fail UndefinedBehaviour.
Proof. exact (legacy_truncated_block L zc n z fd0). Qed.

Lemma lz4_legacy_truncated_block_overread_witness :
  lz4_legacy lit_lz4
    (legacy_magic ++ flat_map raw_block (map fst [(hello_block, hello)])
     ++ le32 6 ++ [x50; x68; x65])
    0 [] = Fail UndefinedBehaviour.
Proof.
  apply (lz4_legacy_truncated_block_overread lit_lz4
           [(hello_block, hello)] 6 [x50; x68; x65] []).
  - vm_compute. reflexivity.
  - intros z c [H|[]]. injection H as <- <-.
    split; [vm_compute; reflexivity | vm_compute; discriminate].
  - vm_compute. split; [reflexivity | discriminate].
Defined.

(** Decoding a stream with a block the library refuses. *)
Lemma legacy_corrupt_block (L : lz4_block_lib)
    (zc : list (list byte * list byte)) (z rest fd0 : list byte) :
  let buf :=
    legacy_magic ++ flat_map raw_block (map fst zc) ++ raw_block z ++ rest in
  lenZ buf < SIZE_MOD ->
  decodes_to L zc ->
  lenZ z <= LZ4_COMPRESSBOUND LZ4_LEGACY_BLOCKSIZE ->
  LZ4_decompress_safe L z LZ4_LEGACY_BLOCKSIZE = None ->
  lz4_legacy L buf 0 fd0 = Fail CodecStreamError.
Proof.
  intros buf Hfit Hok Hn Hbad.
  unfold lz4_legacy, lz4_legacy_fuel. cbn [Z.eqb].
  replace (S (List.length buf))
    with (List.length zc + S (List.length buf - List.length zc))%nat.
  2: { pose proof (raw_blocks_length (map fst zc)) as H.
       rewrite length_map in H. unfold buf. rewrite !length_app. lia. }
  rewrite (legacy_decode_blocks L buf Hfit zc _ legacy_magic
             (raw_block z ++ rest)); try assumption; try reflexivity.
  2: { unfold raw_block. rewrite <- app_assoc. apply le32_app_nonempty. }
  cbn [do_while]. unfold legacy_set_pos; cbn [lg_pos lg_total lg_fd].
  unfold legacy_decode_body; cbn [lg_pos].
  set (pre := legacy_magic ++ flat_map raw_block (map fst zc)).
  assert (Hbuf : buf = pre ++ le32 (lenZ z) ++ z ++ rest).
  { unfold buf, raw_block, pre. now rewrite <- !app_assoc. }
  replace (mem_read buf (lenZ pre) 4) with (Some (le32 (lenZ z)))
    by (rewrite Hbuf; symmetry; now apply mem_read_mid).
  pose proof (lenZ_nonneg z). pose proof (lenZ_nonneg pre).
  pose proof (lenZ_nonneg rest).
  assert (Hsz : lenZ buf = lenZ pre + 4 + lenZ z + lenZ rest).
  { rewrite Hbuf, !lenZ_app, lenZ_le32. lia. }
  rewrite COMPRESSBOUND_value in *.
  rewrite read_le32_le32, to_unsigned_small by (unfold UINT_MOD; lia).
  replace (lenZ z >? 8421520) with false
    by (symmetry; rewrite Z.gtb_ltb; apply Z.ltb_ge; lia).
  rewrite to_size_t_small by lia.
  replace (mem_read buf (lenZ pre + 4) (lenZ z)) with (Some z).
  2: { rewrite Hbuf, app_assoc. symmetry.
       apply mem_read_mid; [rewrite lenZ_app, lenZ_le32; lia|reflexivity]. }
  rewrite Hbad. reflexivity.
Qed.

(** A block of a legal length that lies within the input and that the
    library cannot decode ends the decoding with the logged error, whatever
    follows the block. *)
Theorem lz4_legacy_corrupt_block_fails (L : lz4_block_lib)
    (zc : list (list byte * list byte)) (z rest fd0 : list byte) :
  let buf :=
    legacy_magic ++ flat_map raw_block (map fst zc) ++ raw_block z ++ rest in
  lenZ buf < SIZE_MOD ->
  decodes_to L zc ->
  lenZ z <= LZ4_COMPRESSBOUND LZ4_LEGACY_BLOCKSIZE ->
  LZ4_decompress_safe L z LZ4_LEGACY_BLOCKSIZE = None ->
  lz4_legacy L buf 0 fd0 = Fail CodecStreamError.
Proof. exact (legacy_corrupt_block L zc z rest fd0). Qed.

Lemma lz4_legacy_corrupt_block_fails_witness :
  lz4_legacy lit_lz4
    (legacy_magic ++ flat_map raw_block (map fst [(hello_block, hello)])
     ++ raw_block [x51; x68] ++ [x00])
    0 [] = Fail CodecStreamError.
Proof.
  apply (lz4_legacy_corrupt_block_fails lit_lz4
           [(hello_block, hello)] [x51; x68] [x00] []).
  - vm_compute. reflexivity.
  - intros z c [H|[]]. injection H as <- <-.
    split; [vm_compute; reflexivity | vm_compute; discriminate].
  - vm_compute. discriminate.
  - vm_compute. reflexivity.
Defined.

(* ================================================================== *)
(** * When the lz4_legacy encoder fails *)

Section LegacyEncodeFail.
Variable L : lz4_block_lib.
Variable buf : list byte.
Let size : Z := lenZ buf.

Hypothesis size_fits : size + LZ4_LEGACY_BLOCKSIZE < SIZE_MOD.

Lemma compresses_true (c : list byte) :
  compresses L c = true <->
  LZ4_compress_HC L c (LZ4_COMPRESSBOUND LZ4_LEGACY_BLOCKSIZE) 9 <> [].
Proof.
  unfold compresses. rewrite negb_true_iff, Z.eqb_neq, lenZ_nil_iff.
  reflexivity.
Qed.

Lemma compresses_false (c : list byte) :
  compresses L c = false <->
  LZ4_compress_HC L c (LZ4_COMPRESSBOUND LZ4_LEGACY_BLOCKSIZE) 9 = [].
Proof.
  unfold compresses. rewrite negb_false_iff, Z.eqb_eq, lenZ_nil_iff.
  reflexivity.
Qed.

(** One iteration on a block that the compressor gives nothing for. *)
Lemma legacy_encode_body_bad (s : legacy_state) (insize : Z) :
  0 <= lg_pos s -> 0 <= insize ->
  lg_pos s + insize <= size ->
  (if to_size_t (lg_pos s + LZ4_LEGACY_BLOCKSIZE) >=? size
   then to_unsigned (to_size_t (size - lg_pos s))
   else LZ4_LEGACY_BLOCKSIZE) = insize ->
  compresses L (window buf (lg_pos s) insize) = false ->
  legacy_encode_body L buf s = Fail CodecStreamError.
Proof.
  intros Hp Hin Hle Hsel Hbad.
  unfold legacy_encode_body. fold size. rewrite Hsel.
  unfold mem_read. fold size.
  replace ((0 <=? lg_pos s) && (0 <=? insize)
           && (lg_pos s + insize <=? size)) with true
    by (symmetry; rewrite !andb_true_iff, !Z.leb_le; lia).
  apply compresses_false in Hbad. rewrite Hbad. reflexivity.
Qed.

(** The encoding loop, from any block boundary on, when some block of the
    rest of the input compresses to nothing. *)
Lemma legacy_encode_loop_bad (fuel : nat) :
  forall s,
    0 <= lg_pos s <= size ->
    size - lg_pos s <= Z.of_nat fuel * LZ4_LEGACY_BLOCKSIZE ->
    (1 <= fuel)%nat ->
    forallb (compresses L) (blocks_of fuel (dropZ (lg_pos s) buf)) = false ->
    do_while fuel (legacy_encode_body L buf) (legacy_cond buf) s =
      Fail CodecStreamError.
Proof.
  induction fuel as [|fuel IH]; intros s Hp Hfuel H1 Hbad; [lia|].
  assert (Hrest : lenZ (dropZ (lg_pos s) buf) = size - lg_pos s)
    by (rewrite lenZ_dropZ; fold size; lia).
  pose proof BLOCKSIZE_value as HB.
  destruct (Z_le_gt_dec (size - lg_pos s) LZ4_LEGACY_BLOCKSIZE) as [Hl|Hl].
  - rewrite blocks_of_short in Hbad by lia.
    cbn [forallb] in Hbad. rewrite andb_true_r in Hbad.
    cbn [do_while].
    rewrite (legacy_encode_body_bad s (size - lg_pos s));
      try lia; try (apply legacy_select_last; fold size; lia);
      try reflexivity.
    replace (window buf (lg_pos s) (size - lg_pos s))
      with (dropZ (lg_pos s) buf)
      by (unfold window; symmetry; apply takeZ_all; lia).
    exact Hbad.
  - rewrite blocks_of_long in Hbad by lia.
    cbn [forallb] in Hbad. cbn [do_while].
    destruct (compresses L (takeZ LZ4_LEGACY_BLOCKSIZE
                              (dropZ (lg_pos s) buf))) eqn:E.
    + rewrite (legacy_encode_body_block L buf size_fits s
                 LZ4_LEGACY_BLOCKSIZE);
        try lia; try (apply legacy_select_full; fold size; lia);
        try (fold size; lia).
      2: { apply compresses_true. exact E. }
      unfold legacy_cond at 1. cbn [lg_pos]. fold size.
      replace (lg_pos s + LZ4_LEGACY_BLOCKSIZE <? size) with true
        by (symmetry; apply Z.ltb_lt; lia).
      apply IH; cbn [lg_pos]; try lia.
      replace (dropZ (lg_pos s + LZ4_LEGACY_BLOCKSIZE) buf)
        with (dropZ LZ4_LEGACY_BLOCKSIZE (dropZ (lg_pos s) buf))
        by (rewrite dropZ_dropZ by lia; f_equal; lia).
      exact Hbad.
    + rewrite (legacy_encode_body_bad s LZ4_LEGACY_BLOCKSIZE);
        try lia; try (apply legacy_select_full; fold size; lia);
        try reflexivity.
      exact E.
Qed.

Lemma lz4_legacy_encode_bad (fd0 : list byte) :
  forallb (compresses L) (legacy_blocks buf) = false ->
  lz4_legacy L buf 1 fd0 = Fail CodecStreamError.
Proof.
  intros Hbad. unfold lz4_legacy, lz4_legacy_fuel. cbn [Z.eqb Pos.eqb].
  pose proof (lenZ_nonneg buf) as Hs. fold size in Hs.
  pose proof BLOCKSIZE_value as HB.
  rewrite legacy_encode_loop_bad.
  - reflexivity.
  - unfold legacy_write, xwrite; cbn [lg_pos]. fold size. lia.
  - unfold legacy_write, xwrite; cbn [lg_pos]. fold size.
    unfold size, lenZ in *. lia.
  - lia.
  - unfold legacy_write, xwrite; cbn [lg_pos].
    rewrite dropZ_0 by lia. exact Hbad.
Qed.
End LegacyEncodeFail.

(** The lz4_legacy encoder fails exactly when the compressor gives nothing
    for one of the 8 MiB blocks of the input, and its only failure is the
    logged compression error: it reads no byte outside the input and ends
    within its fuel. *)
Theorem lz4_legacy_encode_fails_iff (L : lz4_block_lib)
    (buf fd0 : list byte) :
  lenZ buf + LZ4_LEGACY_BLOCKSIZE < SIZE_MOD ->
  (lz4_legacy L buf 1 fd0 = Fail CodecStreamError <->
   exists c, In c (legacy_blocks buf)
             /\ LZ4_compress_HC L c
                  (LZ4_COMPRESSBOUND LZ4_LEGACY_BLOCKSIZE) 9 = [])
  /\ (lz4_legacy L buf 1 fd0 <> Fail CodecStreamError ->
      lz4_legacy L buf 1 fd0 =
        Ok (to_unsigned (4 + lenZ (legacy_body L buf)),
            fd0 ++ legacy_stream L buf)).
Proof.
  intros Hfit.
  destruct (forallb (compresses L) (legacy_blocks buf)) eqn:E.
  - assert (Hall : forall c, In c (legacy_blocks buf) ->
              LZ4_compress_HC L c (LZ4_COMPRESSBOUND LZ4_LEGACY_BLOCKSIZE) 9
              <> []).
    { intros c Hc. apply compresses_true.
      rewrite forallb_forall in E. now apply E. }
    rewrite (lz4_legacy_encode_eq L buf Hfit fd0 Hall). split.
    + split; [discriminate|].
      intros [c [Hc Hz]]. now apply Hall in Hc.
    + reflexivity.
  - rewrite (lz4_legacy_encode_bad L buf Hfit fd0 E). split.
    + split; [|reflexivity]. intros _.
      assert (H : ~ (forall c, In c (legacy_blocks buf) ->
                       compresses L c = true)).
      { rewrite <- forallb_forall, E. discriminate. }
      induction (legacy_blocks buf) as [|c l IH].
      * exfalso. apply H. intros c [].
      * destruct (compresses L c) eqn:Ec.
        -- destruct IH as [c' [Hc' Hz]].
           ++ cbn [forallb] in E. rewrite Ec in E. exact E.
           ++ intros Hl. apply H. intros c' [<-|Hc']; [exact Ec|now apply Hl].
           ++ exists c'. split; [now right|exact Hz].
        -- exists c. split; [now left|]. now apply compresses_false.
    + intros Hn. now contradiction Hn.
Qed.

Lemma lz4_legacy_encode_fails_iff_witness :
  (lz4_legacy refusing_lz4 hello 1 [] = Fail CodecStreamError <->
   exists c, In c (legacy_blocks hello)
             /\ LZ4_compress_HC refusing_lz4 c
                  (LZ4_COMPRESSBOUND LZ4_LEGACY_BLOCKSIZE) 9 = [])
  /\ (lz4_legacy refusing_lz4 hello 1 [] <> Fail CodecStreamError ->
      lz4_legacy refusing_lz4 hello 1 [] =
        Ok (to_unsigned (4 + lenZ (legacy_body refusing_lz4 hello)),
            [] ++ legacy_stream refusing_lz4 hello)).
Proof.
  apply (lz4_legacy_encode_fails_iff refusing_lz4 hello []).
  vm_compute. reflexivity.
Defined.

(* ================================================================== *)
(** * Inputs of one window *)

Lemma window_whole (buf : list byte) : window buf 0 (lenZ buf) = buf.
Proof.
  unfold window. rewrite dropZ_0 by lia. apply takeZ_all. lia.
Qed.

(** What [drain] writes after a call that left room in the buffer. *)
Lemma drain_room {I : Type} (s : coder_state I) (cap : Z) (out : list byte) :
  0 < cap < SIZE_MOD -> lenZ out < cap ->
  avail_out s = cap - lenZ out ->
  fd (drain s cap out) = fd s ++ out
  /\ total (drain s cap out) = to_size_t (total s + lenZ out).
Proof.
  intros Hc Ho Ha. pose proof (lenZ_nonneg out).
  unfold drain, xwrite; cbn [fd total]. rewrite Ha.
  replace (cap - (cap - lenZ out)) with (lenZ out) by lia.
  rewrite to_size_t_small by lia.
  rewrite takeZ_all by lia. split; reflexivity.
Qed.

(** [gzip] on an input of one window that one call transcodes. *)
Lemma gzip_single_call (ZL : zlib) (buf : list byte) (fuel : nat)
    (mode : Z) (out0 : list byte) :
  let init := gzip_init ZL mode in
  let r := if mode =? 0 then inflate ZL (snd init) buf CHUNK Z_FINISH
           else deflate ZL (snd init) buf CHUNK Z_FINISH in
  mode = 0 \/ mode = 1 ->
  lenZ buf <= CHUNK ->
  to_size_t (fst init) = to_size_t Z_OK ->
  lenZ (st_out r) < CHUNK ->
  to_size_t (st_ret r) <> to_size_t Z_STREAM_ERROR ->
  gzip ZL buf (S fuel) mode out0 = Ok (lenZ (st_out r), out0 ++ st_out r).
Proof.
  intros init r Hm Hs Hi Ho Hr.
  pose proof (lenZ_nonneg buf) as H0. pose proof (lenZ_nonneg (st_out r)) as H1.
  assert (HC : CHUNK = 262144) by reflexivity.
  assert (Hfit : lenZ buf + CHUNK < SIZE_MOD) by (unfold SIZE_MOD; lia).
  unfold gzip. fold init. destruct init as [r0 i] eqn:Einit.
  cbn [fst snd] in *. rewrite Hi, Z.eqb_refl. cbn [negb].
  cbn [do_while].
  rewrite (gzip_outer_body_eq ZL buf Hfit) by (cbn [pos coder_init]; lia).
  cbn [pos coder_init]. rewrite Z.sub_0_r.
  replace (lenZ buf <=? CHUNK) with true by (symmetry; apply Z.leb_le; lia).
  rewrite Z.min_r by lia.
  cbn [do_while]. unfold gzip_inner_body at 1.
  unfold feed, reset_out; cbn [pos total ret next_in avail_in avail_out strm fd].
  rewrite window_whole.
  assert (Hcall : forall s0 : coder_state (z_internal ZL),
    strm s0 = i -> avail_out s0 = CHUNK ->
    (if mode =? 0
     then (after_call to_size_t UINT_MOD s0
             (inflate ZL (strm s0) buf (avail_out s0) Z_FINISH),
           st_out (inflate ZL (strm s0) buf (avail_out s0) Z_FINISH))
     else if mode =? 1
     then (after_call to_size_t UINT_MOD s0
             (deflate ZL (strm s0) buf (avail_out s0) Z_FINISH),
           st_out (deflate ZL (strm s0) buf (avail_out s0) Z_FINISH))
     else (s0, []))
    = (after_call to_size_t UINT_MOD s0 r, st_out r)).
  { intros s0 -> ->. subst r. destruct Hm as [-> | ->]; reflexivity. }
  rewrite Hcall by reflexivity. clear Hcall.
  set (s2 := after_call to_size_t UINT_MOD _ r).
  assert (Hav : avail_out s2 = CHUNK - lenZ (st_out r)).
  { unfold s2, after_call; cbn [avail_out].
    apply Z.mod_small. unfold UINT_MOD. lia. }
  replace (ret s2 =? to_size_t Z_STREAM_ERROR) with false
    by (symmetry; apply Z.eqb_neq; exact Hr).
  destruct (drain_room s2 CHUNK (st_out r)) as [Hfd Htot];
    [unfold SIZE_MOD; lia | lia | exact Hav |].
  destruct (pos_drain s2 CHUNK (st_out r)) as [Hp [Ha _]].
  unfold gzip_inner_cond. rewrite Ha, Hav.
  replace (CHUNK - lenZ (st_out r) =? 0) with false
    by (symmetry; apply Z.eqb_neq; lia).
  unfold bind. unfold gzip_outer_cond. rewrite Hp.
  unfold s2 at 1; cbn [pos after_call].
  rewrite Z.add_0_l, to_size_t_small by lia. rewrite Z.ltb_irrefl.
  rewrite Hfd, Htot. unfold s2; cbn [fd total after_call].
  rewrite Z.add_0_l, to_size_t_small by (unfold SIZE_MOD; lia).
  reflexivity.
Qed.

(** An input of at most 256 KiB whose coded form leaves room in the output
    buffer is transcoded by one call of the library, on the whole input and
    with [Z_FINISH]; what the call stored is what [gzip] writes, whatever
    code other than [Z_STREAM_ERROR] the call returned. *)
Theorem gzip_one_window (ZL : zlib) (buf : list byte) (fuel : nat)
    (mode : Z) (out0 : list byte) :
  let init := gzip_init ZL mode in
  let r := if mode =? 0 then inflate ZL (snd init) buf CHUNK Z_FINISH
           else deflate ZL (snd init) buf CHUNK Z_FINISH in
  mode = 0 \/ mode = 1 ->
  lenZ buf <= CHUNK ->
  to_size_t (fst init) = to_size_t Z_OK ->
  lenZ (st_out r) < CHUNK ->
  to_size_t (st_ret r) <> to_size_t Z_STREAM_ERROR ->
  gzip ZL buf (S fuel) mode out0 = Ok (lenZ (st_out r), out0 ++ st_out r).
Proof. exact (gzip_single_call ZL buf fuel mode out0). Qed.

(** [bzip2] on an input of one window that one call transcodes. *)
Lemma bzip2_single_call (BZ : bzlib) (buf : list byte) (fuel : nat)
    (mode : Z) (out0 : list byte) :
  let init := bzip2_init BZ mode in
  let r := if mode =? 0 then BZ2_bzDecompress BZ (snd init) buf CHUNK
           else BZ2_bzCompress BZ (snd init) buf CHUNK BZ_FINISH in
  mode = 0 \/ mode = 1 ->
  lenZ buf <= CHUNK ->
  to_size_t (fst init) = to_size_t BZ_OK ->
  lenZ (st_out r) < CHUNK ->
  bzip2 BZ buf (S fuel) mode out0 = Ok (lenZ (st_out r), out0 ++ st_out r).
Proof.
  intros init r Hm Hs Hi Ho.
  pose proof (lenZ_nonneg buf) as H0. pose proof (lenZ_nonneg (st_out r)) as H1.
  assert (HC : CHUNK = 262144) by reflexivity.
  assert (Hfit : lenZ buf + CHUNK < SIZE_MOD) by (unfold SIZE_MOD; lia).
  unfold bzip2. fold init. destruct init as [r0 i] eqn:Einit.
  cbn [fst snd] in *. rewrite Hi, Z.eqb_refl. cbn [negb].
  cbn [do_while].
  rewrite (bzip2_outer_body_eq BZ buf Hfit) by (cbn [pos coder_init]; lia).
  cbn [pos coder_init]. rewrite Z.sub_0_r.
  replace (lenZ buf <=? CHUNK) with true by (symmetry; apply Z.leb_le; lia).
  rewrite Z.min_r by lia.
  cbn [do_while]. unfold bzip2_inner_body at 1.
  unfold feed, reset_out; cbn [pos total ret next_in avail_in avail_out strm fd].
  rewrite window_whole.
  assert (Hcall : forall s0 : coder_state (bz_internal BZ),
    strm s0 = i -> avail_out s0 = CHUNK ->
    (if mode =? 0
     then (after_call to_size_t UINT_MOD s0
             (BZ2_bzDecompress BZ (strm s0) buf (avail_out s0)),
           st_out (BZ2_bzDecompress BZ (strm s0) buf (avail_out s0)))
     else if mode =? 1
     then (after_call to_size_t UINT_MOD s0
             (BZ2_bzCompress BZ (strm s0) buf (avail_out s0) BZ_FINISH),
           st_out (BZ2_bzCompress BZ (strm s0) buf (avail_out s0) BZ_FINISH))
     else (s0, []))
    = (after_call to_size_t UINT_MOD s0 r, st_out r)).
  { intros s0 -> ->. subst r. destruct Hm as [-> | ->]; reflexivity. }
  rewrite Hcall by reflexivity. clear Hcall.
  set (s2 := after_call to_size_t UINT_MOD _ r).
  assert (Hav : avail_out s2 = CHUNK - lenZ (st_out r)).
  { unfold s2, after_call; cbn [avail_out].
    apply Z.mod_small. unfold UINT_MOD. lia. }
  destruct (drain_room s2 CHUNK (st_out r)) as [Hfd Htot];
    [unfold SIZE_MOD; lia | lia | exact Hav |].
  destruct (pos_drain s2 CHUNK (st_out r)) as [Hp [Ha _]].
  unfold bzip2_inner_cond. rewrite Ha, Hav.
  replace (CHUNK - lenZ (st_out r) =? 0) with false
    by (symmetry; apply Z.eqb_neq; lia).
  unfold bind. unfold bzip2_outer_cond. rewrite Hp.
  unfold s2 at 1; cbn [pos after_call].
  rewrite Z.add_0_l, to_size_t_small by lia. rewrite Z.ltb_irrefl.
  rewrite Hfd, Htot. unfold s2; cbn [fd total after_call].
  rewrite Z.add_0_l, to_size_t_small by (unfold SIZE_MOD; lia).
  reflexivity.
Qed.

(** An input of at most 256 KiB whose coded form leaves room in the output
    buffer is transcoded by one call of the library, on the whole input
    (with [BZ_FINISH] when compressing); what the call stored is what
    [bzip2] writes, whatever code the call returned. *)
Theorem bzip2_one_window (BZ : bzlib) (buf : list byte) (fuel : nat)
    (mode : Z) (out0 : list byte) :
  let init := bzip2_init BZ mode in
  let r := if mode =? 0 then BZ2_bzDecompress BZ (snd init) buf CHUNK
           else BZ2_bzCompress BZ (snd init) buf CHUNK BZ_FINISH in
  mode = 0 \/ mode = 1 ->
  lenZ buf <= CHUNK ->
  to_size_t (fst init) = to_size_t BZ_OK ->
  lenZ (st_out r) < CHUNK ->
  bzip2 BZ buf (S fuel) mode out0 = Ok (lenZ (st_out r), out0 ++ st_out r).
Proof. exact (bzip2_single_call BZ buf fuel mode out0). Qed.

(** [lzma] on an input of one window that one call transcodes. *)
Lemma lzma_single_call (LZ : liblzma) (BUFSIZ : Z) (buf : list byte)
    (fuel : nat) (mode : Z) (out0 : list byte) :
  let init := lzma_init LZ mode in
  let r := lzma_code LZ (snd init) buf BUFSIZ LZMA_FINISH in
  lenZ buf <= BUFSIZ ->
  BUFSIZ < 2 ^ 63 ->
  fst init = LZMA_OK ->
  lenZ (st_out r) < BUFSIZ ->
  lzma LZ BUFSIZ buf (S fuel) mode out0 =
    if (st_ret r =? LZMA_OK) || (st_ret r =? LZMA_STREAM_END)
    then Ok (lenZ (st_out r), out0 ++ st_out r)
    else Fail CodecStreamError.
Proof.
  intros init r Hs HB Hi Ho.
  pose proof (lenZ_nonneg buf) as H0. pose proof (lenZ_nonneg (st_out r)) as H1.
  assert (Hfit : lenZ buf + BUFSIZ < SIZE_MOD) by (unfold SIZE_MOD; lia).
  assert (HB0 : 0 <= BUFSIZ) by lia.
  unfold lzma. fold init. destruct init as [r0 i] eqn:Einit.
  cbn [fst snd] in *. subst r0. rewrite Z.eqb_refl. cbn [negb].
  cbn [do_while].
  rewrite (lzma_outer_body_eq LZ BUFSIZ buf HB0 Hfit)
    by (cbn [pos coder_init]; lia).
  cbn [pos coder_init]. rewrite Z.sub_0_r.
  replace (lenZ buf <=? BUFSIZ) with true by (symmetry; apply Z.leb_le; lia).
  rewrite Z.min_r by lia.
  cbn [do_while]. unfold lzma_inner_body at 1.
  unfold feed, reset_out;
    cbn [pos total ret next_in avail_in avail_out strm fd coder_init].
  rewrite window_whole. fold r.
  set (s2 := after_call (fun z => z) SIZE_MOD _ r).
  assert (Hav : avail_out s2 = BUFSIZ - lenZ (st_out r)).
  { unfold s2, after_call; cbn [avail_out].
    apply Z.mod_small. unfold SIZE_MOD. lia. }
  destruct (drain_room s2 BUFSIZ (st_out r)) as [Hfd Htot];
    [unfold SIZE_MOD; lia | lia | exact Hav |].
  destruct (pos_drain s2 BUFSIZ (st_out r)) as [Hp [Ha Hr]].
  unfold lzma_inner_cond. rewrite Ha, Hav.
  replace (BUFSIZ - lenZ (st_out r) =? 0) with false
    by (symmetry; apply Z.eqb_neq; lia).
  cbn [andb]. unfold bind at 2. rewrite Hr.
  unfold s2 at 1 2; cbn [ret after_call].
  destruct (st_ret r =? LZMA_OK) eqn:E1; cbn [negb andb orb].
  - unfold bind, lzma_outer_cond. rewrite Hp.
    unfold s2 at 1; cbn [pos after_call].
    rewrite Z.add_0_l, to_size_t_small by lia. rewrite Z.ltb_irrefl.
    rewrite Hfd, Htot. unfold s2; cbn [fd total after_call].
    rewrite Z.add_0_l, to_size_t_small by (unfold SIZE_MOD; lia).
    reflexivity.
  - destruct (st_ret r =? LZMA_STREAM_END) eqn:E2; cbn [negb].
    + unfold bind, lzma_outer_cond. rewrite Hp.
      unfold s2 at 1; cbn [pos after_call].
      rewrite Z.add_0_l, to_size_t_small by lia. rewrite Z.ltb_irrefl.
      rewrite Hfd, Htot. unfold s2; cbn [fd total after_call].
      rewrite Z.add_0_l, to_size_t_small by (unfold SIZE_MOD; lia).
      reflexivity.
    + reflexivity.
Qed.

(** An input of at most [BUFSIZ] bytes whose coded form leaves room in the
    output buffer is given to [lzma_code] once, whole and with
    [LZMA_FINISH].  The code of that call decides: on [LZMA_OK] or
    [LZMA_STREAM_END] what it stored is written and counted; on any other
    code the logged error ends the run.  [LZMA_OK] is taken as success
    although the coder did not report the end of the stream. *)
Theorem lzma_one_window (LZ : liblzma) (BUFSIZ : Z) (buf : list byte)
    (fuel : nat) (mode : Z) (out0 : list byte) :
  let init := lzma_init LZ mode in
  let r := lzma_code LZ (snd init) buf BUFSIZ LZMA_FINISH in
  lenZ buf <= BUFSIZ ->
  BUFSIZ < 2 ^ 63 ->
  fst init = LZMA_OK ->
  lenZ (st_out r) < BUFSIZ ->
  lzma LZ BUFSIZ buf (S fuel) mode out0 =
    if (st_ret r =? LZMA_OK) || (st_ret r =? LZMA_STREAM_END)
    then Ok (lenZ (st_out r), out0 ++ st_out r)
    else Fail CodecStreamError.
Proof. exact (lzma_single_call LZ BUFSIZ buf fuel mode out0). Qed.

Lemma gzip_one_window_witness :
  gzip tag_zlib [x01; x68; x01] 1 0 [] =
    Ok (lenZ (st_out (inflate tag_zlib (snd (gzip_init tag_zlib 0))
                        [x01; x68; x01] CHUNK Z_FINISH)),
        [] ++ st_out (inflate tag_zlib (snd (gzip_init tag_zlib 0))
                        [x01; x68; x01] CHUNK Z_FINISH)).
Proof.
  apply (gzip_one_window tag_zlib [x01; x68; x01] 0 0 []).
  - left. reflexivity.
  - vm_compute. discriminate.
  - reflexivity.
  - vm_compute. reflexivity.
  - vm_compute. discriminate.
Defined.

Lemma bzip2_one_window_witness :
  bzip2 tag_bzlib hello 1 1 [] =
    Ok (lenZ (st_out (BZ2_bzCompress tag_bzlib (snd (bzip2_init tag_bzlib 1))
                        hello CHUNK BZ_FINISH)),
        [] ++ st_out (BZ2_bzCompress tag_bzlib (snd (bzip2_init tag_bzlib 1))
                        hello CHUNK BZ_FINISH)).
Proof.
  apply (bzip2_one_window tag_bzlib hello 0 1 []).
  - right. reflexivity.
  - vm_compute. discriminate.
  - reflexivity.
  - vm_compute. reflexivity.
Defined.

Lemma lzma_one_window_witness :
  lzma tag_lzma 1024 [xfd; x01; x68; x01] 1 0 [] =
    if (st_ret (lzma_code tag_lzma (snd (lzma_init tag_lzma 0))
                  [xfd; x01; x68; x01] 1024 LZMA_FINISH) =? LZMA_OK)
       || (st_ret (lzma_code tag_lzma (snd (lzma_init tag_lzma 0))
                     [xfd; x01; x68; x01] 1024 LZMA_FINISH)
           =? LZMA_STREAM_END)
    then Ok (lenZ (st_out (lzma_code tag_lzma (snd (lzma_init tag_lzma 0))
                             [xfd; x01; x68; x01] 1024 LZMA_FINISH)),
             [] ++ st_out (lzma_code tag_lzma (snd (lzma_init tag_lzma 0))
                             [xfd; x01; x68; x01] 1024 LZMA_FINISH))
    else Fail CodecStreamError.
Proof.
  apply (lzma_one_window tag_lzma 1024 [xfd; x01; x68; x01] 0 0 []).
  - vm_compute. discriminate.
  - vm_compute. reflexivity.
  - reflexivity.
  - vm_compute. reflexivity.
Defined.

Example truncated_inputs_decode :
  gzip tag_zlib [x01; x68; x01] 1 0 [] = Ok (1, [x68])
  /\ bzip2 tag_bzlib [x01; x68; x01] 1 0 [] = Ok (1, [x68])
  /\ lzma tag_lzma 1024 [xfd; x01; x68; x01] 1 0 [] = Ok (1, [x68]).
Proof. vm_compute. split; [|split]; reflexivity. Qed.

(* ================================================================== *)
(** * The LZ4 frame transcoder *)

Lemma chunks_of_short (n : Z) (fuel : nat) (l : list byte) :
  lenZ l <= n -> chunks_of n (S fuel) l = [l].
Proof.
  intros H. simpl.
  now replace (lenZ l <=? n) with true by (symmetry; apply Z.leb_le; exact H).
Qed.

Lemma chunks_of_long (n : Z) (fuel : nat) (l : list byte) :
  n < lenZ l ->
  chunks_of n (S fuel) l = takeZ n l :: chunks_of n fuel (dropZ n l).
Proof.
  intros H. simpl.
  now replace (lenZ l <=? n) with false by (symmetry; apply Z.leb_gt; exact H).
Qed.

Lemma chunks_of_nonempty (n : Z) (fuel : nat) (l : list byte) :
  is_nil (chunks_of n (S fuel) l) = false.
Proof. simpl. now destruct (lenZ l <=? n). Qed.

Section Lz4Encode.
Variable LF : lz4f_lib.
Variable buf : list byte.
Let size : Z := lenZ buf.
Variable cap : Z.
Variable inner : nat.

Hypothesis size_fits : size + lz4_blockSize < SIZE_MOD.

(** One outer iteration in mode 1: one call on the window at the cursor. *)
Lemma lz4_encode_outer_body (s : lz4_state (lz4f_dctx LF) (lz4f_cctx LF))
    (c c' : lz4f_cctx LF) (r : Z) (out : list byte) :
  l_ctx s = inr c ->
  0 <= l_pos s <= size ->
  LZ4F_compressUpdate LF c cap
    (window buf (l_pos s) (Z.min lz4_blockSize (size - l_pos s)))
    = (r, out, c') ->
  LZ4F_isError LF r = false ->
  lz4_outer_body LF buf (S inner) 1 cap s =
    Ok (Next {| l_pos := Z.min (l_pos s + lz4_blockSize) size;
                l_total := to_size_t (l_total s + lenZ (takeZ r out));
                l_ret := r;
                l_avail_in := 0;
                l_ctx := inr c';
                l_fd := l_fd s ++ takeZ r out |}).
Proof.
  intros Hc Hp Hu He. rewrite lz4_outer_body_eq by assumption.
  pose proof lz4_blockSize_value as HB. fold size.
  cbn [do_while].
  set (n := Z.min lz4_blockSize (size - l_pos s)) in *.
  set (s1 := lz4_set_avail LF s n).
  assert (Hc1 : l_ctx s1 = inr c) by exact Hc.
  assert (Hp1 : l_pos s1 = l_pos s) by reflexivity.
  assert (Ha1 : l_avail_in s1 = n) by reflexivity.
  unfold lz4_inner_body at 1. rewrite Hc1, Hp1, Ha1.
  cbn [Z.eqb Pos.eqb]. rewrite Hu, He.
  unfold lz4_inner_cond, lz4_advance, lz4_write, xwrite;
    cbn [l_pos l_total l_ret l_avail_in l_ctx l_fd].
  rewrite Hp1. unfold s1, lz4_set_avail; cbn [l_total l_fd].
  rewrite Z.sub_diag. change (to_size_t 0 =? 0) with true.
  cbn [negb andb bind]. do 2 f_equal.
  unfold n. rewrite to_size_t_small by lia.
  f_equal. lia.
Qed.

(** The outer loop in mode 1, from any window boundary on. *)
Lemma lz4_encode_loop (fuel : nat) :
  forall (s : lz4_state (lz4f_dctx LF) (lz4f_cctx LF))
         (c c' : lz4f_cctx LF) (body : list byte),
    l_ctx s = inr c ->
    0 <= l_pos s <= size ->
    size - l_pos s <= Z.of_nat fuel * lz4_blockSize ->
    (1 <= fuel)%nat ->
    lz4_updates LF cap c (chunks_of lz4_blockSize fuel (dropZ (l_pos s) buf))
      = Some (body, c') ->
    exists s',
      do_while fuel (lz4_outer_body LF buf (S inner) 1 cap)
        (lz4_outer_cond LF buf) s = Ok s'
      /\ l_ctx s' = inr c' /\ l_fd s' = l_fd s ++ body.
Proof.
  induction fuel as [|fuel IH]; intros s c c' body Hc Hp Hfuel H1 Hu; [lia|].
  pose proof lz4_blockSize_value as HB.
  assert (Hrest : lenZ (dropZ (l_pos s) buf) = size - l_pos s)
    by (rewrite lenZ_dropZ; fold size; lia).
  destruct (Z_le_gt_dec (size - l_pos s) lz4_blockSize) as [Hl|Hl].
  - rewrite chunks_of_short in Hu by lia. cbn [lz4_updates is_nil] in Hu.
    destruct (LZ4F_compressUpdate LF c cap (dropZ (l_pos s) buf))
      as [[r out] c1] eqn:Eu.
    destruct (LZ4F_isError LF r) eqn:Ee; [discriminate|].
    rewrite andb_false_r in Hu. injection Hu as <- <-.
    cbn [do_while].
    rewrite (lz4_encode_outer_body s c c1 r out); try assumption.
    2: { rewrite Z.min_r by lia. unfold window.
         rewrite takeZ_all by lia. exact Eu. }
    unfold lz4_outer_cond; cbn [l_pos]. fold size.
    rewrite Z.min_r by lia. rewrite Z.ltb_irrefl. cbn [andb].
    eexists. split; [reflexivity|]. cbn [l_ctx l_fd].
    now rewrite app_nil_r.
  - destruct fuel as [|fuel]; [lia|].
    rewrite chunks_of_long in Hu by lia.
    cbn [lz4_updates] in Hu. rewrite chunks_of_nonempty in Hu.
    destruct (LZ4F_compressUpdate LF c cap
                (takeZ lz4_blockSize (dropZ (l_pos s) buf)))
      as [[r out] c1] eqn:Eu.
    destruct (LZ4F_isError LF r) eqn:Ee; [discriminate|].
    destruct (r =? 0) eqn:Er; [discriminate|]. cbn [negb andb] in Hu.
    destruct (lz4_updates LF cap c1 _) as [[rest c2]|] eqn:Erest;
      [|discriminate].
    injection Hu as <- <-.
    cbn [do_while].
    rewrite (lz4_encode_outer_body s c c1 r out); try assumption.
    2: { rewrite Z.min_l by lia. exact Eu. }
    unfold lz4_outer_cond at 1; cbn [l_pos l_ret]. fold size.
    rewrite Z.min_l by lia.
    replace (l_pos s + lz4_blockSize <? size) with true
      by (symmetry; apply Z.ltb_lt; lia).
    rewrite Er. cbn [negb andb].
    destruct (IH {| l_pos := l_pos s + lz4_blockSize;
                    l_total := to_size_t (l_total s + lenZ (takeZ r out));
                    l_ret := r; l_avail_in := 0; l_ctx := inr c1;
                    l_fd := l_fd s ++ takeZ r out |} c1 c2 rest)
      as [s' [Hs' [Hc' Hfd']]]; cbn [l_pos l_ctx l_fd]; try lia;
      try reflexivity.
    + replace (dropZ (l_pos s + lz4_blockSize) buf)
        with (dropZ lz4_blockSize (dropZ (l_pos s) buf))
        by (rewrite dropZ_dropZ by lia; f_equal; lia).
      exact Erest.
    + exists s'. split; [exact Hs'|]. split; [exact Hc'|].
      rewrite Hfd'. cbn [l_fd]. now rewrite <- app_assoc.
Qed.
End Lz4Encode.

(** The frame [lz4] writes in mode 1. *)
Lemma lz4_encode_layout (LF : lz4f_lib) (buf : list byte) (fuel : nat)
    (out0 : list byte) (r0 r1 r3 : Z) (c0 c1 c2 c3 : lz4f_cctx LF)
    (hdr body ftr : list byte) :
  lenZ buf + lz4_blockSize < SIZE_MOD ->
  lenZ buf <= Z.of_nat fuel * lz4_blockSize ->
  (1 <= fuel)%nat ->
  LZ4F_createCompressionContext LF LZ4F_VERSION = (r0, c0) ->
  LZ4F_isError LF r0 = false ->
  LZ4F_compressBegin LF c0 (lenZ buf) lz4_prefs = (r1, hdr, c1) ->
  LZ4F_isError LF r1 = false ->
  lz4_updates LF (LZ4F_compressFrameBound LF lz4_blockSize) c1
    (chunks_of lz4_blockSize fuel buf) = Some (body, c2) ->
  LZ4F_compressEnd LF c2 (LZ4F_compressFrameBound LF lz4_blockSize)
    = (r3, ftr, c3) ->
  LZ4F_isError LF r3 = false ->
  lz4 LF buf fuel 1 out0 =
    Ok (to_size_t (lenZ (takeZ r1 hdr ++ body ++ takeZ r3 ftr)),
        out0 ++ takeZ r1 hdr ++ body ++ takeZ r3 ftr).
Proof.
  intros Hfit Hfuel H1 E0 I0 E1 I1 Eu E3 I3.
  pose proof (lenZ_nonneg buf) as Hs.
  enough (G : exists t, lz4 LF buf fuel 1 out0 =
                Ok (t, out0 ++ takeZ r1 hdr ++ body ++ takeZ r3 ftr)).
  { destruct G as [t G]. rewrite G. do 2 f_equal.
    apply lz4_tallied in G. destruct G as [w [Hw Ht]].
    apply app_inv_head in Hw. now subst w. }
  destruct fuel as [|inner]; [lia|].
  unfold lz4. cbn [Z.eqb Pos.eqb]. rewrite E0, I0, E1, I1.
  set (s0 := lz4_write LF (lz4_start LF r1 0 (inr c1) out0) hdr r1).
  destruct (lz4_encode_loop LF buf
              (LZ4F_compressFrameBound LF lz4_blockSize) inner Hfit
              (S inner) s0 c1 c2 body) as [s' [Hs' [Hc' Hfd']]];
    try reflexivity; try (cbn [s0 l_pos lz4_write lz4_start xwrite]; lia).
  - unfold s0, lz4_write, lz4_start, xwrite; cbn [l_pos].
    rewrite dropZ_0 by lia. exact Eu.
  - rewrite Hs'. unfold bind. rewrite Hc', E3, I3.
    eexists. f_equal. f_equal.
    unfold lz4_write at 1, xwrite; cbn [l_fd]. rewrite Hfd'.
    unfold s0, lz4_write, lz4_start, xwrite; cbn [l_fd].
    now rewrite <- !app_assoc.
Qed.

(** What [lz4] in mode 1 writes: the bytes of [LZ4F_compressBegin], those
    of one [LZ4F_compressUpdate] for every window of 4 MiB of the input,
    and those of [LZ4F_compressEnd], provided no call reports an error and
    no call before the last window returns 0.  The capacity handed to
    [LZ4F_compressBegin] is the length of the input, that handed to the
    other calls the frame bound of a window. *)
Theorem lz4_frame_layout (LF : lz4f_lib) (buf : list byte) (fuel : nat)
    (out0 : list byte) (r0 r1 r3 : Z) (c0 c1 c2 c3 : lz4f_cctx LF)
    (hdr body ftr : list byte) :
  lenZ buf + lz4_blockSize < SIZE_MOD ->
  lenZ buf <= Z.of_nat fuel * lz4_blockSize ->
  (1 <= fuel)%nat ->
  LZ4F_createCompressionContext LF LZ4F_VERSION = (r0, c0) ->
  LZ4F_isError LF r0 = false ->
  LZ4F_compressBegin LF c0 (lenZ buf) lz4_prefs = (r1, hdr, c1) ->
  LZ4F_isError LF r1 = false ->
  lz4_updates LF (LZ4F_compressFrameBound LF lz4_blockSize) c1
    (chunks_of lz4_blockSize fuel buf) = Some (body, c2) ->
  LZ4F_compressEnd LF c2 (LZ4F_compressFrameBound LF lz4_blockSize)
    = (r3, ftr, c3) ->
  LZ4F_isError LF r3 = false ->
  lz4 LF buf fuel 1 out0 =
    Ok (to_size_t (lenZ (takeZ r1 hdr ++ body ++ takeZ r3 ftr)),
        out0 ++ takeZ r1 hdr ++ body ++ takeZ r3 ftr).
Proof. exact (lz4_encode_layout LF buf fuel out0 r0 r1 r3 c0 c1 c2 c3 hdr body ftr). Qed.

Lemma lz4_frame_layout_witness :
  lz4 tag_lz4f hello 1 1 [] =
    Ok (to_size_t
          (lenZ (takeZ 5 [x04; x22; x4d; x18; x07] ++ tagged_body hello
                 ++ takeZ 1 [x00])),
        [] ++ takeZ 5 [x04; x22; x4d; x18; x07] ++ tagged_body hello
           ++ takeZ 1 [x00]).
Proof.
  apply (lz4_frame_layout tag_lz4f hello 1 [] 0 5 1 tt tt tt tt
           [x04; x22; x4d; x18; x07] (tagged_body hello) [x00]).
  - vm_compute. reflexivity.
  - vm_compute. discriminate.
  - lia.
  - reflexivity.
  - reflexivity.
  - reflexivity.
  - reflexivity.
  - reflexivity.
  - reflexivity.
  - reflexivity.
Defined.

(** [lz4] in mode 0 ends with the call of [LZ4F_decompress] that returns 0,
    the end of the frame: here the first call, on the window behind the
    frame header.  What that call decoded is the result; the input behind
    the bytes the call consumed, a further frame included, is not looked
    at and is no error. *)
Theorem lz4_decode_ends_with_frame (LF : lz4f_lib) (buf : list byte)
    (fuel : nat) (out0 : list byte) (r0 r1 id read cap n : Z)
    (d0 d1 d2 : lz4f_dctx LF) (out : list byte) :
  lenZ buf + lz4_blockSize < SIZE_MOD ->
  LZ4F_createDecompressionContext LF LZ4F_VERSION = (r0, d0) ->
  LZ4F_isError LF r0 = false ->
  LZ4F_getFrameInfo LF d0 (window buf 0 lz4_blockSize) lz4_blockSize
    = (r1, id, read, d1) ->
  LZ4F_isError LF r1 = false ->
  lz4_outCapacity id = Some cap ->
  0 <= read <= lenZ buf ->
  LZ4F_decompress LF d1 cap
    (window buf read (Z.min lz4_blockSize (lenZ buf - read)))
    = (0, out, n, d2) ->
  LZ4F_isError LF 0 = false ->
  lz4 LF buf (S fuel) 0 out0 = Ok (to_size_t (lenZ out), out0 ++ out).
Proof.
  intros Hfit E0 I0 E1 I1 Ecap Hread E2 I2.
  unfold lz4. cbn [Z.eqb]. rewrite E0, I0, E1, I1, Ecap.
  replace (lenZ buf <? read) with false
    by (symmetry; apply Z.ltb_ge; lia).
  rewrite Z.add_0_l, to_size_t_small by (pose proof lz4_blockSize_value; lia).
  cbn [do_while].
  rewrite (lz4_outer_body_eq LF buf Hfit)
    by (unfold lz4_start; cbn [l_pos]; lia).
  cbn [do_while].
  set (m := Z.min lz4_blockSize
              (lenZ buf - l_pos (lz4_start LF r1 read (inl d1) out0))).
  set (s1 := lz4_set_avail LF (lz4_start LF r1 read (inl d1) out0) m).
  assert (Hm : m = Z.min lz4_blockSize (lenZ buf - read)) by reflexivity.
  assert (Hc1 : l_ctx s1 = inl d1) by reflexivity.
  assert (Hp1 : l_pos s1 = read) by reflexivity.
  assert (Ha1 : l_avail_in s1 = m) by reflexivity.
  unfold lz4_inner_body at 1. rewrite Hc1, Hp1, Ha1, Hm.
  cbn [Z.eqb]. rewrite E2, I2.
  unfold lz4_inner_cond, lz4_advance; cbn [l_ret l_avail_in].
  rewrite Z.eqb_refl. cbn [negb]. rewrite andb_false_r.
  unfold bind. unfold lz4_outer_cond; cbn [l_ret].
  rewrite Z.eqb_refl. cbn [negb]. rewrite andb_false_r.
  cbn [l_total l_fd]. unfold lz4_write, xwrite; cbn [l_total l_fd].
  unfold s1, lz4_set_avail, lz4_start; cbn [l_total l_fd].
  rewrite takeZ_all by lia. rewrite Z.add_0_l. reflexivity.
Qed.

Lemma lz4_decode_ends_with_frame_witness :
  lz4 tag_lz4f trailing_frame 1 0 []
    = Ok (to_size_t (lenZ [x68]), [] ++ [x68]).
Proof.
  apply (lz4_decode_ends_with_frame tag_lz4f trailing_frame 0 []
           0 1 7 5 (Z.shiftl 1 22) 3 false false false [x68]).
  - vm_compute. reflexivity.
  - reflexivity.
  - reflexivity.
  - reflexivity.
  - reflexivity.
  - reflexivity.
  - vm_compute. split; discriminate.
  - reflexivity.
  - reflexivity.
Defined.

(* ================================================================== *)
(** * The names the commands give their files *)

Open Scope string_scope.







Close Scope string_scope.

(* ================================================================== *)
(** * The magic of an LZ4-legacy stream *)

Lemma mem_read_same_tail (m m' rest : list byte) (p n : Z) :
  lenZ m = lenZ m' -> lenZ m <= p ->
  mem_read (m ++ rest) p n = mem_read (m' ++ rest) p n.
Proof.
  intros Hl Hp. unfold mem_read, window. rewrite !lenZ_app, Hl.
  pose proof (lenZ_nonneg m) as H0.
  replace (dropZ p (m ++ rest)) with (dropZ (p - lenZ m) rest).
  - replace (dropZ p (m' ++ rest)) with (dropZ (p - lenZ m') rest);
      [now rewrite Hl|].
    rewrite <- (dropZ_app_exact m' rest) at 1.
    rewrite dropZ_dropZ by lia. f_equal. lia.
  - rewrite <- (dropZ_app_exact m rest) at 1.
    rewrite dropZ_dropZ by lia. f_equal. lia.
Qed.

Section LegacyMagic.
Variable L : lz4_block_lib.
Variables m m' rest : list byte.
Hypothesis same_length : lenZ m = lenZ m'.
Hypothesis size_fits : lenZ (m ++ rest) < SIZE_MOD.

(** An iteration that starts behind [m] reads nothing of it. *)
Lemma legacy_decode_body_same_tail (s : legacy_state) :
  lenZ m <= lg_pos s ->
  legacy_decode_body L (m ++ rest) s = legacy_decode_body L (m' ++ rest) s.
Proof.
  intros Hp. unfold legacy_decode_body.
  rewrite (mem_read_same_tail m m' rest) by assumption.
  destruct (mem_read (m' ++ rest) (lg_pos s) 4) as [word|] eqn:M1;
    [|reflexivity].
  apply mem_read_some in M1.
  assert (Hsz : lenZ (m' ++ rest) = lenZ (m ++ rest))
    by (rewrite !lenZ_app; lia).
  pose proof (lenZ_nonneg m) as H0.
  destruct (read_le32 word >? _); [reflexivity|].
  rewrite (to_size_t_small (lg_pos s + 4)) by lia.
  rewrite (mem_read_same_tail m m' rest) by (try assumption; lia).
  reflexivity.
Qed.

Lemma legacy_decode_loop_same_tail (fuel : nat) :
  forall s, lenZ m <= lg_pos s ->
    do_while fuel (legacy_decode_body L (m ++ rest))
      (legacy_cond (m ++ rest)) s
    = do_while fuel (legacy_decode_body L (m' ++ rest))
        (legacy_cond (m' ++ rest)) s.
Proof.
  induction fuel as [|fuel IH]; intros s Hp; [reflexivity|].
  cbn [do_while]. rewrite legacy_decode_body_same_tail by exact Hp.
  destruct (legacy_decode_body L (m' ++ rest) s) as [[s'|s']|e|] eqn:B;
    try reflexivity.
  assert (Hc : legacy_cond (m ++ rest) s' = legacy_cond (m' ++ rest) s')
    by (unfold legacy_cond; rewrite !lenZ_app; now rewrite same_length).
  rewrite Hc. destruct (legacy_cond (m' ++ rest) s'); [|reflexivity].
  apply IH. apply legacy_decode_step in B.
  - lia.
  - rewrite lenZ_app, <- same_length, <- lenZ_app. exact size_fits.
Qed.
End LegacyMagic.

(** The decoder skips the first four bytes without a look at them: a
    stream decodes the same whatever stands in the place of the magic. *)
Theorem lz4_legacy_decode_ignores_magic (L : lz4_block_lib)
    (m rest fd0 : list byte) :
  lenZ m = 4 ->
  lenZ (m ++ rest) < SIZE_MOD ->
  lz4_legacy L (m ++ rest) 0 fd0 = lz4_legacy L (legacy_magic ++ rest) 0 fd0.
Proof.
  intros Hm Hfit. unfold lz4_legacy, lz4_legacy_fuel. cbn [Z.eqb].
  replace (List.length (legacy_magic ++ rest))
    with (List.length (m ++ rest)).
  - rewrite (legacy_decode_loop_same_tail L m legacy_magic rest);
      try assumption; try reflexivity.
    unfold legacy_set_pos; cbn [lg_pos]. lia.
  - rewrite !length_app. f_equal.
    apply Nat2Z.inj. fold (lenZ m). fold (lenZ legacy_magic).
    rewrite Hm. reflexivity.
Qed.

Lemma lz4_legacy_decode_ignores_magic_witness :
  lz4_legacy lit_lz4
    ([x00; x00; x00; x00] ++ raw_block hello_block ++ le32 4294967295) 0 []
  = lz4_legacy lit_lz4
      (legacy_magic ++ raw_block hello_block ++ le32 4294967295) 0 [].
Proof.
  apply (lz4_legacy_decode_ignores_magic lit_lz4 [x00; x00; x00; x00]
           (raw_block hello_block ++ le32 4294967295) []).
  - reflexivity.
  - vm_compute. reflexivity.
Defined.

Example wrong_magic_decodes :
  lz4_legacy lit_lz4
    ([x00; x00; x00; x00] ++ raw_block hello_block ++ le32 4294967295) 0 []
  = Ok (5, hello).
Proof. vm_compute. reflexivity. Qed.

(* ================================================================== *)
(** * The counter of lz4_legacy *)

Lemma lenZ_concat_repeat (c : list byte) (k : nat) :
  lenZ (List.concat (repeat c k)) = Z.of_nat k * lenZ c.
Proof.
  induction k as [|k IH]; [reflexivity|].
  cbn [repeat List.concat]. rewrite lenZ_app, IH. lia.
Qed.

Lemma zero_decompress_le32 (n cap : Z) :
  0 <= n <= cap -> n < UINT_MOD ->
  zero_decompress (le32 n) cap = Some (repeat x00 (Z.to_nat n)).
Proof.
  intros Hn Hu. unfold zero_decompress.
  rewrite lenZ_le32, read_le32_le32 by lia.
  rewrite to_unsigned_small by lia.
  cbn [Z.eqb Pos.eqb].
  now replace (n <=? cap) with true by (symmetry; apply Z.leb_le; lia).
Qed.

(** Streams of [k] runs of [n] zero bytes decode to [k * n] zero bytes,
    counted modulo 2^32. *)
Lemma zero_runs_decode (n : Z) (k : nat) :
  0 <= n <= LZ4_LEGACY_BLOCKSIZE -> (1 <= k)%nat ->
  Z.of_nat k * 8 + 4 < SIZE_MOD ->
  lz4_legacy zero_lz4
    (legacy_magic ++ flat_map raw_block (repeat (le32 n) k)) 0 []
  = Ok (to_unsigned (Z.of_nat k * n),
        List.concat (repeat (repeat x00 (Z.to_nat n)) k)).
Proof.
  intros Hn Hk Hfit. pose proof BLOCKSIZE_value as HB.
  pose proof (legacy_plain_stream zero_lz4
                (repeat (le32 n, repeat x00 (Z.to_nat n)) k) []) as H.
  cbv zeta in H. rewrite !map_repeat in H. cbn [fst snd app] in H.
  rewrite lenZ_concat_repeat, lenZ_repeat, Z2Nat.id in H by lia.
  apply H.
  - rewrite lenZ_app.
    assert (G : forall j, lenZ (flat_map raw_block (repeat (le32 n) j))
                          = Z.of_nat j * 8).
    { induction j as [|j IH]; [reflexivity|].
      cbn [repeat flat_map]. unfold raw_block at 1.
      rewrite !lenZ_app, !lenZ_le32, IH. lia. }
    rewrite G. change (lenZ legacy_magic) with 4. lia.
  - destruct k; [lia|discriminate].
  - intros z c Hin. apply repeat_spec in Hin.
    injection Hin as -> ->. split.
    + apply zero_decompress_le32; unfold UINT_MOD; lia.
    + rewrite lenZ_le32, COMPRESSBOUND_value. lia.
Qed.

Lemma zero_stream_decodes :
  lz4_legacy zero_lz4 zero_stream 0 [] = Ok (0, zero_output).
Proof.
  unfold zero_stream, zero_output.
  rewrite (zero_runs_decode LZ4_LEGACY_BLOCKSIZE 512).
  - reflexivity.
  - rewrite BLOCKSIZE_value. lia.
  - lia.
  - unfold SIZE_MOD. lia.
Qed.

Lemma lenZ_zero_output : lenZ zero_output = 2 ^ 32.
Proof.
  unfold zero_output. rewrite lenZ_concat_repeat, lenZ_repeat.
  rewrite Z2Nat.id by (rewrite BLOCKSIZE_value; lia).
  rewrite BLOCKSIZE_value. reflexivity.
Qed.

(** C10 (the code's behaviour).  [total] of [lz4_legacy] is an [unsigned].
    In mode 0 the returned value is the number of bytes written, modulo
    2^32.  In mode 1 it is not: the four bytes of the trailing field are
    written without being added to [total], so the returned value is the
    number of bytes written less four, modulo 2^32, which differs from the
    number of bytes written modulo 2^32 for every output, those of 2^32
    bytes and more included. *)
Theorem C10_lz4_legacy_total_is_unsigned (L : lz4_block_lib)
    (buf fd0 : list byte) (t : Z) (out : list byte) :
  (lz4_legacy L buf 0 fd0 = Ok (t, out) ->
   exists w, out = fd0 ++ w /\ t = lenZ w mod 2 ^ 32)
  /\ (lz4_legacy L buf 1 fd0 = Ok (t, out) ->
      exists w, out = fd0 ++ w
        /\ t = (lenZ w - 4) mod 2 ^ 32
        /\ t <> lenZ w mod 2 ^ 32).
Proof.
  split; intros H.
  - apply lz4_legacy_decode_total in H. exact H.
  - apply lz4_legacy_encode_total in H.
    destruct H as [w [Hout [H4 Ht]]]. exists w.
    split; [exact Hout|]. split; [exact Ht|].
    rewrite Ht. replace (lenZ w) with (lenZ w - 4 + 4) at 2 by lia.
    apply mod_shift_4.
Qed.

Lemma C10_witness :
  (lenZ zero_output = 2 ^ 32
   /\ lz4_legacy zero_lz4 zero_stream 0 [] = Ok (0, zero_output)
   /\ exists w, zero_output = [] ++ w /\ 0 = lenZ w mod 2 ^ 32)
  /\ (lz4_legacy lit_lz4 hello 1 [] = Ok (14, hello_stream)
      /\ exists w, hello_stream = [] ++ w
           /\ 14 = (lenZ w - 4) mod 2 ^ 32
           /\ 14 <> lenZ w mod 2 ^ 32).
Proof.
  split.
  - split; [exact lenZ_zero_output|].
    split; [exact zero_stream_decodes|].
    apply (proj1 (C10_lz4_legacy_total_is_unsigned zero_lz4 zero_stream []
                    0 zero_output)).
    exact zero_stream_decodes.
  - assert (E : lz4_legacy lit_lz4 hello 1 [] = Ok (14, hello_stream))
      by (vm_compute; reflexivity).
    split; [exact E|].
    apply (proj2 (C10_lz4_legacy_total_is_unsigned lit_lz4 hello []
                    14 hello_stream)).
    exact E.
Defined.

(* ================================================================== *)
(** * The dispatchers and the coders they reach *)

(** [lzma] in a mode whose initialisation call returned [init], on an input
    of one window that one call transcodes. *)
Lemma lzma_reaches_coder (LZ : liblzma) (BUFSIZ : Z) (buf : list byte)
    (fuel : nat) (mode : Z) (out0 : list byte) :
  (1 <= fuel)%nat ->
  lenZ buf <= BUFSIZ -> BUFSIZ < 2 ^ 63 ->
  lzma_call_has_room LZ BUFSIZ (lzma_init LZ mode) buf ->
  lzma LZ BUFSIZ buf fuel mode out0
    = lzma_one_call LZ BUFSIZ (lzma_init LZ mode) buf out0.
Proof.
  intros Hf Hs HB Hroom. unfold lzma_one_call.
  destruct (fst (lzma_init LZ mode) =? LZMA_OK) eqn:E; cbn [negb].
  - destruct fuel as [|f]; [lia|].
    apply Z.eqb_eq in E.
    exact (lzma_single_call LZ BUFSIZ buf f mode out0 Hs HB E Hroom).
  - unfold lzma. destruct (lzma_init LZ mode) as [r i].
    cbn [fst] in E. rewrite E. reflexivity.
Qed.

(** A failing initialisation call ends [lzma] at once, whatever the
    input. *)
Lemma lzma_init_fails (LZ : liblzma) (BUFSIZ : Z) (buf : list byte)
    (fuel : nat) (mode : Z) (out0 : list byte) :
  fst (lzma_init LZ mode) <> LZMA_OK ->
  lzma LZ BUFSIZ buf fuel mode out0 = Fail CodecInitError.
Proof.
  intros H. unfold lzma. destruct (lzma_init LZ mode) as [r i].
  cbn [fst] in H. apply Z.eqb_neq in H. rewrite H. reflexivity.
Qed.

(** C5.  Both dispatchers return -1, writing nothing, for the unknown tag;
    for every recognised tag they call the matching transcoder, in mode 0
    from [decomp] and in mode 1 from [comp], with one asymmetry: xz and
    legacy LZMA share the decoder call [lzma (0, ...)], while [comp] calls
    [lzma (1, ...)] for xz and [lzma (2, ...)] for legacy LZMA.  The three
    modes reach three different initialisation calls of the library:
    on an input of one window that one [lzma_code] call transcodes, what
    either decoder path returns is what that call makes of the state
    [lzma_auto_decoder] set up, what [comp] returns for xz is what it makes
    of the state [lzma_stream_encoder] set up (LZMA2 filter of preset 9,
    CRC32), and what [comp] returns for legacy LZMA is what it makes of the
    state [lzma_alone_encoder] set up (preset 9).  For every input, a
    failing initialisation call is the initialisation error of the paths
    that make it and of no other.  With the reference libraries the two
    encoders give different streams. *)
Theorem C5_dispatch (K : codecs) (fuel : nat) (to from : list byte) :
  let LZ := lib_lzma K in
  let auto := lzma_auto_decoder LZ (LZMA_STREAM_INIT LZ) UINT64_MAX 0 in
  let xz :=
    lzma_stream_encoder LZ (LZMA_STREAM_INIT LZ) 9 LZMA_CHECK_CRC32 in
  let alone := lzma_alone_encoder LZ (LZMA_STREAM_INIT LZ) 9 in
  decomp K fuel UNKNOWN to from = Ok (-1, to)
  /\ comp K fuel UNKNOWN to from = Ok (-1, to)
  /\ decomp K fuel GZIP to from
     = as_long_long (gzip (lib_zlib K) from fuel 0 to)
  /\ comp K fuel GZIP to from
     = as_long_long (gzip (lib_zlib K) from fuel 1 to)
  /\ decomp K fuel BZIP2 to from
     = as_long_long (bzip2 (lib_bzip2 K) from fuel 0 to)
  /\ comp K fuel BZIP2 to from
     = as_long_long (bzip2 (lib_bzip2 K) from fuel 1 to)
  /\ decomp K fuel LZ4 to from
     = as_long_long (lz4 (lib_lz4f K) from fuel 0 to)
  /\ comp K fuel LZ4 to from
     = as_long_long (lz4 (lib_lz4f K) from fuel 1 to)
  /\ decomp K fuel LZ4_LEGACY to from
     = as_long_long (lz4_legacy (lib_lz4 K) from 0 to)
  /\ comp K fuel LZ4_LEGACY to from
     = as_long_long (lz4_legacy (lib_lz4 K) from 1 to)
  /\ decomp K fuel XZ to from = as_long_long (lzma LZ (BUFSIZ K) from fuel 0 to)
  /\ decomp K fuel LZMA to from = decomp K fuel XZ to from
  /\ comp K fuel XZ to from = as_long_long (lzma LZ (BUFSIZ K) from fuel 1 to)
  /\ comp K fuel LZMA to from
     = as_long_long (lzma LZ (BUFSIZ K) from fuel 2 to)
  /\ ((1 <= fuel)%nat -> lenZ from <= BUFSIZ K -> BUFSIZ K < 2 ^ 63 ->
      (lzma_call_has_room LZ (BUFSIZ K) auto from ->
       decomp K fuel XZ to from
         = as_long_long (lzma_one_call LZ (BUFSIZ K) auto from to)
       /\ decomp K fuel LZMA to from
          = as_long_long (lzma_one_call LZ (BUFSIZ K) auto from to))
      /\ (lzma_call_has_room LZ (BUFSIZ K) xz from ->
          comp K fuel XZ to from
            = as_long_long (lzma_one_call LZ (BUFSIZ K) xz from to))
      /\ (lzma_call_has_room LZ (BUFSIZ K) alone from ->
          comp K fuel LZMA to from
            = as_long_long (lzma_one_call LZ (BUFSIZ K) alone from to)))
  /\ (fst auto <> LZMA_OK ->
      decomp K fuel XZ to from = Fail CodecInitError
      /\ decomp K fuel LZMA to from = Fail CodecInitError)
  /\ (fst xz <> LZMA_OK -> comp K fuel XZ to from = Fail CodecInitError)
  /\ (fst alone <> LZMA_OK -> comp K fuel LZMA to from = Fail CodecInitError)
  /\ comp tag_codecs 4 XZ [] hello <> comp tag_codecs 4 LZMA [] hello.
Proof.
  intros LZ auto xz alone.
  repeat (split; [reflexivity|]).
  split; [|split; [|split; [|split; [|vm_compute; discriminate]]]].
  2: { intros H. unfold decomp. fold LZ.
       rewrite (lzma_init_fails LZ (BUFSIZ K) from fuel 0 to H).
       split; reflexivity. }
  2: { intros H. unfold comp. fold LZ.
       now rewrite (lzma_init_fails LZ (BUFSIZ K) from fuel 1 to H). }
  2: { intros H. unfold comp. fold LZ.
       now rewrite (lzma_init_fails LZ (BUFSIZ K) from fuel 2 to H). }
  intros Hf Hs HB.
  split; [|split]; intros Hroom.
  - assert (E : lzma LZ (BUFSIZ K) from fuel 0 to
                = lzma_one_call LZ (BUFSIZ K) auto from to)
      by (now apply (lzma_reaches_coder LZ (BUFSIZ K) from fuel 0 to)).
    unfold decomp. fold LZ. rewrite E. split; reflexivity.
  - assert (E : lzma LZ (BUFSIZ K) from fuel 1 to
                = lzma_one_call LZ (BUFSIZ K) xz from to)
      by (now apply (lzma_reaches_coder LZ (BUFSIZ K) from fuel 1 to)).
    unfold comp. fold LZ. rewrite E. reflexivity.
  - assert (E : lzma LZ (BUFSIZ K) from fuel 2 to
                = lzma_one_call LZ (BUFSIZ K) alone from to)
      by (now apply (lzma_reaches_coder LZ (BUFSIZ K) from fuel 2 to)).
    unfold comp. fold LZ. rewrite E. reflexivity.
Qed.

Lemma C5_witness :
  ((decomp tag_codecs 4 XZ [] [xfd; x01; x68; x00]
      = as_long_long
          (lzma_one_call tag_lzma 1024
             (lzma_auto_decoder tag_lzma (LZMA_STREAM_INIT tag_lzma)
                UINT64_MAX 0)
             [xfd; x01; x68; x00] [])
    /\ decomp tag_codecs 4 LZMA [] [xfd; x01; x68; x00]
       = as_long_long
           (lzma_one_call tag_lzma 1024
              (lzma_auto_decoder tag_lzma (LZMA_STREAM_INIT tag_lzma)
                 UINT64_MAX 0)
              [xfd; x01; x68; x00] []))
   /\ comp tag_codecs 4 XZ [] [x68]
      = as_long_long
          (lzma_one_call tag_lzma 1024
             (lzma_stream_encoder tag_lzma (LZMA_STREAM_INIT tag_lzma) 9
                LZMA_CHECK_CRC32)
             [x68] [])
   /\ comp tag_codecs 4 LZMA [] [x68]
      = as_long_long
          (lzma_one_call tag_lzma 1024
             (lzma_alone_encoder tag_lzma (LZMA_STREAM_INIT tag_lzma) 9)
             [x68] []))
  /\ comp xz_less_codecs 4 XZ [] [x68] = Fail CodecInitError.
Proof.
  pose proof (C5_dispatch tag_codecs 4 [] [xfd; x01; x68; x00]) as D.
  pose proof (C5_dispatch tag_codecs 4 [] [x68]) as E.
  pose proof (C5_dispatch xz_less_codecs 4 [] [x68]) as F.
  cbv zeta in D, E, F.
  destruct D as [_ [_ [_ [_ [_ [_ [_ [_ [_ [_ [_ [_ [_ [_ [D _]]]]]]]]]]]]]]].
  destruct E as [_ [_ [_ [_ [_ [_ [_ [_ [_ [_ [_ [_ [_ [_ [E _]]]]]]]]]]]]]]].
  destruct F
    as [_ [_ [_ [_ [_ [_ [_ [_ [_ [_ [_ [_ [_ [_ [_ [_ [F _]]]]]]]]]]]]]]]]].
  destruct D as [D _];
    [lia | vm_compute; discriminate | vm_compute; reflexivity |].
  destruct E as [_ [E1 E2]];
    [lia | vm_compute; discriminate | vm_compute; reflexivity |].
  split; [|apply F; vm_compute; discriminate].
  split; [apply D; vm_compute; reflexivity|].
  split; [apply E1; vm_compute; reflexivity|].
  apply E2. vm_compute. reflexivity.
Defined.

Example dispatch_reaches_the_encoders :
  comp xz_less_codecs 4 LZMA [] [x68] = Ok (4, [x5d; x01; x68; x00])
  /\ decomp xz_less_codecs 4 XZ [] [xfd; x01; x68; x00] = Ok (1, [x68])
  /\ comp tag_codecs 4 XZ [] [x68] = Ok (4, [xfd; x01; x68; x00])
  /\ comp tag_codecs 4 LZMA [] [x68] = Ok (4, [x5d; x01; x68; x00])
  /\ decomp tag_codecs 4 XZ [] [xfd; x01; x68; x00] = Ok (1, [x68])
  /\ decomp tag_codecs 4 LZMA [] [x5d; x01; x68; x00] = Ok (1, [x68]).
Proof. vm_compute. repeat split; reflexivity. Qed.

(* ================================================================== *)
(** * Windows and the finish value *)

(** C9 (as amended).  The gzip and bzip2 transcoders move the cursor in
    windows of 256 KiB and LZ4 frame encode in windows of 4 MiB; the window
    of the lzma transcoder is [BUFSIZ] bytes, whatever <stdio.h> defines;
    the last window is the rest of the input.  Every library call of the
    last window, and no call of another window, is handed the finish value
    by gzip ([inflate] and [deflate], [Z_FINISH]), by lzma ([lzma_code],
    [LZMA_FINISH]) and by bzip2 when compressing ([BZ2_bzCompress],
    [BZ_FINISH]); [BZ2_bzDecompress] takes no such argument.  The lz4 loop
    hands [LZ4F_compressUpdate] its windows with no finish value and the
    frame is ended by the [LZ4F_compressEnd] call behind the loop. *)
Theorem C9_windows (ZL : zlib) (LZ : liblzma) (BZ : bzlib) (LF : lz4f_lib)
    (BUFSIZ : Z) (buf : list byte) (fuel : nat) (mode : Z) :
  0 <= BUFSIZ ->
  lenZ buf + CHUNK < SIZE_MOD ->
  lenZ buf + BUFSIZ < SIZE_MOD ->
  lenZ buf + lz4_blockSize < SIZE_MOD ->
  windows_as_coded ZL LZ BZ LF BUFSIZ buf fuel mode
  /\ calls_as_coded ZL LZ BZ BUFSIZ buf
  /\ ((1 <= fuel)%nat -> lenZ buf <= Z.of_nat fuel * lz4_blockSize ->
      frame_ended_after_loop LF buf fuel).
Proof.
  intros HB Hc Hb Hl.
  split; [|split].
  - revert HB Hc Hb Hl.
    { intros HB Hc Hb Hl. pose proof (lenZ_nonneg buf) as H0.
      unfold windows_as_coded. cbv zeta.
      split; [reflexivity|]. split; [reflexivity|].
      split; [|split; [|split; [|split; [|split; [|split; [|split]]]]]].
      - intros r i out0.
        apply (cursor_from_step pos CHUNK); try reflexivity; try assumption.
        + unfold CHUNK. lia.
        + intros s s' Hp Hs. now apply (gzip_outer_step ZL buf Hc fuel mode).
      - intros s Hp. now apply gzip_outer_body_eq.
      - intros r i out0.
        apply (cursor_from_step pos CHUNK); try reflexivity; try assumption.
        + unfold CHUNK. lia.
        + intros s s' Hp Hs. now apply (bzip2_outer_step BZ buf Hc fuel mode).
      - intros s Hp. now apply bzip2_outer_body_eq.
      - intros r i out0.
        apply (cursor_from_step pos BUFSIZ); try reflexivity; try assumption.
        intros s s' Hp Hs. now apply (lzma_outer_step LZ BUFSIZ buf HB Hb fuel).
      - intros s Hp. now apply lzma_outer_body_eq.
      - intros s0 outCapacity Hp0 Hctx.
        apply (cursor_windows_from_step (fun s => exists c, l_ctx s = inr c)
                 l_pos lz4_blockSize); try assumption.
        + rewrite lz4_blockSize_value. lia.
        + intros s Hs. unfold lz4_outer_cond in Hs.
          apply andb_true_iff in Hs. destruct Hs as [Hs _].
          now apply Z.ltb_lt.
        + intros s s' Hi Hp Hs.
          now apply (lz4_encode_outer_step LF buf Hl fuel outCapacity).
      - intros outCapacity s Hp. now apply lz4_outer_body_eq. }
  - unfold calls_as_coded.
    split; [|split; [|split; [|split]]]; intros; reflexivity.
  - intros Hf Hfuel out0 r0 r1 r3 c0 c1 c2 c3 hdr body ftr E0 I0 E1 I1 Eu E3 I3.
    exact (lz4_encode_layout LF buf fuel out0 r0 r1 r3 c0 c1 c2 c3 hdr body
             ftr Hl Hfuel Hf E0 I0 E1 I1 Eu E3 I3).
Qed.

Lemma C9_witness :
  windows_as_coded tag_zlib tag_lzma tag_bzlib tag_lz4f 1024 hello 4 1
  /\ calls_as_coded tag_zlib tag_lzma tag_bzlib 1024 hello
  /\ lz4 tag_lz4f hello 4 1 [] =
       Ok (to_size_t
             (lenZ (takeZ 5 [x04; x22; x4d; x18; x07] ++ tagged_body hello
                    ++ takeZ 1 [x00])),
           [] ++ takeZ 5 [x04; x22; x4d; x18; x07] ++ tagged_body hello
              ++ takeZ 1 [x00]).
Proof.
  destruct (C9_windows tag_zlib tag_lzma tag_bzlib tag_lz4f 1024 hello
              4%nat 1) as [W [C F]].
  - lia.
  - vm_compute. reflexivity.
  - vm_compute. reflexivity.
  - vm_compute. reflexivity.
  - split; [exact W|]. split; [exact C|].
    apply (F ltac:(lia) ltac:(vm_compute; discriminate) [] 0 5 1 tt tt tt tt
             [x04; x22; x4d; x18; x07] (tagged_body hello) [x00]);
      reflexivity.
Defined.

(* ================================================================== *)
(** * Decoding a stream that was cut short *)






